(** * Calendarr: ingestion, reconciliation and range queries

    A shallow embedding of the calendar aggregator (the server with the
    SQLite store: [fetchWithRetries], [fetchAndStoreEvents] and the
    [/events.json] handler) together with the properties its design
    document states about it, further properties that the code itself
    shows, and the variant without a store ([index.js]: [fetchWithCache]
    and the handlers of [/sonarr.json] and [/radarr.json]).

    The external collaborators are modelled by what the program observes of
    them:
    - the HTTP client ([axios.get]) is an oracle giving the outcome of each
      attempt;
    - the iCalendar parser ([ICAL.parse]) is a parameter of the development;
    - the storage engine is the table [events], a list of rows in rowid order
      with the AUTOINCREMENT counter, and the three statements the program
      prepares;
    - the result cache (node-cache) is a finite map from keys to a value and
      its expiry instant;
    - the query parser gives each parameter of a request as a string, or,
      for a repeated or bracketed parameter, as an array or object, which
      is known by its text and by what the driver binds for it;
    - the callbacks the storage driver invokes later are explicit pending
      work in the state, run by a labelled step function. *)

From stdpp Require Import gmap strings list sorting.
From Stdlib Require Import ZArith Lia Ascii.

Local Open Scope Z_scope.

(** ** Data model *)

(** The object built by the [map] callback of [fetchAndStoreEvents]. *)
Record Event := mkEvent {
  title : string;
  start : string;
  end_ : string;
  color : string;
  description : string;
  location : string
}.

(** A row of the table [events]: the six columns and the surrogate [id]. *)
Record Row := mkRow {
  row_id : Z;
  row_title : string;
  row_start : string;
  row_end : string;
  row_color : string;
  row_description : string;
  row_location : string
}.

(** The table and the AUTOINCREMENT counter kept by the engine
    (the largest rowid ever handed out). *)
Record Storage := mkStorage {
  rows : list Row;
  sqlite_sequence : Z
}.

Global Instance Event_eq_dec : EqDecision Event.
Proof. solve_decision. Defined.

Global Instance Row_eq_dec : EqDecision Row.
Proof. solve_decision. Defined.

Global Instance Storage_eq_dec : EqDecision Storage.
Proof. solve_decision. Defined.

(** The identity key of the design document: (title, start, end). *)
Definition Key : Type := string * string * string.

Definition event_key (e : Event) : Key := (title e, start e, end_ e).
Definition row_key (r : Row) : Key := (row_title r, row_start r, row_end r).

Definition empty_storage : Storage := mkStorage [] 0.

(** ** The storage engine *)

Module Db.

(** [WHERE title = ? AND start = ? AND end = ?] *)
Definition matches (k : Key) (r : Row) : Prop := row_key r = k.

Global Instance matches_dec k r : Decision (matches k r).
Proof. unfold matches. apply _. Defined.

(** [db.get(`SELECT * FROM events WHERE title = ? AND start = ? AND end = ?`)]:
    the first matching row, [None] for JavaScript's [undefined]. *)
Definition get (db : Storage) (k : Key) : option Row :=
  snd <$> list_find (matches k) (rows db).

Definition max_id (l : list Row) : Z :=
  foldr (fun r m => Z.max (row_id r) m) 0 l.

(** The rowid an AUTOINCREMENT column gives to the next row: one more than
    the largest rowid that ever existed in the table. *)
Definition next_id (db : Storage) : Z :=
  Z.max (sqlite_sequence db) (max_id (rows db)) + 1.

(** [INSERT INTO events (title, start, end, color, description, location)
     VALUES (?, ?, ?, ?, ?, ?)] *)
Definition insert (db : Storage) (e : Event) : Storage :=
  let i := next_id db in
  mkStorage
    (rows db ++ [mkRow i (title e) (start e) (end_ e) (color e)
                       (description e) (location e)])
    i.

Definition set_color (c : string) (r : Row) : Row :=
  mkRow (row_id r) (row_title r) (row_start r) (row_end r) c
        (row_description r) (row_location r).

(** [UPDATE events SET color = ? WHERE title = ? AND start = ? AND end = ?] *)
Definition update_color (db : Storage) (c : string) (k : Key) : Storage :=
  mkStorage
    ((fun r => if decide (matches k r) then set_color c r else r) <$> rows db)
    (sqlite_sequence db).

(** Comparison of two TEXT values under the BINARY collation: byte by byte,
    a proper prefix first. *)
Definition text_le (a b : string) : bool := String.leb a b.
Definition text_ge (a b : string) : bool := String.leb b a.

(** [WHERE start >= ? AND end <= ?] *)
Definition in_range (rangeStart rangeEnd : string) (r : Row) : bool :=
  text_ge (row_start r) rangeStart && text_le (row_end r) rangeEnd.

(** [db.all(`SELECT * FROM events WHERE start >= ? AND end <= ?`)] *)
Definition all_in_range (db : Storage) (rangeStart rangeEnd : string)
  : list Row :=
  List.filter (in_range rangeStart rangeEnd) (rows db).

End Db.

(** ** Feed fetcher *)

(** What one [axios.get(url)] does: it rejects (transport error or a status
    outside 2xx) or resolves with the body. *)
Inductive Outcome :=
| Rejected (message : string)
| Resolved (data : string).

(** Values that are thrown and end up in the [catch] of
    [fetchAndStoreEvents]. *)
Inductive Exn :=
| FetchFailed (url : string) (retries : nat)
    (* new Error(`Failed to fetch data from ${url} after ${retries} attempts`) *)
| ParserError (message : string)
| TypeError (message : string).

(** Observable effects, in program order. *)
Inductive Effect :=
| HttpGet (url : string) (attempt : nat)
| AttemptFailed (attempt : nat) (message : string)
| Sleep (ms : Z)
| ErrorFetchingAndStoring (e : Exn)
| DatabaseError
| UpdatingExisting (title : string)
| InsertingNew (title : string).

Inductive FetchResult :=
| Returned (data : string)
| ReturnedUndefined
| Thrown (e : Exn).

(** The body of [for (let attempt = 1; attempt <= retries; attempt++)].
    [remaining] counts the iterations still allowed by the loop condition,
    [retries + 1 - attempt]; [upstream n] is the outcome of attempt [n]. *)
Fixpoint fetch_loop (upstream : nat -> Outcome) (url : string) (retries : nat)
    (delay : Z) (remaining attempt : nat) : FetchResult * list Effect :=
  match remaining with
  | O => (ReturnedUndefined, [])
  | S remaining' =>
      match upstream attempt with
      | Resolved data => (Returned data, [HttpGet url attempt])
      | Rejected message =>
          if (attempt <? retries)%nat then
            let '(r, tr) :=
              fetch_loop upstream url retries delay remaining' (S attempt) in
            (r, HttpGet url attempt :: AttemptFailed attempt message
                  :: Sleep delay :: tr)
          else
            (Thrown (FetchFailed url retries),
             [HttpGet url attempt; AttemptFailed attempt message])
      end
  end.

Definition fetchWithRetries (upstream : nat -> Outcome) (url : string)
    (retries : nat) (delay : Z) : FetchResult * list Effect :=
  fetch_loop upstream url retries delay retries 1%nat.

Definition default_retries : nat := 3.
Definition default_delay : Z := 10000.

(** ** Feed normalizer *)

(** What the program reads from one [vevent] component: the getters of
    [ICAL.Event] and [getFirstPropertyValue('status')], [None] where the
    library gives [null]. The two dates are already in the form
    [toString()] prints; both are results of getters, and what the getter
    of the end gives for a component without DTEND is the library's
    affair. *)
Record VEvent := mkVEvent {
  summary : option string;
  startDate : option string;
  endDate : option string;
  status : option string;
  vdescription : option string;
  vlocation : option string
}.

(** [x + null] on strings appends the text [null]. *)
Definition js_string (v : option string) : string := default "null" v.

(** [v || ''] *)
Definition or_empty (v : option string) : string := default "" v.

(** The callback given to [map] (lines 65-76); reading [toString] of an
    absent date throws. *)
Definition normalize_one (prefix : string) (v : VEvent) : Exn + Event :=
  match startDate v with
  | None => inl (TypeError "Cannot read properties of null (reading 'toString')")
  | Some s =>
      match endDate v with
      | None =>
          inl (TypeError "Cannot read properties of null (reading 'toString')")
      | Some e =>
          inr (mkEvent
                 ("[" +:+ prefix +:+ "] " +:+ js_string (summary v))
                 s e
                 (if decide (status v = Some "CONFIRMED") then "green" else "red")
                 (or_empty (vdescription v))
                 (or_empty (vlocation v)))
      end
  end.

(** [getAllSubcomponents('vevent').map(...)]: the first throwing component
    ends the whole [map]. *)
Fixpoint normalize (prefix : string) (vs : list VEvent) : Exn + list Event :=
  match vs with
  | [] => inr []
  | v :: vs' =>
      match normalize_one prefix v with
      | inl e => inl e
      | inr ev =>
          match normalize prefix vs' with
          | inl e => inl e
          | inr evs => inr (ev :: evs)
          end
      end
  end.

(** ** Reconciler *)

(** What the callback of [db.get] receives: [err], or [row] ([None] for
    [undefined]). *)
Inductive GetResult :=
| GetErr
| GetRow (row : option Row).

(** The calls queued on a prepared statement. The driver runs the calls of
    one statement one at a time, in the order they were made. *)
Inductive StmtOp (A : Type) :=
| Run (args : A)
| Finalize.
Arguments Run {A} args.
Arguments Finalize {A}.

Record Statement (A : Type) := mkStatement {
  queue : list (StmtOp A);
  finalized : bool
}.
Arguments mkStatement {A} queue finalized.
Arguments queue {A} s.
Arguments finalized {A} s.

Definition prepare {A : Type} : Statement A := mkStatement [] false.

Definition call {A : Type} (op : StmtOp A) (s : Statement A) : Statement A :=
  mkStatement (queue s ++ [op]) (finalized s).

(** One call of [fetchAndStoreEvents] after its synchronous part. [db.get]
    only hands the SELECT to the driver; the callback is invoked from the
    event loop, after [forEach] has returned, and it is the callback that
    calls [run] on a statement. A pass is therefore: the lookups that
    [forEach] has issued and whose SELECT has not run yet, the lookups whose
    SELECT has run and whose callback has not been invoked yet, the two
    prepared statements with their queued calls, and the counter
    [pendingOperations]. *)
Record Pass := mkPass {
  issued : list Event;
  resolved : list (Event * GetResult);
  stmtInsert : Statement Event;
  stmtUpdate : Statement (string * Key);
  pendingOperations : Z
}.

(** Lines 105-108, and lines 97-100 inside the callback. *)
Definition finalize_if_done (p : Pass) : Pass :=
  if decide (pendingOperations p = 0) then
    mkPass (issued p) (resolved p)
           (call Finalize (stmtInsert p)) (call Finalize (stmtUpdate p))
           (pendingOperations p)
  else p.

(** Lines 78-108: the statements are prepared, [forEach] issues one lookup
    per event, and the statements are finalized at once when there is
    nothing to wait for. *)
Definition begin_pass (events : list Event) : Pass :=
  finalize_if_done
    (mkPass events [] prepare prepare (Z.of_nat (length events))).

(** The callback of [db.get] (lines 86-101) for [event]. *)
Definition get_callback (event : Event) (res : GetResult) (p : Pass)
    : Pass * list Effect :=
  let '(p1, log) :=
    match res with
    | GetErr => (p, [DatabaseError])
    | GetRow (Some _) =>
        (mkPass (issued p) (resolved p) (stmtInsert p)
                (call (Run (color event, event_key event)) (stmtUpdate p))
                (pendingOperations p),
         [UpdatingExisting (title event)])
    | GetRow None =>
        (mkPass (issued p) (resolved p)
                (call (Run event) (stmtInsert p)) (stmtUpdate p)
                (pendingOperations p),
         [InsertingNew (title event)])
    end in
  (finalize_if_done
     (mkPass (issued p1) (resolved p1) (stmtInsert p1) (stmtUpdate p1)
             (pendingOperations p1 - 1)),
   log).

(** What the driver may do next for a pass. *)
Inductive PassAction :=
| SelectRuns (i : nat) (err : bool)
    (* the engine executes the SELECT of the i-th issued lookup *)
| CallbackRuns (i : nat)
    (* the callback of the i-th resolved lookup is invoked *)
| InsertStmtRuns
    (* the first queued call of stmtInsert is executed *)
| UpdateStmtRuns.
    (* the first queued call of stmtUpdate is executed *)

(** The first queued call of a statement; a [Run] on a finalized statement
    is rejected by the driver and does nothing to the table. *)
Definition stmt_step {A : Type} (exec : Storage -> A -> Storage)
    (db : Storage) (s : Statement A) : option (Storage * Statement A) :=
  match queue s with
  | [] => None
  | Run args :: q =>
      Some (if finalized s then db else exec db args, mkStatement q (finalized s))
  | Finalize :: q => Some (db, mkStatement q true)
  end.

Definition exec_insert (db : Storage) (e : Event) : Storage := Db.insert db e.
Definition exec_update (db : Storage) (a : string * Key) : Storage :=
  Db.update_color db (fst a) (snd a).

Definition pass_step (a : PassAction) (db : Storage) (p : Pass)
    : option (Storage * Pass * list Effect) :=
  match a with
  | SelectRuns i err =>
      match issued p !! i with
      | None => None
      | Some e =>
          let res := if err then GetErr else GetRow (Db.get db (event_key e)) in
          Some (db,
                mkPass (delete i (issued p)) (resolved p ++ [(e, res)])
                       (stmtInsert p) (stmtUpdate p) (pendingOperations p),
                [])
      end
  | CallbackRuns i =>
      match resolved p !! i with
      | None => None
      | Some (e, res) =>
          let '(p', log) :=
            get_callback e res
              (mkPass (issued p) (delete i (resolved p))
                      (stmtInsert p) (stmtUpdate p) (pendingOperations p)) in
          Some (db, p', log)
      end
  | InsertStmtRuns =>
      match stmt_step exec_insert db (stmtInsert p) with
      | None => None
      | Some (db', s) =>
          Some (db',
                mkPass (issued p) (resolved p) s (stmtUpdate p)
                       (pendingOperations p),
                [])
      end
  | UpdateStmtRuns =>
      match stmt_step exec_update db (stmtUpdate p) with
      | None => None
      | Some (db', s) =>
          Some (db',
                mkPass (issued p) (resolved p) (stmtInsert p) s
                       (pendingOperations p),
                [])
      end
  end.

(** A pass is over when nothing of it is pending any more. *)
Definition pass_done (p : Pass) : Prop :=
  issued p = [] /\ resolved p = [] /\
  queue (stmtInsert p) = [] /\ queue (stmtUpdate p) = [].

(** A run of one pass alone against the table, under a given schedule. *)
Fixpoint run_pass (sched : list PassAction) (db : Storage) (p : Pass)
    : option (Storage * Pass) :=
  match sched with
  | [] => Some (db, p)
  | a :: sched' =>
      match pass_step a db p with
      | None => None
      | Some (db', p', _) => run_pass sched' db' p'
      end
  end.

(** ** Result cache *)

(** An entry of node-cache: the stored value (the library's field [v]) and
    the instant in milliseconds after which it is expired (the library's
    field [t]); an expiry of [0] means the entry never expires. *)
Record CacheEntry := mkCacheEntry {
  entry_value : list Row;
  entry_expiry : Z
}.

Global Instance CacheEntry_eq_dec : EqDecision CacheEntry.
Proof. solve_decision. Defined.

Module Cache.

(** [new NodeCache({ stdTTL: 600 })], in seconds. *)
Definition stdTTL : Z := 600.

Definition expired (now : Z) (e : CacheEntry) : Prop :=
  entry_expiry e <> 0 /\ entry_expiry e < now.

Global Instance expired_dec now e : Decision (expired now e).
Proof. unfold expired. apply _. Defined.

(** [cache.get(key)]: an expired entry is deleted and reported as a miss. *)
Definition get (now : Z) (c : gmap string CacheEntry) (key : string)
  : option (list Row) * gmap string CacheEntry :=
  match c !! key with
  | None => (None, c)
  | Some e =>
      if decide (expired now e) then (None, delete key c)
      else (Some (entry_value e), c)
  end.

(** [cache.set(key, value)] with the standard time to live. *)
Definition set (now : Z) (c : gmap string CacheEntry) (key : string)
    (value : list Row) : gmap string CacheEntry :=
  <[key := mkCacheEntry value (now + stdTTL * 1000)]> c.

(** The periodic check of node-cache: every expired entry is deleted. *)
Definition check_data (now : Z) (c : gmap string CacheEntry)
  : gmap string CacheEntry :=
  filter (fun kv => ~ expired now (snd kv)) c.

End Cache.

(** ** Query service *)

(** A parameter of [req.query]. The query parser gives a string for a
    parameter that occurs once, and an array or an object for a repeated
    ([start=a&start=b]) or a bracketed ([start[k]=a]) one; the handler
    checks no type. Of an array or object the handler uses three things:
    its truth value, which is true; its text in the template literal of the
    cache key ([text], [None] when the conversion throws, as for an object
    whose [toString] is not a function); and what the driver binds for it
    when it is handed to [db.all] ([bound], the text bound, or [None] when
    the driver leaves the parameter NULL). *)
Inductive QueryValue :=
| Str (s : string)
| Structured (text bound : option string).

(** [req.query] of a request to [/events.json]: each of the two parameters
    is absent or has a value. *)
Record Query := mkQuery {
  q_start : option QueryValue;
  q_end : option QueryValue
}.

(** [!v] for a parameter that is present: true of the empty string only. *)
Definition falsy (v : QueryValue) : bool :=
  match v with
  | Str s => bool_decide (s = "")
  | Structured _ _ => false
  end.

(** The text of [v] in a template literal. *)
Definition template (v : QueryValue) : option string :=
  match v with
  | Str s => Some s
  | Structured text _ => text
  end.

(** What the driver binds for a parameter handed to it. *)
Definition bind (v : QueryValue) : option string :=
  match v with
  | Str s => Some s
  | Structured _ bound => bound
  end.

(** [db.all(`SELECT * FROM events WHERE start >= ? AND end <= ?`,
    [start, end])]: a comparison with NULL selects no row. *)
Definition db_all (db : Storage) (start end_ : QueryValue) : list Row :=
  match bind start, bind end_ with
  | Some rangeStart, Some rangeEnd => Db.all_in_range db rangeStart rangeEnd
  | _, _ => []
  end.

Inductive Response :=
| Status400 (error : string)   (* res.status(400).json({ error }) *)
| Json (rows : list Row)       (* res.json(rows) *)
| Status500 (body : string)    (* res.status(500).send(body) *)
| Uncaught (e : Exn).          (* the handler threw: Express answers for it *)

(** A [db.all] the handler has issued: the cache key its callback will
    write under, and the two parameters handed to the driver. *)
Record Scan := mkScan {
  scan_key : string;
  scan_start : QueryValue;
  scan_end : QueryValue
}.

(** How the synchronous part of the handler ends: with a reply, or with a
    scan of the table left to the driver. *)
Inductive Handled :=
| Replied (r : Response)
| Scanning (s : Scan).

Definition required_message : string :=
  "Start and end query parameters are required".

(** `${start}_${end}` *)
Definition cacheKey (start end_ : string) : string :=
  start +:+ "_" +:+ end_.

(** Lines 128-156 up to the call of [db.all]. [!start] holds of an absent
    parameter and of the empty string; an array or an object passes the
    guard, gives its text to the key and is handed to the driver as it
    is. *)
Definition events_json (now : Z) (c : gmap string CacheEntry) (q : Query)
    : Handled * gmap string CacheEntry :=
  match q_start q, q_end q with
  | Some start, Some end_ =>
      if falsy start || falsy end_ then
        (Replied (Status400 required_message), c)
      else
        match template start, template end_ with
        | Some s, Some e =>
            match Cache.get now c (cacheKey s e) with
            | (Some cachedData, c') => (Replied (Json cachedData), c')
            | (None, c') => (Scanning (mkScan (cacheKey s e) start end_), c')
            end
        | _, _ =>
            (Replied
               (Uncaught (TypeError "Cannot convert object to primitive value")),
             c)
        end
  | _, _ => (Replied (Status400 required_message), c)
  end.

(** The callback of [db.all] (lines 147-155); [None] is [err]. *)
Definition all_callback (now : Z) (c : gmap string CacheEntry) (key : string)
    (res : option (list Row))
    : Response * gmap string CacheEntry * list Effect :=
  match res with
  | None => (Status500 "Failed to fetch events", c, [DatabaseError])
  | Some rows => (Json rows, Cache.set now c key rows, [])
  end.

(** ** The running server *)

Section Server.

(** [ICAL.parse] followed by [getAllSubcomponents('vevent')]: the event
    components of a document, or the exception the parser throws. *)
Variable ICAL_parse : string -> Exn + list VEvent.

(** Lines 60-112 up to the end of the synchronous part: the pass that is
    left running, if any, and what was printed. Every exception of the
    [try] block ends in the [catch], which prints it. *)
Definition fetchAndStoreEvents (upstream : nat -> Outcome)
    (url prefix : string) : option Pass * list Effect :=
  let '(r, tr) := fetchWithRetries upstream url default_retries default_delay in
  match r with
  | Thrown e => (None, tr ++ [ErrorFetchingAndStoring e])
  | ReturnedUndefined =>
      (None, tr ++ [ErrorFetchingAndStoring (TypeError "undefined")])
  | Returned icsData =>
      match ICAL_parse icsData with
      | inl e => (None, tr ++ [ErrorFetchingAndStoring e])
      | inr vevents =>
          match normalize prefix vevents with
          | inl e => (None, tr ++ [ErrorFetchingAndStoring e])
          | inr events => (Some (begin_pass events), tr)
          end
      end
  end.

(** The state of the process: the table, the cache, the clock, the passes
    and scans in flight, the replies sent and the console. *)
Record System := mkSystem {
  db : Storage;
  cache : gmap string CacheEntry;
  clock : Z;
  passes : list Pass;
  scans : list Scan;
  scanned : list (string * option (list Row));
  replies : list Response;
  console : list Effect
}.

(** What can happen next. *)
Inductive Action :=
| Tick (ms : Z)
    (* time passes *)
| Ingest (url prefix : string) (upstream : nat -> Outcome)
    (* a call of fetchAndStoreEvents by the startup task or the timer gets to
       the end of its synchronous part; the retrieval before it, which reads
       and writes nothing of the state, is part of this step *)
| PassStep (i : nat) (a : PassAction)
    (* the driver does one piece of work of the i-th pass *)
| Request (q : Query)
    (* GET /events.json *)
| ScanRuns (i : nat) (err : bool)
    (* the engine executes the SELECT of the i-th issued scan *)
| ScanCallback (i : nat)
    (* the callback of the i-th executed scan is invoked *)
| CacheCheck.
    (* the periodic expiry check of the cache *)

Definition step (a : Action) (s : System) : option System :=
  match a with
  | Tick ms =>
      if decide (0 <= ms) then
        Some (mkSystem (db s) (cache s) (clock s + ms) (passes s) (scans s)
                       (scanned s) (replies s) (console s))
      else None
  | Ingest url prefix upstream =>
      let '(p, log) := fetchAndStoreEvents upstream url prefix in
      Some (mkSystem (db s) (cache s) (clock s)
                     (passes s ++ option_list p) (scans s) (scanned s)
                     (replies s) (console s ++ log))
  | PassStep i a =>
      match passes s !! i with
      | None => None
      | Some p =>
          match pass_step a (db s) p with
          | None => None
          | Some (db', p', log) =>
              Some (mkSystem db' (cache s) (clock s) (<[i := p']> (passes s))
                             (scans s) (scanned s) (replies s)
                             (console s ++ log))
          end
      end
  | Request q =>
      match events_json (clock s) (cache s) q with
      | (Replied r, c) =>
          Some (mkSystem (db s) c (clock s) (passes s) (scans s) (scanned s)
                         (replies s ++ [r]) (console s))
      | (Scanning sc, c) =>
          Some (mkSystem (db s) c (clock s) (passes s) (scans s ++ [sc])
                         (scanned s) (replies s) (console s))
      end
  | ScanRuns i err =>
      match scans s !! i with
      | None => None
      | Some sc =>
          let res :=
            if err then None
            else Some (db_all (db s) (scan_start sc) (scan_end sc)) in
          Some (mkSystem (db s) (cache s) (clock s) (passes s)
                         (delete i (scans s))
                         (scanned s ++ [(scan_key sc, res)])
                         (replies s) (console s))
      end
  | ScanCallback i =>
      match scanned s !! i with
      | None => None
      | Some (key, res) =>
          let '(r, c, log) := all_callback (clock s) (cache s) key res in
          Some (mkSystem (db s) c (clock s) (passes s) (scans s)
                         (delete i (scanned s)) (replies s ++ [r])
                         (console s ++ log))
      end
  | CacheCheck =>
      Some (mkSystem (db s) (Cache.check_data (clock s) (cache s)) (clock s)
                     (passes s) (scans s) (scanned s) (replies s) (console s))
  end.

(** A run of the server under a schedule. *)
Fixpoint run (sched : list Action) (s : System) : option System :=
  match sched with
  | [] => Some s
  | a :: sched' =>
      match step a s with
      | None => None
      | Some s' => run sched' s'
      end
  end.

(** Lines 115-119 and 122-125: both sources are ingested, Sonarr first. *)
Definition ingest_both (SONARR_ICS RADARR_ICS : string)
    (sonarr radarr : nat -> Outcome) : list Action :=
  [Ingest SONARR_ICS "Sonarr" sonarr; Ingest RADARR_ICS "Radarr" radarr].

(** A request served to the end without anything in between: the handler,
    then the scan and its callback when the handler asked for one. *)
Definition serve (q : Query) (err : bool) (s : System) : option System :=
  match events_json (clock s) (cache s) q with
  | (Replied _, _) => step (Request q) s
  | (Scanning _, _) =>
      run [Request q; ScanRuns (length (scans s)) err;
           ScanCallback (length (scanned s))] s
  end.

Definition initial (db0 : Storage) : System :=
  mkSystem db0 ∅ 0 [] [] [] [] [].

End Server.

(** ** Observations on traces *)

Definition is_http_get (e : Effect) : bool :=
  match e with HttpGet _ _ => true | _ => false end.

(** The number of network retrievals in a trace. *)
Definition attempts (tr : list Effect) : nat :=
  length (List.filter is_http_get tr).

(** The delays slept in a trace, in order. *)
Definition sleeps (tr : list Effect) : list Z :=
  omap (fun e => match e with Sleep ms => Some ms | _ => None end) tr.

(** ** Definitions used in the statements *)

Definition has_dates (v : VEvent) : Prop :=
  is_Some (startDate v) /\ is_Some (endDate v).

(** The part of a row that no statement of the program rewrites. *)
Definition row_fixed (r : Row) : Z * Key * string * string :=
  (row_id r, row_key r, row_description r, row_location r).

(** The arguments of the [Run] calls waiting in a statement's queue. *)
Definition runs {A : Type} (q : list (StmtOp A)) : list A :=
  omap (fun op => match op with Run a => Some a | Finalize => None end) q.

(** [stmtUpdate.run(event.color, event.title, event.start, event.end)] *)
Definition update_args (e : Event) : string * Key := (color e, event_key e).

(** A step in which the engine does not fail the lookup. *)
Definition error_free (a : PassAction) : Prop :=
  match a with SelectRuns _ true => False | _ => True end.

(** What a pass over [evs] makes of a row: the color of the event of the
    batch with the row's key, if there is one. *)
Definition recolor (evs : list Event) (r : Row) : Row :=
  match list_find (fun e => event_key e = row_key r) evs with
  | Some (_, e) => Db.set_color (color e) r
  | None => r
  end.

(** A pass that has nothing to look up and no [Run] waiting. *)
Definition idle (p : Pass) : Prop :=
  issued p = [] /\ resolved p = [] /\
  runs (queue (stmtInsert p)) = [] /\ runs (queue (stmtUpdate p)) = [].

(** The state of the server without its console. *)
Definition forget_console (s : System) : System :=
  mkSystem (db s) (cache s) (clock s) (passes s) (scans s) (scanned s)
           (replies s) [].

(** What the server may do between two requests when only the table is at
    stake: calls of [fetchAndStoreEvents], work of the passes in any
    order, the passing of time and the periodic check of the cache. *)
Definition storage_activity (a : Action) : Prop :=
  match a with
  | Tick _ | Ingest _ _ _ | PassStep _ _ | CacheCheck => True
  | Request _ | ScanRuns _ _ | ScanCallback _ => False
  end.

(** The stored records of an identity key. *)
Definition records_of (db : Storage) (k : Key) : list Row :=
  filter (Db.matches k) (rows db).

(** ** The variant without a store *)

(** The server of [index.js]: no table and no reconciler; the two endpoints
    [/sonarr.json] and [/radarr.json] convert the feed on every request, and
    the cache (60 seconds) holds the documents. *)
Module Feeds.

(** An entry of the cache of documents: the body and its expiry. *)
Record Entry := mkEntry {
  entry_data : string;
  entry_expiry : Z
}.

(** [new NodeCache({ stdTTL: 60 })], in seconds. *)
Definition stdTTL : Z := 60.

Definition expired (now : Z) (e : Entry) : Prop :=
  entry_expiry e <> 0 /\ entry_expiry e < now.

Global Instance expired_dec now e : Decision (expired now e).
Proof. unfold expired. apply _. Defined.

(** [cache.get(key)] *)
Definition get (now : Z) (c : gmap string Entry) (key : string)
  : option string * gmap string Entry :=
  match c !! key with
  | None => (None, c)
  | Some e =>
      if decide (expired now e) then (None, delete key c)
      else (Some (entry_data e), c)
  end.

(** [cache.set(key, response.data)] *)
Definition set (now : Z) (c : gmap string Entry) (key value : string)
  : gmap string Entry :=
  <[key := mkEntry value (now + stdTTL * 1000)]> c.

(** [fetchWithCache] (lines 21-32). [if (cachedData)] is false of a miss and
    of the empty string. [answer] is what [axios.get] does when it is called
    and [arrival] the instant its response arrives; a rejection is thrown to
    the caller ([inl]). *)
Definition fetchWithCache (now arrival : Z) (c : gmap string Entry)
    (key url : string) (answer : Outcome)
    : (string + string) * gmap string Entry * list Effect :=
  let '(cachedData, c') := get now c key in
  match cachedData with
  | Some data =>
      if bool_decide (data = "") then
        match answer with
        | Resolved data' => (inr data', set arrival c' key data', [HttpGet url 1])
        | Rejected message => (inl message, c', [HttpGet url 1])
        end
      else (inr data, c', [])
  | None =>
      match answer with
      | Resolved data' => (inr data', set arrival c' key data', [HttpGet url 1])
      | Rejected message => (inl message, c', [HttpGet url 1])
      end
  end.

(** What a handler sends: [res.json(events)] or
    [res.status(500).send(body)]. *)
Inductive Reply :=
| Events (events : list Event)
| Failed (body : string).

(** The callback given to [map] in the two handlers (lines 39-50 and
    64-75): the title is a literal tag and the summary. *)
Definition convert_one (tag : string) (v : VEvent) : Exn + Event :=
  match startDate v with
  | None => inl (TypeError "Cannot read properties of null (reading 'toString')")
  | Some s =>
      match endDate v with
      | None =>
          inl (TypeError "Cannot read properties of null (reading 'toString')")
      | Some e =>
          inr (mkEvent (tag +:+ js_string (summary v)) s e
                 (if decide (status v = Some "CONFIRMED") then "green" else "red")
                 (or_empty (vdescription v)) (or_empty (vlocation v)))
      end
  end.

Fixpoint convert (tag : string) (vs : list VEvent) : Exn + list Event :=
  match vs with
  | [] => inr []
  | v :: vs' =>
      match convert_one tag v with
      | inl e => inl e
      | inr ev =>
          match convert tag vs' with
          | inl e => inl e
          | inr evs => inr (ev :: evs)
          end
      end
  end.

Section Handlers.

Variable ICAL_parse : string -> Exn + list VEvent.

(** What a handler makes of the outcome of [fetchWithCache] (lines 37-56 and
    62-81): the events of the document, or the status 500 for every
    exception of the [try] block, the rejection of the retrieval included. *)
Definition respond (tag : string) (r : string + string) : Reply :=
  match r with
  | inl _ => Failed "Failed to convert ICS to JSON"
  | inr icsData =>
      match ICAL_parse icsData with
      | inl _ => Failed "Failed to convert ICS to JSON"
      | inr vevents =>
          match convert tag vevents with
          | inl _ => Failed "Failed to convert ICS to JSON"
          | inr events => Events events
          end
      end
  end.

(** The body shared by the two handlers. *)
Definition feed_json (key tag url : string) (now arrival : Z)
    (c : gmap string Entry) (answer : Outcome)
    : Reply * gmap string Entry * list Effect :=
  let '(r, c', tr) := fetchWithCache now arrival c key url answer in
  (respond tag r, c', tr).

(** [app.get('/sonarr.json', ...)] *)
Definition sonarr_json (SONARR_ICS : string) :=
  feed_json "sonarr_json" "[Sonarr] " SONARR_ICS.

(** [app.get('/radarr.json', ...)] *)
Definition radarr_json (RADARR_ICS : string) :=
  feed_json "radarr_json" "[Radarr] " RADARR_ICS.

End Handlers.

End Feeds.

(** ** More definitions used in the statements *)

(** The attempt numbers of the retrievals of a trace, in order. *)
Definition requested (tr : list Effect) : list nat :=
  omap (fun e => match e with HttpGet _ n => Some n | _ => None end) tr.


(** The ids of the rows of the table, in table order. *)
Definition ids (db : Storage) : list Z := row_id <$> rows db.

(** What the read path does: requests, scans and their callbacks. *)
Definition read_activity (a : Action) : Prop :=
  match a with
  | Request _ | ScanRuns _ _ | ScanCallback _ => True
  | _ => False
  end.

(** What the write path does: calls of [fetchAndStoreEvents] and the work of
    their passes. *)
Definition write_activity (a : Action) : Prop :=
  match a with
  | Ingest _ _ _ | PassStep _ _ => True
  | _ => False
  end.

(** The work a pass still has to do, counted in steps of the driver: a
    lookup that has not run costs its SELECT, its callback and the call the
    callback queues; the two [finalize] are still to be queued while a
    lookup is outstanding. *)
Definition work_left (p : Pass) : nat :=
  3 * length (issued p) + 2 * length (resolved p)
  + length (queue (stmtInsert p)) + length (queue (stmtUpdate p))
  + (if decide (issued p = [] /\ resolved p = []) then 0 else 2).

(** The calls of a statement are in order when the [run] calls come first
    and at most one [finalize] after them, when nothing waits on a finalized
    statement, and when [finalize] has been called exactly if [idle]
    holds. *)
Definition stmt_in_order {A : Type} (idle : Prop) (s : Statement A) : Prop :=
  exists (xs : list A) (n : nat),
    queue s = (Run <$> xs) ++ replicate n Finalize /\
    (finalized s = true -> xs = [] /\ n = 0%nat) /\
    (n <= 1)%nat /\
    (n = 1%nat \/ finalized s = true <-> idle).

(** The bookkeeping of a pass: the counter is the number of lookups still
    outstanding, and both statements have their calls in order, finalized
    exactly when no lookup is outstanding. *)
Record lifecycle (p : Pass) : Prop := {
  lc_count : pendingOperations p =
    Z.of_nat (length (issued p) + length (resolved p));
  lc_insert :
    stmt_in_order (issued p = [] /\ resolved p = []) (stmtInsert p);
  lc_update :
    stmt_in_order (issued p = [] /\ resolved p = []) (stmtUpdate p)
}.

(** What one more piece of work does to the ids: [new] are the ids of the
    rows that were added. *)
Definition ids_grow (d d' : Storage) (new : list Z) : Prop :=
  ids d' = ids d ++ new /\
  StronglySorted Z.lt new /\
  Forall (fun i => Db.next_id d <= i) new /\
  Db.next_id d <= Db.next_id d'.

(** ** Sample data *)

Module Sample.

Definition pilot : VEvent :=
  mkVEvent (Some "Show - 1x01 - Pilot") (Some "2024-01-01T10:00:00")
           (Some "2024-01-01T11:00:00") None (Some "First episode") None.

Definition pilot_confirmed : VEvent :=
  mkVEvent (Some "Show - 1x01 - Pilot") (Some "2024-01-01T10:00:00")
           (Some "2024-01-01T11:00:00") (Some "CONFIRMED")
           (Some "First episode") None.

Definition second : VEvent :=
  mkVEvent (Some "Show - 1x02 - Second") (Some "2024-01-01T20:00:00")
           (Some "2024-01-01T21:00:00") None None (Some "Channel 4").

Definition undated : VEvent :=
  mkVEvent (Some "Show - 1x03 - Third") None None None None None.

(** A parser for five documents, each named by its body. *)
Definition parse (doc : string) : Exn + list VEvent :=
  if decide (doc = "pilot") then inr [pilot]
  else if decide (doc = "pilot twice") then inr [pilot; pilot]
  else if decide (doc = "pilot and second") then inr [pilot; second]
  else if decide (doc = "pilot and undated") then inr [pilot; undated]
  else if decide (doc = "no events") then inr []
  else inl (ParserError "invalid ical body").

Definition up (doc : string) : nat -> Outcome := fun _ => Resolved doc.

Definition down : nat -> Outcome := fun _ => Rejected "ECONNREFUSED".

Definition third_time (doc : string) : nat -> Outcome :=
  fun n => if (n <? 3)%nat then Rejected "ECONNREFUSED" else Resolved doc.

(** The event the normalizer makes of [pilot] for Sonarr. *)
Definition pilot_event : Event :=
  mkEvent "[Sonarr] Show - 1x01 - Pilot" "2024-01-01T10:00:00"
          "2024-01-01T11:00:00" "red" "First episode" "".

Definition pilot_row (i : Z) : Row :=
  mkRow i "[Sonarr] Show - 1x01 - Pilot" "2024-01-01T10:00:00"
        "2024-01-01T11:00:00" "red" "First episode" "".

Definition day : Query :=
  mkQuery (Some (Str "2024-01-01T00:00")) (Some (Str "2024-01-01T23:59")).

End Sample.

(** * Properties *)

(** ** Normalizer *)

Lemma normalize_one_inr prefix v s e :
  startDate v = Some s -> endDate v = Some e ->
  normalize_one prefix v =
    inr (mkEvent ("[" +:+ prefix +:+ "] " +:+ js_string (summary v)) s e
                 (if decide (status v = Some "CONFIRMED") then "green" else "red")
                 (or_empty (vdescription v)) (or_empty (vlocation v))).
Proof. intros Hs He. unfold normalize_one. rewrite Hs, He. reflexivity. Qed.

Lemma normalize_one_inv prefix v ev :
  normalize_one prefix v = inr ev ->
  exists s e, startDate v = Some s /\ endDate v = Some e /\
    ev = mkEvent ("[" +:+ prefix +:+ "] " +:+ js_string (summary v)) s e
                 (if decide (status v = Some "CONFIRMED") then "green" else "red")
                 (or_empty (vdescription v)) (or_empty (vlocation v)).
Proof.
  unfold normalize_one.
  destruct (startDate v) as [s|]; [|discriminate].
  destruct (endDate v) as [e|]; [|discriminate].
  intros [= <-]. eauto.
Qed.

Lemma normalize_Forall2 prefix vs evs :
  normalize prefix vs = inr evs ->
  Forall2 (fun v ev => normalize_one prefix v = inr ev) vs evs.
Proof.
  revert evs. induction vs as [|v vs IH]; simpl; intros evs H.
  - injection H as <-. constructor.
  - destruct (normalize_one prefix v) as [x|ev] eqn:E1; [discriminate|].
    destruct (normalize prefix vs) as [x|evs'] eqn:E2; [discriminate|].
    injection H as <-. constructor; auto.
Qed.

Lemma normalize_total prefix vs :
  Forall has_dates vs -> exists evs, normalize prefix vs = inr evs.
Proof.
  induction 1 as [|v vs [[s Hs] [e He]] _ [evs IH]]; simpl.
  - eauto.
  - rewrite (normalize_one_inr prefix v s e Hs He), IH. eauto.
Qed.

(** C5. Every event component of a feed is normalized to a record whose
    title is the bracketed source prefix, a space and the summary, whose
    color is green exactly when the status property is CONFIRMED and red in
    every other case (an absent status included), and whose description and
    location are the upstream values, or the empty string when the property
    is absent; start and end are the printed dates of the component. *)
Theorem normalize_fields (prefix : string) (vs : list VEvent) :
  Forall has_dates vs ->
  exists evs, normalize prefix vs = inr evs /\
  Forall2 (fun v ev =>
    (forall s, summary v = Some s -> title ev = "[" +:+ prefix +:+ "] " +:+ s) /\
    startDate v = Some (start ev) /\
    endDate v = Some (end_ ev) /\
    (status v = Some "CONFIRMED" -> color ev = "green") /\
    (status v <> Some "CONFIRMED" -> color ev = "red") /\
    (color ev = "green" -> status v = Some "CONFIRMED") /\
    (forall d, vdescription v = Some d -> description ev = d) /\
    (vdescription v = None -> description ev = "") /\
    (forall l, vlocation v = Some l -> location ev = l) /\
    (vlocation v = None -> location ev = "")) vs evs.
Proof.
  intros Hd. destruct (normalize_total prefix vs Hd) as [evs H].
  exists evs. split; [exact H|].
  apply normalize_Forall2 in H.
  eapply Forall2_impl; [exact H|].
  intros v ev Hn. simpl in Hn.
  apply normalize_one_inv in Hn as (s & e & Hs & He & ->). simpl.
  repeat split; auto.
  - intros x ->. reflexivity.
  - intros Hc. rewrite decide_True; auto.
  - intros Hc. rewrite decide_False; auto.
  - destruct (decide (status v = Some "CONFIRMED")); [auto|discriminate].
  - intros d ->. reflexivity.
  - intros ->. reflexivity.
  - intros l ->. reflexivity.
  - intros ->. reflexivity.
Qed.

(** ** The console is write-only *)

Section Console.

Variable ICAL_parse : string -> Exn + list VEvent.

(** No step reads the console: two states that differ in the console
    only make the same step and still differ in the console only. *)
Lemma step_forget_console a s :
  forget_console <$> step ICAL_parse a s
  = forget_console <$> step ICAL_parse a (forget_console s).
Proof.
  destruct a as [ms|url prefix upstream|i a|q|i err|i|]; simpl.
  - destruct (decide (0 <= ms)); reflexivity.
  - destruct (fetchAndStoreEvents _ _ _ _) as [p log]. reflexivity.
  - destruct (passes s !! i) as [p|]; [|reflexivity].
    destruct (pass_step a (db s) p) as [[[d p'] log]|]; reflexivity.
  - destruct (events_json (clock s) (cache s) q) as [[r|sc] c]; reflexivity.
  - destruct (scans s !! i); reflexivity.
  - destruct (scanned s !! i) as [[key res]|]; [|reflexivity].
    destruct (all_callback _ _ _ _) as [[r c] log]. reflexivity.
  - reflexivity.
Qed.

Lemma run_same_but_console sched s1 s2 :
  forget_console s1 = forget_console s2 ->
  forget_console <$> run ICAL_parse sched s1
  = forget_console <$> run ICAL_parse sched s2.
Proof.
  revert s1 s2. induction sched as [|a sched IH]; intros s1 s2 Heq; simpl.
  - by rewrite Heq.
  - pose proof (step_forget_console a s1) as H1.
    pose proof (step_forget_console a s2) as H2.
    rewrite Heq, <- H2 in H1.
    unfold fmap, option_fmap, option_map in H1.
    destruct (step ICAL_parse a s1) as [s1'|], (step ICAL_parse a s2) as [s2'|];
      try discriminate; [|reflexivity].
    apply IH. congruence.
Qed.

(** A call of [fetchAndStoreEvents] whose synchronous part ends in the
    [catch] changes nothing but the console. *)
Lemma aborted_ingest_changes_console_only upstream url prefix log s :
  fetchAndStoreEvents ICAL_parse upstream url prefix = (None, log) ->
  step ICAL_parse (Ingest url prefix upstream) s =
    Some (mkSystem (db s) (cache s) (clock s) (passes s) (scans s)
                   (scanned s) (replies s) (console s ++ log)).
Proof.
  intros H. simpl. rewrite H. simpl. rewrite app_nil_r. reflexivity.
Qed.

(** Such a call goes unnoticed: whatever the server does afterwards, it
    does as if the call had not been made, the console apart. *)
Lemma aborted_ingest_unnoticed upstream url prefix log sched s :
  fetchAndStoreEvents ICAL_parse upstream url prefix = (None, log) ->
  forget_console <$> run ICAL_parse (Ingest url prefix upstream :: sched) s
  = forget_console <$> run ICAL_parse sched s.
Proof.
  intros H. cbn [run].
  rewrite (aborted_ingest_changes_console_only _ _ _ _ _ H).
  apply run_same_but_console. reflexivity.
Qed.

End Console.

(** ** Fetcher *)

Lemma fetch_loop_attempts upstream url retries delay remaining attempt :
  (attempts (snd (fetch_loop upstream url retries delay remaining attempt))
   <= remaining)%nat.
Proof.
  revert attempt. induction remaining as [|n IH]; intros attempt; simpl.
  - unfold attempts. simpl. lia.
  - destruct (upstream attempt) as [m|d].
    + destruct (attempt <? retries)%nat.
      * specialize (IH (S attempt)).
        destruct (fetch_loop upstream url retries delay n (S attempt)) as [r tr].
        unfold attempts in *. simpl in *. lia.
      * unfold attempts. simpl. lia.
    + unfold attempts. simpl. lia.
Qed.

Lemma fetch_loop_sleeps upstream url retries delay remaining attempt :
  Forall (eq delay)
    (sleeps (snd (fetch_loop upstream url retries delay remaining attempt))).
Proof.
  revert attempt. induction remaining as [|n IH]; intros attempt; simpl.
  - constructor.
  - destruct (upstream attempt) as [m|d].
    + destruct (attempt <? retries)%nat.
      * specialize (IH (S attempt)).
        destruct (fetch_loop upstream url retries delay n (S attempt)) as [r tr].
        unfold sleeps in *. simpl in *. constructor; auto.
      * constructor.
    + constructor.
Qed.

(** With the default bound the function never falls out of its loop: it
    returns a body or throws. *)
Lemma fetchWithRetries_default upstream url :
  fst (fetchWithRetries upstream url default_retries default_delay)
    <> ReturnedUndefined.
Proof.
  unfold fetchWithRetries, default_retries. simpl.
  destruct (upstream 1%nat); simpl; [|discriminate].
  destruct (upstream 2%nat); simpl; [|discriminate].
  destruct (upstream 3%nat); simpl; discriminate.
Qed.

(** ** Ingestion of a malformed document *)

Section Malformed.

Variable ICAL_parse : string -> Exn + list VEvent.

(** C8. When the parser rejects the document, or reading one of its event
    components throws, nothing of the document is normalized: the
    exception reaches the [catch] of [fetchAndStoreEvents], which prints
    it; no statement is prepared, no lookup is issued and no pass is left
    running, so that nothing is written for this call: the table, the
    cache and the passes of other calls are as before, and whatever the
    server does afterwards it does as if the call had not been made. *)
Theorem malformed_document_aborts (upstream : nat -> Outcome)
    (url prefix data : string) (tr : list Effect) (e : Exn) :
  fetchWithRetries upstream url default_retries default_delay
    = (Returned data, tr) ->
  ICAL_parse data = inl e \/
    (exists vevents, ICAL_parse data = inr vevents /\
                     normalize prefix vevents = inl e) ->
  fetchAndStoreEvents ICAL_parse upstream url prefix
    = (None, tr ++ [ErrorFetchingAndStoring e]) /\
  forall s,
    step ICAL_parse (Ingest url prefix upstream) s =
      Some (mkSystem (db s) (cache s) (clock s) (passes s) (scans s)
              (scanned s) (replies s)
              (console s ++ tr ++ [ErrorFetchingAndStoring e])) /\
    forall sched,
      forget_console <$>
        run ICAL_parse (Ingest url prefix upstream :: sched) s
      = forget_console <$> run ICAL_parse sched s.
Proof.
  intros Hf Hbad.
  assert (Hp : fetchAndStoreEvents ICAL_parse upstream url prefix
               = (None, tr ++ [ErrorFetchingAndStoring e])).
  { unfold fetchAndStoreEvents. rewrite Hf.
    destruct Hbad as [->|(vs & -> & ->)]; reflexivity. }
  split; [exact Hp|]. intros s. split.
  - apply aborted_ingest_changes_console_only. exact Hp.
  - intros sched. eapply aborted_ingest_unnoticed. exact Hp.
Qed.

End Malformed.

(** ** Storage engine *)

Lemma get_Some db k r :
  Db.get db k = Some r -> r ∈ rows db /\ row_key r = k.
Proof.
  unfold Db.get. destruct (list_find (Db.matches k) (rows db)) as [[i r']|] eqn:E;
    simpl; [|discriminate].
  intros [= <-]. apply list_find_Some in E as (Hl & Hm & _).
  split; [eapply list_elem_of_lookup_2; eauto|exact Hm].
Qed.

Lemma get_None db k :
  Db.get db k = None <-> forall r, r ∈ rows db -> row_key r <> k.
Proof.
  unfold Db.get. split.
  - destruct (list_find (Db.matches k) (rows db)) as [[i r']|] eqn:E;
      simpl; [discriminate|].
    intros _ r Hr. apply list_find_None in E.
    rewrite Forall_forall in E. apply (E r Hr).
  - intros H. destruct (list_find (Db.matches k) (rows db)) as [[i r']|] eqn:E;
      simpl; [|reflexivity].
    apply list_find_Some in E as (Hl & Hm & _).
    exfalso. eapply H; [eapply list_elem_of_lookup_2; eauto|exact Hm].
Qed.

Lemma get_is_Some db k :
  is_Some (Db.get db k) <-> k ∈ (row_key <$> rows db).
Proof.
  split.
  - intros [r Hr]. apply get_Some in Hr as [Hin <-].
    apply list_elem_of_fmap. eauto.
  - intros Hin. apply list_elem_of_fmap in Hin as (r & -> & Hr).
    destruct (Db.get db (row_key r)) eqn:E; [eauto|].
    rewrite get_None in E. exfalso. eapply E; eauto.
Qed.

Lemma set_color_fixed c r : row_fixed (Db.set_color c r) = row_fixed r.
Proof. reflexivity. Qed.

Lemma update_color_fixed db c k :
  (row_fixed <$> rows (Db.update_color db c k)) = (row_fixed <$> rows db).
Proof.
  unfold Db.update_color. simpl. rewrite <- list_fmap_compose.
  apply list_fmap_ext. intros i r _. simpl.
  destruct (decide (Db.matches k r)); reflexivity.
Qed.

Lemma update_color_keys db c k :
  (row_key <$> rows (Db.update_color db c k)) = (row_key <$> rows db).
Proof.
  unfold Db.update_color. simpl. rewrite <- list_fmap_compose.
  apply list_fmap_ext. intros i r _. simpl.
  destruct (decide (Db.matches k r)); reflexivity.
Qed.

Lemma update_color_length db c k :
  length (rows (Db.update_color db c k)) = length (rows db).
Proof. unfold Db.update_color. simpl. apply length_fmap. Qed.

Lemma update_color_lookup db c k i r :
  rows db !! i = Some r ->
  rows (Db.update_color db c k) !! i =
    Some (if decide (row_key r = k) then Db.set_color c r else r).
Proof.
  intros H. unfold Db.update_color. simpl. rewrite list_lookup_fmap, H. simpl.
  unfold Db.matches. destruct (decide (row_key r = k)); reflexivity.
Qed.

Lemma insert_rows db e :
  rows (Db.insert db e) =
    rows db ++ [mkRow (Db.next_id db) (title e) (start e) (end_ e) (color e)
                      (description e) (location e)].
Proof. reflexivity. Qed.

Lemma insert_keys db e :
  (row_key <$> rows (Db.insert db e)) = (row_key <$> rows db) ++ [event_key e].
Proof. rewrite insert_rows, fmap_app. reflexivity. Qed.

Lemma max_id_bound l r : r ∈ l -> row_id r <= Db.max_id l.
Proof.
  induction 1 as [r l|r r' l _ IH]; simpl; lia.
Qed.

(** A new row gets an id no row of the table has. *)
Lemma next_id_fresh db r : r ∈ rows db -> row_id r < Db.next_id db.
Proof.
  intros H. apply max_id_bound in H. unfold Db.next_id. lia.
Qed.

(** Neither statement deletes a row or rewrites anything but its color. *)
Lemma exec_insert_fixed db e :
  (row_fixed <$> rows db) `prefix_of` (row_fixed <$> rows (exec_insert db e)).
Proof.
  unfold exec_insert. rewrite insert_rows, fmap_app. apply prefix_app_r. reflexivity.
Qed.

Lemma exec_update_fixed db a :
  (row_fixed <$> rows db) `prefix_of` (row_fixed <$> rows (exec_update db a)).
Proof. unfold exec_update. rewrite update_color_fixed. reflexivity. Qed.

Lemma stmt_step_fixed {A} (exec : Storage -> A -> Storage) db s db' s' :
  (forall d a, (row_fixed <$> rows d) `prefix_of` (row_fixed <$> rows (exec d a))) ->
  stmt_step exec db s = Some (db', s') ->
  (row_fixed <$> rows db) `prefix_of` (row_fixed <$> rows db').
Proof.
  intros Hexec. unfold stmt_step.
  destruct (queue s) as [|[a|] q]; [discriminate| |].
  - intros [= <- <-]. destruct (finalized s); [reflexivity|apply Hexec].
  - intros [= <- <-]. reflexivity.
Qed.

Lemma pass_step_fixed a db p db' p' log :
  pass_step a db p = Some (db', p', log) ->
  (row_fixed <$> rows db) `prefix_of` (row_fixed <$> rows db').
Proof.
  destruct a as [i err|i| |]; simpl.
  - destruct (issued p !! i); [|discriminate]. intros [= <- <- <-]. reflexivity.
  - destruct (resolved p !! i) as [[e res]|]; [|discriminate].
    destruct (get_callback _ _ _) as [p1 l1]. intros [= <- <- <-]. reflexivity.
  - destruct (stmt_step exec_insert db (stmtInsert p)) as [[d s]|] eqn:E;
      [|discriminate].
    intros [= <- <- <-]. eapply stmt_step_fixed; [|exact E]. apply exec_insert_fixed.
  - destruct (stmt_step exec_update db (stmtUpdate p)) as [[d s]|] eqn:E;
      [|discriminate].
    intros [= <- <- <-]. eapply stmt_step_fixed; [|exact E]. apply exec_update_fixed.
Qed.

(** ** No deletion *)

Section NoDeletion.

Variable ICAL_parse : string -> Exn + list VEvent.

Lemma step_fixed a s s' :
  step ICAL_parse a s = Some s' ->
  (row_fixed <$> rows (db s)) `prefix_of` (row_fixed <$> rows (db s')).
Proof.
  destruct a as [ms|url prefix upstream|i a|q|i err|i|]; simpl.
  - destruct (decide (0 <= ms)); [|discriminate]. intros [= <-]. reflexivity.
  - destruct (fetchAndStoreEvents _ _ _ _) as [p log].
    intros [= <-]. reflexivity.
  - destruct (passes s !! i) as [p|]; [|discriminate].
    destruct (pass_step a (db s) p) as [[[d p'] log]|] eqn:E; [|discriminate].
    intros [= <-]. simpl. eapply pass_step_fixed; eauto.
  - destruct (events_json (clock s) (cache s) q) as [[r|sc] c];
      intros [= <-]; reflexivity.
  - destruct (scans s !! i); [|discriminate]. intros [= <-]. reflexivity.
  - destruct (scanned s !! i) as [[key res]|]; [|discriminate].
    destruct (all_callback _ _ _ _) as [[r c] log]. intros [= <-]. reflexivity.
  - intros [= <-]. reflexivity.
Qed.

Lemma run_fixed sched s s' :
  run ICAL_parse sched s = Some s' ->
  (row_fixed <$> rows (db s)) `prefix_of` (row_fixed <$> rows (db s')).
Proof.
  revert s. induction sched as [|a sched IH]; intros s; simpl.
  - intros [= <-]. reflexivity.
  - destruct (step ICAL_parse a s) as [s1|] eqn:E; [|discriminate].
    intros H. etrans; [eapply step_fixed; eauto|apply IH; exact H].
Qed.

(** C9. Whatever the server does (ingestion passes in any interleaving,
    requests, scans, the cache check, the passing of time), every row of
    the table stays in the table, at the same position, with its id, title,
    start, end, description and location: rows are only appended and only
    their color is rewritten. *)
Theorem no_deletion (sched : list Action) (s s' : System) :
  run ICAL_parse sched s = Some s' ->
  (row_fixed <$> rows (db s)) `prefix_of` (row_fixed <$> rows (db s')) /\
  forall i r, rows (db s) !! i = Some r ->
    exists r', rows (db s') !! i = Some r' /\
      row_id r' = row_id r /\ row_title r' = row_title r /\
      row_start r' = row_start r /\ row_end r' = row_end r /\
      row_description r' = row_description r /\
      row_location r' = row_location r.
Proof.
  intros H. apply run_fixed in H. split; [exact H|].
  intros i r Hi. destruct H as [k Hk].
  assert (Hf : (row_fixed <$> rows (db s')) !! i = Some (row_fixed r)).
  { rewrite Hk. apply lookup_app_l_Some. rewrite list_lookup_fmap, Hi.
    reflexivity. }
  rewrite list_lookup_fmap in Hf.
  destruct (rows (db s') !! i) as [r'|]; [|discriminate].
  exists r'. split; [reflexivity|].
  simpl in Hf. unfold row_fixed, row_key in Hf.
  injection Hf as H1 H2 H3 H4 H5 H6. auto 10.
Qed.

End NoDeletion.

(** ** Query service *)

Lemma events_json_missing now c q :
  q_start q = None \/ q_end q = None ->
  events_json now c q = (Replied (Status400 required_message), c).
Proof.
  unfold events_json. intros [H|H]; rewrite H; [reflexivity|].
  destruct (q_start q); reflexivity.
Qed.

Lemma events_json_bounds now c q start end_ :
  q_start q = Some (Str start) -> q_end q = Some (Str end_) ->
  start <> "" -> end_ <> "" ->
  events_json now c q =
    match Cache.get now c (cacheKey start end_) with
    | (Some cachedData, c') => (Replied (Json cachedData), c')
    | (None, c') =>
        (Scanning (mkScan (cacheKey start end_) (Str start) (Str end_)), c')
    end.
Proof.
  intros Hs He Hs' He'. unfold events_json. rewrite Hs, He.
  unfold falsy. rewrite !bool_decide_eq_false_2 by assumption. reflexivity.
Qed.

Lemma cache_get_miss now c key c' :
  Cache.get now c key = (None, c') -> c' !! key = None.
Proof.
  unfold Cache.get. destruct (c !! key) as [e|] eqn:E.
  - destruct (decide (Cache.expired now e)); [|discriminate].
    intros [= <-]. apply lookup_delete_eq.
  - intros [= <-]. exact E.
Qed.

Lemma events_json_empty_bound now c q :
  q_start q = Some (Str "") \/ q_end q = Some (Str "") ->
  events_json now c q = (Replied (Status400 required_message), c).
Proof.
  unfold events_json. intros [H|H]; rewrite H.
  - destruct (q_end q); reflexivity.
  - destruct (q_start q) as [v|]; [|reflexivity].
    simpl. rewrite orb_true_r. reflexivity.
Qed.

Lemma in_all_in_range db rangeStart rangeEnd r :
  r ∈ Db.all_in_range db rangeStart rangeEnd <->
  r ∈ rows db /\ String.leb rangeStart (row_start r) = true
             /\ String.leb (row_end r) rangeEnd = true.
Proof.
  unfold Db.all_in_range. rewrite !list_elem_of_In, filter_In.
  unfold Db.in_range, Db.text_ge, Db.text_le. rewrite andb_true_iff. tauto.
Qed.

Section QueryService.

Variable ICAL_parse : string -> Exn + list VEvent.

(** C7. A request without [start] or without [end] is answered with
    status 400 and the message of the source, whatever the cache holds;
    the cache, the table and the scans in flight are as before: nothing
    was read from or written to the cache, and no scan was issued. *)
Theorem missing_parameter_rejected (q : Query) (s : System) :
  q_start q = None \/ q_end q = None ->
  (forall now c,
     events_json now c q =
       (Replied (Status400 "Start and end query parameters are required"), c)) /\
  step ICAL_parse (Request q) s =
    Some (mkSystem (db s) (cache s) (clock s) (passes s) (scans s) (scanned s)
            (replies s ++ [Status400 "Start and end query parameters are required"])
            (console s)).
Proof.
  intros H. split.
  - intros now c. apply events_json_missing. exact H.
  - simpl. rewrite (events_json_missing _ _ _ H). reflexivity.
Qed.

(** A miss is answered from the table: the scan sees the table as it is,
    its callback caches the rows and replies with them. *)
Lemma serve_miss q s start end_ c' :
  q_start q = Some (Str start) -> q_end q = Some (Str end_) ->
  start <> "" -> end_ <> "" ->
  Cache.get (clock s) (cache s) (cacheKey start end_) = (None, c') ->
  serve ICAL_parse q false s =
    Some (mkSystem (db s)
            (Cache.set (clock s) c' (cacheKey start end_)
                       (Db.all_in_range (db s) start end_))
            (clock s) (passes s) (scans s) (scanned s)
            (replies s ++ [Json (Db.all_in_range (db s) start end_)])
            (console s)).
Proof.
  intros Hs He Hs' He' Hc. unfold serve.
  rewrite (events_json_bounds _ _ _ _ _ Hs He Hs' He'), Hc.
  cbn [run step]. rewrite (events_json_bounds _ _ _ _ _ Hs He Hs' He'), Hc.
  cbn [scans scanned db cache clock passes replies console].
  rewrite lookup_app_r by reflexivity. rewrite Nat.sub_diag. cbn [lookup list_lookup].
  cbn [scans scanned db cache clock passes replies console scan_key scan_start scan_end].
  rewrite lookup_app_r by reflexivity. rewrite Nat.sub_diag. cbn [lookup list_lookup].
  unfold all_callback.
  rewrite !delete_middle, !app_nil_r. reflexivity.
Qed.

(** A miss whose scan fails: the callback replies 500, prints the error
    and writes nothing to the cache. *)
Lemma serve_miss_err q s start end_ c' :
  q_start q = Some (Str start) -> q_end q = Some (Str end_) ->
  start <> "" -> end_ <> "" ->
  Cache.get (clock s) (cache s) (cacheKey start end_) = (None, c') ->
  serve ICAL_parse q true s =
    Some (mkSystem (db s) c' (clock s) (passes s) (scans s) (scanned s)
            (replies s ++ [Status500 "Failed to fetch events"])
            (console s ++ [DatabaseError])).
Proof.
  intros Hs He Hs' He' Hc. unfold serve.
  rewrite (events_json_bounds _ _ _ _ _ Hs He Hs' He'), Hc.
  cbn [run step]. rewrite (events_json_bounds _ _ _ _ _ Hs He Hs' He'), Hc.
  cbn [scans scanned db cache clock passes replies console].
  rewrite lookup_app_r by reflexivity. rewrite Nat.sub_diag. cbn [lookup list_lookup].
  cbn [scans scanned db cache clock passes replies console scan_key scan_start scan_end].
  rewrite lookup_app_r by reflexivity. rewrite Nat.sub_diag. cbn [lookup list_lookup].
  unfold all_callback.
  rewrite !delete_middle, !app_nil_r. reflexivity.
Qed.

(** A hit is answered from the cache alone. *)
Lemma request_hit q s start end_ e :
  q_start q = Some (Str start) -> q_end q = Some (Str end_) ->
  start <> "" -> end_ <> "" ->
  cache s !! cacheKey start end_ = Some e -> ~ Cache.expired (clock s) e ->
  step ICAL_parse (Request q) s =
    Some (mkSystem (db s) (cache s) (clock s) (passes s) (scans s) (scanned s)
            (replies s ++ [Json (entry_value e)]) (console s)).
Proof.
  intros Hs He Hs' He' Hc Hx. simpl.
  rewrite (events_json_bounds _ _ _ _ _ Hs He Hs' He').
  unfold Cache.get. rewrite Hc, decide_False by assumption. reflexivity.
Qed.

(** C3 (amended). For a request whose two bounds are each given once, as
    a string that is not empty, and whose cache key has no entry (or an
    expired one): when the scan of the table succeeds the reply is exactly
    the stored rows, in table order, whose start is at least [start] and
    whose end is at most [end] as strings compared byte by byte, and the
    rows are cached under the key for 600 seconds; a row from
    2024-01-01T10:00 to 2024-01-01T11:00 is in the range from
    2024-01-01T00:00 to 2024-01-01T23:59 and not in the range that ends at
    2024-01-01T09:00. When the scan fails the reply is the status 500 with
    the body of the source and nothing is cached. A bound given as the
    empty string is answered with the status 400 like a missing one,
    whatever the other bound is, without a look at the cache or the
    table. *)
Theorem range_query (q : Query) (s : System) (start end_ : string) :
  q_start q = Some (Str start) -> q_end q = Some (Str end_) ->
  start <> "" -> end_ <> "" ->
  fst (Cache.get (clock s) (cache s) (cacheKey start end_)) = None ->
  (exists s',
     serve ICAL_parse q false s = Some s' /\
     replies s' = replies s ++ [Json (Db.all_in_range (db s) start end_)] /\
     Db.all_in_range (db s) start end_ =
       List.filter (fun r => String.leb start (row_start r)
                             && String.leb (row_end r) end_) (rows (db s)) /\
     (forall r, r ∈ Db.all_in_range (db s) start end_ <->
        r ∈ rows (db s) /\ String.leb start (row_start r) = true
                       /\ String.leb (row_end r) end_ = true) /\
     cache s' !! cacheKey start end_ =
       Some (mkCacheEntry (Db.all_in_range (db s) start end_)
                          (clock s + 600000)) /\
     db s' = db s /\
     (forall r, row_start r = "2024-01-01T10:00" -> row_end r = "2024-01-01T11:00" ->
        Db.in_range "2024-01-01T00:00" "2024-01-01T23:59" r = true /\
        Db.in_range "2024-01-01T00:00" "2024-01-01T09:00" r = false)) /\
  (exists s',
     serve ICAL_parse q true s = Some s' /\
     replies s' = replies s ++ [Status500 "Failed to fetch events"] /\
     cache s' !! cacheKey start end_ = None /\
     db s' = db s) /\
  (forall q0 s0,
     q_start q0 = Some (Str "") \/ q_end q0 = Some (Str "") ->
     step ICAL_parse (Request q0) s0 =
       Some (mkSystem (db s0) (cache s0) (clock s0) (passes s0) (scans s0)
               (scanned s0)
               (replies s0
                  ++ [Status400 "Start and end query parameters are required"])
               (console s0))).
Proof.
  intros Hs He Hs' He' Hc.
  destruct (Cache.get (clock s) (cache s) (cacheKey start end_)) as [o c'] eqn:E.
  simpl in Hc. subst o.
  split; [|split].
  - eexists. split; [eapply serve_miss; eauto|].
    cbn [replies cache db].
    split; [reflexivity|]. split; [reflexivity|].
    split; [intros r; apply in_all_in_range|].
    split; [unfold Cache.set; rewrite lookup_insert_eq; reflexivity|].
    split; [reflexivity|].
    intros r H1 H2. unfold Db.in_range. rewrite H1, H2. split; reflexivity.
  - eexists. split; [eapply serve_miss_err; eauto|].
    cbn [replies cache db].
    split; [reflexivity|]. split; [|reflexivity].
    eapply cache_get_miss; eauto.
  - intros q0 s0 H0. simpl.
    rewrite (events_json_empty_bound _ _ _ H0). reflexivity.
Qed.

Lemma step_clock a s s' :
  step ICAL_parse a s = Some s' -> clock s <= clock s'.
Proof.
  destruct a as [ms|url prefix upstream|i a|q|i err|i|]; simpl.
  - destruct (decide (0 <= ms)); [|discriminate]. intros [= <-]. simpl. lia.
  - destruct (fetchAndStoreEvents _ _ _ _) as [p log].
    intros [= <-]. reflexivity.
  - destruct (passes s !! i) as [p|]; [|discriminate].
    destruct (pass_step a (db s) p) as [[[d p'] log]|]; [|discriminate].
    intros [= <-]. reflexivity.
  - destruct (events_json (clock s) (cache s) q) as [[r|sc] c];
      intros [= <-]; reflexivity.
  - destruct (scans s !! i); [|discriminate]. intros [= <-]. reflexivity.
  - destruct (scanned s !! i) as [[key res]|]; [|discriminate].
    destruct (all_callback _ _ _ _) as [[r c] log]. intros [= <-]. reflexivity.
  - intros [= <-]. reflexivity.
Qed.

Lemma run_clock sched s s' :
  run ICAL_parse sched s = Some s' -> clock s <= clock s'.
Proof.
  revert s. induction sched as [|a sched IH]; intros s; simpl.
  - intros [= <-]. reflexivity.
  - destruct (step ICAL_parse a s) as [s1|] eqn:E; [|discriminate].
    intros H. apply step_clock in E. apply IH in H. lia.
Qed.

Lemma expired_mono now now' e :
  now <= now' -> Cache.expired now e -> Cache.expired now' e.
Proof. unfold Cache.expired. lia. Qed.

Lemma storage_activity_keeps_entry a s s' key e :
  storage_activity a -> step ICAL_parse a s = Some s' ->
  cache s !! key = Some e -> ~ Cache.expired (clock s') e ->
  cache s' !! key = Some e.
Proof.
  destruct a as [ms|url prefix upstream|i a|q|i err|i|]; simpl; try tauto;
    intros _.
  - destruct (decide (0 <= ms)); [|discriminate]. intros [= <-]. auto.
  - destruct (fetchAndStoreEvents _ _ _ _) as [p log]. intros [= <-]. auto.
  - destruct (passes s !! i) as [p|]; [|discriminate].
    destruct (pass_step a (db s) p) as [[[d p'] log]|]; [|discriminate].
    intros [= <-]. auto.
  - intros [= <-]. simpl. intros Hc Hx. unfold Cache.check_data.
    apply map_lookup_filter_Some. split; [exact Hc|exact Hx].
Qed.

Lemma storage_activities_keep_entry sched s s' key e :
  Forall storage_activity sched -> run ICAL_parse sched s = Some s' ->
  cache s !! key = Some e -> ~ Cache.expired (clock s') e ->
  cache s' !! key = Some e.
Proof.
  intros Hall. revert s. induction Hall as [|a sched Ha _ IH]; intros s; simpl.
  - intros [= <-]. auto.
  - destruct (step ICAL_parse a s) as [s1|] eqn:E; [|discriminate].
    intros Hrun Hc Hx. apply (IH s1); auto.
    eapply storage_activity_keeps_entry; eauto.
    intros Hx1. apply Hx. eapply expired_mono; [|exact Hx1].
    eapply run_clock; eauto.
Qed.



(** Both bounds given, the first of them empty: the handler takes the
    empty string for a missing parameter. *)
Lemma events_json_empty_start now c end_ :
  events_json now c (mkQuery (Some (Str "")) (Some (Str end_))) =
    (Replied (Status400 required_message), c).
Proof. reflexivity. Qed.

End QueryService.

(** ** Reconciler: a batch whose keys are all stored *)

Lemma runs_app {A} (q1 q2 : list (StmtOp A)) :
  runs (q1 ++ q2) = runs q1 ++ runs q2.
Proof. apply omap_app. Qed.

Lemma runs_Run {A} (xs : list A) : runs (Run <$> xs) = xs.
Proof.
  induction xs as [|x xs IH]; [reflexivity|].
  change (x :: runs (Run <$> xs) = x :: xs). by rewrite IH.
Qed.

Lemma runs_Finalize {A} n : runs (replicate n (@Finalize A)) = [].
Proof. induction n as [|n IH]; [reflexivity|]. exact IH. Qed.

Lemma elem_of_delete_or {A} (l : list A) i x y :
  l !! i = Some x -> y ∈ l -> y = x \/ y ∈ delete i l.
Proof.
  intros Hi Hy. rewrite <- (take_drop_middle l i x Hi) in Hy.
  rewrite delete_take_drop.
  rewrite elem_of_app, elem_of_cons in Hy. rewrite elem_of_app. tauto.
Qed.

Lemma keys_of_fixed (l l' : list Row) :
  (row_fixed <$> l) = (row_fixed <$> l') -> (row_key <$> l) = (row_key <$> l').
Proof.
  intros H.
  assert (E : forall k : list Row,
            (row_key <$> k) = ((fun f => snd (fst (fst f))) <$> (row_fixed <$> k))).
  { intros k. rewrite <- list_fmap_compose. reflexivity. }
  rewrite !E, H. reflexivity.
Qed.

Lemma set_color_set_color c c' r :
  Db.set_color c (Db.set_color c' r) = Db.set_color c r.
Proof. reflexivity. Qed.

Lemma set_color_same r : Db.set_color (row_color r) r = r.
Proof. destruct r; reflexivity. Qed.

Lemma NoDup_key_inj (evs : list Event) e e' :
  NoDup (event_key <$> evs) -> e ∈ evs -> e' ∈ evs ->
  event_key e = event_key e' -> e = e'.
Proof.
  induction evs as [|x evs IH]; simpl.
  - intros _ H. by apply elem_of_nil in H.
  - rewrite NoDup_cons, !elem_of_cons. intros [Hx Hnd] [->|He] [->|He'] Hk; auto.
    + exfalso. apply Hx. rewrite Hk. by apply list_elem_of_fmap_2.
    + exfalso. apply Hx. rewrite <- Hk. by apply list_elem_of_fmap_2.
Qed.

Section Reingest.

Variable evs : list Event.
Variable db0 : Storage.
Hypothesis keys_distinct : NoDup (event_key <$> evs).
Hypothesis keys_stored :
  forall e, e ∈ evs -> event_key e ∈ (row_key <$> rows db0).

(** What holds of the table and of the pass at every moment of a pass over
    [evs] begun on [db0]; [xs] are the calls of [stmtUpdate] that wait and
    [n] counts its queued [finalize]. *)
Record reingest_inv (xs : list (string * Key)) (n : nat)
    (db : Storage) (p : Pass) : Prop := {
  ri_fixed : (row_fixed <$> rows db) = (row_fixed <$> rows db0);
  ri_sequence : sqlite_sequence db = sqlite_sequence db0;
  ri_issued : forall e, e ∈ issued p -> e ∈ evs;
  ri_resolved : forall e res, (e, res) ∈ resolved p ->
    e ∈ evs /\ exists r, res = GetRow (Some r);
  ri_queue : queue (stmtUpdate p) = (Run <$> xs) ++ replicate n Finalize;
  ri_args : forall a, a ∈ xs -> exists e, e ∈ evs /\ a = update_args e;
  ri_insert : runs (queue (stmtInsert p)) = [];
  ri_pending : pendingOperations p =
    Z.of_nat (length (issued p) + length (resolved p));
  ri_closing : finalized (stmtUpdate p) = true \/ n <> 0%nat ->
    issued p = [] /\ resolved p = [];
  ri_closed : finalized (stmtUpdate p) = true -> xs = [];
  ri_progress : forall e, e ∈ evs ->
    e ∈ issued p \/ (exists res, (e, res) ∈ resolved p) \/ update_args e ∈ xs \/
    (forall r, r ∈ rows db -> row_key r = event_key e -> row_color r = color e);
  ri_rows : forall i r0 r, rows db0 !! i = Some r0 -> rows db !! i = Some r ->
    r = r0 \/ exists e, e ∈ evs /\ event_key e = row_key r0 /\
                        r = Db.set_color (color e) r0
}.

Lemma reingest_begin :
  exists n, reingest_inv [] n db0 (begin_pass evs).
Proof.
  unfold begin_pass, finalize_if_done. simpl.
  destruct (decide (Z.of_nat (length evs) = 0)) as [E|E].
  - exists 1%nat.
    assert (Hnil : evs = []) by (destruct evs; [done|simpl in E; lia]).
    rewrite Hnil.
    split; simpl; try done.
    + intros e He. by apply elem_of_nil in He.
    + intros e res He. by apply elem_of_nil in He.
    + intros a Ha. by apply elem_of_nil in Ha.
    + intros e He. rewrite Hnil in He. by apply elem_of_nil in He.
    + intros i r0 r H1 H2. left. congruence.
  - exists 0%nat. split; simpl; try done.
    + intros e res H. by apply elem_of_nil in H.
    + intros a H. by apply elem_of_nil in H.
    + lia.
    + intros [?|?]; done.
    + intros e H. by left.
    + intros i r0 r H1 H2. left. congruence.
Qed.

Lemma reingest_step a db p db' p' log xs n :
  error_free a -> reingest_inv xs n db p ->
  pass_step a db p = Some (db', p', log) ->
  exists xs' n', reingest_inv xs' n' db' p'.
Proof.
  intros Hfree Hinv.
  destruct p as [iss res sI sU pend].
  destruct Hinv as [Hfix Hseq Hiss Hres Hq Hargs Hins Hpend Hclosing Hclosed Hprog Hrows].
  simpl in *.
  destruct a as [i err|i| |]; simpl.
  - (* the SELECT of a lookup *)
    destruct err; [done|].
    destruct (iss !! i) as [e|] eqn:Hi; [|discriminate].
    intros [= <- <- <-].
    assert (He : e ∈ evs) by (apply Hiss; eapply list_elem_of_lookup_2; eauto).
    assert (Hget : is_Some (Db.get db (event_key e))).
    { apply get_is_Some. rewrite (keys_of_fixed _ _ Hfix). by apply keys_stored. }
    destruct Hget as [r Hget]. rewrite Hget.
    exists xs, n. split; simpl; auto.
    + intros e' H. apply Hiss. eapply list_elem_of_delete_inv; eauto.
    + intros e' res' H. apply elem_of_app in H as [H|H]; [by apply Hres|].
      apply list_elem_of_singleton in H. injection H as -> ->. eauto.
    + rewrite Hpend, length_app, length_delete by eauto. simpl.
      assert (length iss <> 0)%nat by (destruct iss; [done|simpl; lia]). lia.
    + intros H. destruct (Hclosing H) as [-> _]. done.
    + intros e' He'. destruct (Hprog e' He') as [H|[[res' H]|[H|H]]]; auto.
      * destruct (elem_of_delete_or _ _ _ _ Hi H) as [->|H']; auto.
        right; left. exists (GetRow (Some r)). apply elem_of_app. right.
        by apply list_elem_of_singleton.
      * right; left. exists res'. apply elem_of_app. by left.
  - (* the callback of a lookup *)
    destruct (res !! i) as [[e r]|] eqn:Hi; [|discriminate].
    assert (Hin : (e, r) ∈ res) by (eapply list_elem_of_lookup_2; eauto).
    destruct (Hres e r Hin) as [He [row ->]].
    assert (Hopen : finalized sU = false /\ n = 0%nat).
    { destruct (finalized sU) eqn:Hf.
      - destruct Hclosing as [_ Hnil]; [by left|]. by rewrite Hnil in Hi.
      - split; [done|]. destruct n as [|n]; [done|].
        destruct Hclosing as [_ Hnil]; [by right|]. by rewrite Hnil in Hi. }
    destruct Hopen as [Hf ->]. simpl in Hq. rewrite app_nil_r in Hq.
    unfold get_callback, finalize_if_done. simpl.
    assert (Hlen : pend - 1 = Z.of_nat (length iss + length (delete i res))).
    { rewrite Hpend, length_delete by eauto.
      assert (length res <> 0)%nat by (destruct res; [done|simpl; lia]). lia. }
    destruct (decide (pend - 1 = 0)) as [E|E]; intros [= <- <- <-].
    + exists (xs ++ [update_args e]), 1%nat. split; simpl; auto.
      * intros e' res' H. apply Hres. eapply list_elem_of_delete_inv; eauto.
      * rewrite Hq, fmap_app, <- !app_assoc. reflexivity.
      * intros a Ha. apply elem_of_app in Ha as [Ha|Ha]; [auto|].
        apply list_elem_of_singleton in Ha. eauto.
      * rewrite runs_app, Hins. reflexivity.
      * intros _. rewrite E in Hlen.
        destruct iss; [|simpl in Hlen; lia].
        destruct (delete i res); [done|simpl in Hlen; lia].
      * rewrite Hf. done.
      * intros e' He'. destruct (Hprog e' He') as [H|[[res' H]|[H|H]]]; auto.
        -- destruct (elem_of_delete_or _ _ _ _ Hi H) as [[= -> ->]|H'].
           ++ right; right; left. apply elem_of_app. right.
              by apply list_elem_of_singleton.
           ++ right; left. eauto.
        -- right; right; left. apply elem_of_app. by left.
    + exists (xs ++ [update_args e]), 0%nat. split; simpl; auto.
      * intros e' res' H. apply Hres. eapply list_elem_of_delete_inv; eauto.
      * rewrite Hq, fmap_app, app_nil_r. reflexivity.
      * intros a Ha. apply elem_of_app in Ha as [Ha|Ha]; [auto|].
        apply list_elem_of_singleton in Ha. eauto.
      * rewrite Hf. intros [?|?]; done.
      * rewrite Hf. done.
      * intros e' He'. destruct (Hprog e' He') as [H|[[res' H]|[H|H]]]; auto.
        -- destruct (elem_of_delete_or _ _ _ _ Hi H) as [[= -> ->]|H'].
           ++ right; right; left. apply elem_of_app. right.
              by apply list_elem_of_singleton.
           ++ right; left. eauto.
        -- right; right; left. apply elem_of_app. by left.
  - (* a call of stmtInsert: only finalize can be waiting *)
    unfold stmt_step. destruct (queue sI) as [|[a|] q] eqn:Hqi; [discriminate|done|].
    intros [= <- <- <-]. exists xs, n. split; simpl; auto.
  - (* a call of stmtUpdate *)
    unfold stmt_step. rewrite Hq.
    destruct xs as [|a xs]; simpl.
    + destruct n as [|n]; simpl; [discriminate|].
      intros [= <- <- <-]. exists [], n. split; simpl; auto.
    + assert (Hf : finalized sU = false).
      { destruct (finalized sU); [|done]. by specialize (Hclosed eq_refl). }
      rewrite Hf. intros [= <- <- <-].
      destruct (Hargs a ltac:(by left)) as (e0 & He0 & ->).
      exists xs, n. split; simpl; auto.
      * rewrite <- Hfix. apply (update_color_fixed db (color e0) (event_key e0)).
      * intros a Ha. apply Hargs. by right.
      * intros [?|Hn]; [done|]. apply Hclosing. by right.
      * done.
      * intros e' He'.
        destruct (Hprog e' He') as [H|[H|[H|H]]]; auto.
        -- apply elem_of_cons in H as [H|H]; [|auto].
           right; right; right.
           assert (Hc : color e' = color e0) by exact (f_equal fst H).
           assert (Hk : event_key e' = event_key e0) by exact (f_equal snd H).
           intros r' Hr' Hk'.
           apply list_elem_of_fmap in Hr' as (r & -> & Hr).
           unfold Db.matches in *.
           destruct (decide (row_key r = event_key e0)) as [E|E];
             [simpl; done|].
           exfalso. apply E. congruence.
        -- right; right; right.
           intros r' Hr' Hk'.
           apply list_elem_of_fmap in Hr' as (r & -> & Hr).
           unfold Db.matches in *.
           destruct (decide (row_key r = event_key e0)) as [E|E].
           ++ assert (e' = e0) as ->; [|done].
              apply (NoDup_key_inj evs); auto.
              change (row_key r = event_key e') in Hk'. congruence.
           ++ by apply H.
      * intros i r0 r' Hr0 Hr'. rewrite list_lookup_fmap in Hr'.
        destruct (rows db !! i) as [r|] eqn:Hr; [|discriminate].
        simpl in Hr'. injection Hr' as <-.
        unfold Db.matches.
        destruct (decide (row_key r = event_key e0)) as [E|E].
        -- right. exists e0. split; [done|].
           destruct (Hrows i r0 r Hr0 Hr) as [->|(e1 & _ & _ & ->)];
             split; solve [done | by symmetry].
        -- exact (Hrows i r0 r Hr0 Hr).
Qed.

Lemma reingest_run sched db p db' p' xs n :
  Forall error_free sched -> reingest_inv xs n db p ->
  run_pass sched db p = Some (db', p') ->
  exists xs' n', reingest_inv xs' n' db' p'.
Proof.
  intros Hall. revert db p xs n.
  induction Hall as [|a sched Ha _ IH]; intros db p xs n Hinv; simpl.
  - intros [= <- <-]. eauto.
  - destruct (pass_step a db p) as [[[db1 p1] log]|] eqn:E; [|discriminate].
    destruct (reingest_step _ _ _ _ _ _ _ _ Ha Hinv E) as (xs1 & n1 & Hinv1).
    eauto.
Qed.

(** Re-ingestion. When every key of the batch is stored already and the
    keys of the batch are distinct, a pass run alone to its end, in any
    order the driver may choose and without lookup errors, keeps every
    row in place and gives the color of each event to the rows with its
    key; nothing is inserted. *)
Lemma reingest_recolors sched db' p' :
  Forall error_free sched ->
  run_pass sched db0 (begin_pass evs) = Some (db', p') ->
  pass_done p' ->
  rows db' = (recolor evs <$> rows db0) /\
  sqlite_sequence db' = sqlite_sequence db0.
Proof.
  intros Hall Hrun (Hi & Hr & _ & Hu).
  destruct reingest_begin as [n0 H0].
  destruct (reingest_run _ _ _ _ _ _ _ Hall H0 Hrun) as (xs & n & Hinv).
  destruct Hinv as [Hfix Hseq _ _ Hq _ _ _ _ _ Hprog Hrows].
  split; [|exact Hseq].
  assert (xs = []) as ->.
  { rewrite Hu in Hq. destruct xs; [done|discriminate]. }
  apply list_eq. intros i. rewrite list_lookup_fmap.
  destruct (rows db0 !! i) as [r0|] eqn:E0; simpl.
  - assert (Hlt : (i < length (rows db'))%nat).
    { rewrite <- (length_fmap row_fixed), Hfix, length_fmap.
      eapply lookup_lt_Some; eauto. }
    destruct (lookup_lt_is_Some_2 _ _ Hlt) as [r Er]. rewrite Er. f_equal.
    assert (Hk : row_key r = row_key r0).
    { destruct (Hrows i r0 r E0 Er) as [->|(e & _ & _ & ->)]; reflexivity. }
    unfold recolor.
    destruct (list_find (λ e, event_key e = row_key r0) evs) as [[j e1]|] eqn:Ef.
    + apply list_find_Some in Ef as (Hj & Hk1 & _).
      assert (He1 : e1 ∈ evs) by (eapply list_elem_of_lookup_2; eauto).
      assert (Hc : row_color r = color e1).
      { destruct (Hprog e1 He1) as [H|[[res H]|[H|H]]].
        - rewrite Hi in H. by apply elem_of_nil in H.
        - rewrite Hr in H. by apply elem_of_nil in H.
        - by apply elem_of_nil in H.
        - apply H; [eapply list_elem_of_lookup_2; eauto|congruence]. }
      destruct (Hrows i r0 r E0 Er) as [->|(e & _ & _ & ->)].
      * rewrite <- Hc. symmetry. apply set_color_same.
      * simpl in Hc. by rewrite Hc.
    + destruct (Hrows i r0 r E0 Er) as [->|(e & He & Hke & ->)]; [done|].
      exfalso. apply list_find_None in Ef. rewrite Forall_forall in Ef.
      by apply (Ef e He).
  - apply lookup_ge_None. apply lookup_ge_None in E0.
    rewrite <- (length_fmap row_fixed), Hfix, length_fmap. exact E0.
Qed.

End Reingest.

(** ** Reconciler: a pass never inserts a key that is stored *)

Section StoredKeys.

Variable db0 : Storage.

Record stored_inv (db : Storage) (p : Pass) : Prop := {
  si_fixed : (row_fixed <$> rows db) = (row_fixed <$> rows db0);
  si_sequence : sqlite_sequence db = sqlite_sequence db0;
  si_issued : forall e, e ∈ issued p ->
    event_key e ∈ (row_key <$> rows db0);
  si_resolved : forall e res, (e, res) ∈ resolved p -> res <> GetRow None;
  si_insert : runs (queue (stmtInsert p)) = []
}.

Lemma stored_step a db p db' p' log :
  stored_inv db p -> pass_step a db p = Some (db', p', log) ->
  stored_inv db' p'.
Proof.
  intros [Hfix Hseq Hiss Hres Hins].
  destruct p as [iss res sI sU pend]. simpl in *.
  destruct a as [i err|i| |]; simpl.
  - destruct (iss !! i) as [e|] eqn:Hi; [|discriminate].
    intros [= <- <- <-]. split; simpl; auto.
    + intros e' He'. apply Hiss. eapply list_elem_of_delete_inv; eauto.
    + intros e' res' Hin. apply elem_of_app in Hin as [Hin|Hin]; [eauto|].
      apply list_elem_of_singleton in Hin. injection Hin as -> ->.
      destruct err; [done|].
      assert (Hget : is_Some (Db.get db (event_key e))).
      { apply get_is_Some. rewrite (keys_of_fixed _ _ Hfix). apply Hiss.
        eapply list_elem_of_lookup_2; eauto. }
      destruct Hget as [r ->]. done.
  - destruct (res !! i) as [[e r]|] eqn:Hi; [|discriminate].
    assert (Hr : r <> GetRow None).
    { apply (Hres e). eapply list_elem_of_lookup_2; eauto. }
    assert (Hdel : forall e' res', (e', res') ∈ delete i res -> res' <> GetRow None).
    { intros e' res' Hin. apply (Hres e'). eapply list_elem_of_delete_inv; eauto. }
    unfold get_callback, finalize_if_done.
    destruct r as [|[row|]]; [| |done]; simpl;
      destruct (decide (pend - 1 = 0)); intros [= <- <- <-];
      split; simpl; auto; by rewrite runs_app, Hins.
  - unfold stmt_step.
    destruct (queue sI) as [|[a|] q] eqn:Hqi; [discriminate|done|].
    intros [= <- <- <-]. split; simpl; auto.
  - unfold stmt_step.
    destruct (queue sU) as [|[a|] q] eqn:Hqu; [discriminate| |];
      intros [= <- <- <-]; split; simpl; auto.
    + destruct (finalized sU); [done|].
      rewrite <- Hfix. apply update_color_fixed.
    + by destruct (finalized sU).
Qed.

Lemma stored_run sched db p db' p' :
  stored_inv db p -> run_pass sched db p = Some (db', p') ->
  stored_inv db' p'.
Proof.
  revert db p. induction sched as [|a sched IH]; intros db p Hinv; simpl.
  - intros [= <- <-]. exact Hinv.
  - destruct (pass_step a db p) as [[[db1 p1] log]|] eqn:E; [|discriminate].
    intros Hrun. eapply IH; [|exact Hrun]. eapply stored_step; eauto.
Qed.

(** Whatever the order of the work and whether or not lookups fail, a pass
    over events whose keys are all stored inserts no row: it leaves every
    row in place with its id, key, description and location. *)
Lemma stored_keys_no_insert evs sched db' p' :
  (forall e, e ∈ evs -> event_key e ∈ (row_key <$> rows db0)) ->
  run_pass sched db0 (begin_pass evs) = Some (db', p') ->
  (row_fixed <$> rows db') = (row_fixed <$> rows db0) /\
  length (rows db') = length (rows db0) /\
  sqlite_sequence db' = sqlite_sequence db0.
Proof.
  intros Hstored Hrun.
  assert (H0 : stored_inv db0 (begin_pass evs)).
  { unfold begin_pass, finalize_if_done. simpl.
    destruct (decide (Z.of_nat (length evs) = 0)) as [E|E]; split; simpl; auto;
      intros ev res Hin; by apply elem_of_nil in Hin. }
  destruct (stored_run _ _ _ _ _ H0 Hrun) as [Hfix Hseq _ _ _].
  split; [exact Hfix|]. split; [|exact Hseq].
  rewrite <- (length_fmap row_fixed), Hfix. apply length_fmap.
Qed.

End StoredKeys.

(** ** Reconciler: one pass at a time over a batch of distinct keys *)

Section DistinctKeys.

Variable evs : list Event.
Hypothesis keys_distinct : NoDup (event_key <$> evs).

(** What holds at every moment of a pass over [evs] that runs alone and
    meets no lookup error; [ys] are the events whose INSERT waits and [m]
    counts the queued [finalize] of [stmtInsert]. *)
Record distinct_inv (ys : list Event) (m : nat) (db : Storage) (p : Pass)
    : Prop := {
  di_keys : NoDup ((row_key <$> rows db) ++ (event_key <$> ys));
  di_pending :
    NoDup (event_key <$> (issued p ++ (fst <$> resolved p) ++ ys));
  di_resolved : forall e res, (e, res) ∈ resolved p ->
    res <> GetErr /\
    (res = GetRow None -> event_key e ∉ (row_key <$> rows db)) /\
    (res <> GetRow None -> event_key e ∈ (row_key <$> rows db));
  di_queue : queue (stmtInsert p) = (Run <$> ys) ++ replicate m Finalize;
  di_closed : finalized (stmtInsert p) = true -> ys = [];
  di_closing : finalized (stmtInsert p) = true \/ m <> 0%nat ->
    issued p = [] /\ resolved p = [];
  di_count : pendingOperations p =
    Z.of_nat (length (issued p) + length (resolved p));
  di_progress : forall e, e ∈ evs ->
    e ∈ issued p \/ (exists res, (e, res) ∈ resolved p) \/ e ∈ ys \/
    event_key e ∈ (row_key <$> rows db)
}.

Lemma distinct_begin db0 :
  NoDup (row_key <$> rows db0) ->
  exists m, distinct_inv [] m db0 (begin_pass evs).
Proof.
  intros Hdb. unfold begin_pass, finalize_if_done. simpl.
  destruct (decide (Z.of_nat (length evs) = 0)) as [E|E].
  - exists 1%nat. split; simpl; rewrite ?app_nil_r; auto; try lia.
    + intros e res Hin. by apply elem_of_nil in Hin.
    + intros _. split; [|done]. destruct evs; [done|simpl in E; lia].
  - exists 0%nat. split; simpl; rewrite ?app_nil_r; auto; try lia.
    intros e res Hin. by apply elem_of_nil in Hin.
Qed.

Lemma distinct_step a db p db' p' log ys m :
  error_free a -> distinct_inv ys m db p ->
  pass_step a db p = Some (db', p', log) ->
  exists ys' m', distinct_inv ys' m' db' p'.
Proof.
  intros Hfree Hinv.
  destruct p as [iss res sI sU pend].
  destruct Hinv as [Hkeys Hpend Hres Hq Hclosed Hclosing Hcount Hprog].
  simpl in *.
  destruct a as [i err|i| |]; simpl.
  - (* the SELECT of a lookup *)
    destruct err; [done|].
    destruct (iss !! i) as [e|] eqn:Hi; [|discriminate].
    intros [= <- <- <-]. exists ys, m. split; simpl; auto.
    + rewrite (delete_Permutation iss i e Hi) in Hpend.
      match goal with |- NoDup (event_key <$> ?l) =>
        assert (HP : l ≡ₚ (e :: delete i iss) ++ (fst <$> res) ++ ys)
          by (rewrite fmap_app; simpl; solve_Permutation)
      end.
      by rewrite HP.
    + intros e' res' Hin. apply elem_of_app in Hin as [Hin|Hin]; [by apply Hres|].
      apply list_elem_of_singleton in Hin. injection Hin as -> ->.
      split; [done|]. split.
      * intros [= Hnone] Hk. apply get_is_Some in Hk as [r Hr]. congruence.
      * intros Hsome. apply get_is_Some.
        destruct (Db.get db (event_key e)); [eauto|done].
    + intros Hc. destruct (Hclosing Hc) as [-> _]. done.
    + rewrite Hcount, length_app, length_delete by eauto. simpl.
      assert (length iss <> 0)%nat by (destruct iss; [done|simpl; lia]). lia.
    + intros e' He'. destruct (Hprog e' He') as [H|[[res' H]|[H|H]]]; auto.
      * destruct (elem_of_delete_or _ _ _ _ Hi H) as [->|H']; auto.
        right; left. eexists. apply elem_of_app. right.
        by apply list_elem_of_singleton.
      * right; left. exists res'. apply elem_of_app. by left.
  - (* the callback of a lookup *)
    destruct (res !! i) as [[e r]|] eqn:Hi; [|discriminate].
    assert (Hin : (e, r) ∈ res) by (eapply list_elem_of_lookup_2; eauto).
    destruct (Hres e r Hin) as (Hok & Hnone & Hsome).
    assert (Hopen : finalized sI = false /\ m = 0%nat).
    { destruct (finalized sI) eqn:Hf.
      - destruct Hclosing as [_ Hnil]; [by left|]. by rewrite Hnil in Hi.
      - split; [done|]. destruct m as [|m]; [done|].
        destruct Hclosing as [_ Hnil]; [by right|]. by rewrite Hnil in Hi. }
    destruct Hopen as [Hf ->]. simpl in Hq. rewrite app_nil_r in Hq.
    assert (Hlen : pend - 1 = Z.of_nat (length iss + length (delete i res))).
    { rewrite Hcount, length_delete by eauto.
      assert (length res <> 0)%nat by (destruct res; [done|simpl; lia]). lia. }
    assert (Hlast : pend - 1 = 0 -> iss = [] /\ delete i res = []).
    { intros E. rewrite E in Hlen.
      destruct iss; [|simpl in Hlen; lia].
      destruct (delete i res); [done|simpl in Hlen; lia]. }
    assert (Hdel : forall e' res', (e', res') ∈ delete i res -> (e', res') ∈ res).
    { intros e' res'. apply list_elem_of_delete_inv. }
    assert (HPres : (fst <$> res) ≡ₚ e :: (fst <$> delete i res)).
    { rewrite (delete_Permutation res i (e, r) Hi) at 1. reflexivity. }
    rewrite HPres in Hpend.
    unfold get_callback, finalize_if_done.
    destruct r as [|[row|]]; [done| |]; simpl.
    + (* a row: the UPDATE is queued *)
      assert (Hpend' : NoDup (event_key <$> (iss ++ (fst <$> delete i res) ++ ys))).
      { eapply sublist_NoDup; [exact Hpend|]. apply fmap_sublist.
        apply sublist_app; [done|]. by apply sublist_cons. }
      assert (Hprog' : forall e', e' ∈ evs ->
                e' ∈ iss \/ (exists res', (e', res') ∈ delete i res) \/ e' ∈ ys \/
                event_key e' ∈ (row_key <$> rows db)).
      { intros e' He'. destruct (Hprog e' He') as [H|[[res' H]|[H|H]]]; auto.
        destruct (elem_of_delete_or _ _ _ _ Hi H) as [[= -> ->]|H']; [|eauto].
        right; right; right. by apply Hsome. }
      destruct (decide (pend - 1 = 0)) as [E|E]; intros [= <- <- <-].
      * exists ys, 1%nat. split; simpl; eauto;
          solve [by rewrite Hq | by rewrite Hf].
      * exists ys, 0%nat. split; simpl; eauto;
          solve [by rewrite Hq, app_nil_r | rewrite Hf; intros [?|?]; done].
    + (* no row: the INSERT is queued *)
      assert (Hpend' :
        NoDup (event_key <$> (iss ++ (fst <$> delete i res) ++ ys ++ [e]))).
      { match goal with |- NoDup (event_key <$> ?l) =>
          assert (HP : l ≡ₚ iss ++ (e :: (fst <$> delete i res)) ++ ys)
            by solve_Permutation
        end.
        by rewrite HP. }
      assert (Hkeys' :
        NoDup ((row_key <$> rows db) ++ (event_key <$> (ys ++ [e])))).
      { rewrite fmap_app, (assoc_L (++)). simpl.
        apply NoDup_app. split; [exact Hkeys|]. split; [|apply NoDup_singleton].
        intros k Hk ->%list_elem_of_singleton.
        apply elem_of_app in Hk as [Hk|Hk]; [by apply Hnone|].
        rewrite !fmap_app, !fmap_cons in Hpend.
        apply NoDup_app in Hpend as (_ & _ & Hpend).
        apply NoDup_cons in Hpend as [Hpend _].
        apply Hpend. apply elem_of_app. by right. }
      assert (Hprog' : forall e', e' ∈ evs ->
                e' ∈ iss \/ (exists res', (e', res') ∈ delete i res) \/
                e' ∈ ys ++ [e] \/ event_key e' ∈ (row_key <$> rows db)).
      { intros e' He'. destruct (Hprog e' He') as [H|[[res' H]|[H|H]]]; auto.
        - destruct (elem_of_delete_or _ _ _ _ Hi H) as [[= -> ->]|H']; [|eauto].
          right; right; left. apply elem_of_app. right.
          by apply list_elem_of_singleton.
        - right; right; left. apply elem_of_app. by left. }
      destruct (decide (pend - 1 = 0)) as [E|E]; intros [= <- <- <-].
      * exists (ys ++ [e]), 1%nat. split; simpl; eauto;
          solve [by rewrite Hq, fmap_app | by rewrite Hf].
      * exists (ys ++ [e]), 0%nat. split; simpl; eauto;
          solve [by rewrite Hq, fmap_app, app_nil_r
                | by rewrite Hf
                | rewrite Hf; intros [?|?]; done].
  - (* a call of stmtInsert *)
    unfold stmt_step. rewrite Hq.
    destruct ys as [|y ys]; simpl.
    + destruct m as [|m]; simpl; [discriminate|].
      intros [= <- <- <-]. exists [], m. split; simpl; eauto.
    + assert (Hf : finalized sI = false).
      { destruct (finalized sI); [|done]. by specialize (Hclosed eq_refl). }
      rewrite Hf. intros [= <- <- <-].
      assert (Hk' : (row_key <$> rows (exec_insert db y))
                    = (row_key <$> rows db) ++ [event_key y]).
      { apply insert_keys. }
      exists ys, m.
      split; cbn [issued resolved stmtInsert stmtUpdate pendingOperations
                  queue finalized]; eauto.
      * rewrite Hk', <- (assoc_L (++)). exact Hkeys.
      * eapply sublist_NoDup; [exact Hpend|]. apply fmap_sublist.
        apply sublist_app; [done|]. apply sublist_app; [done|]. by apply sublist_cons.
      * intros e res' Hin. destruct (Hres e res' Hin) as (Hok & Hnone & Hsome).
        split; [done|]. rewrite Hk'. split.
        -- intros Hn Hk. apply elem_of_app in Hk as [Hk|Hk]; [by apply Hnone|].
           apply list_elem_of_singleton in Hk.
           rewrite !fmap_app, !fmap_cons in Hpend.
           apply NoDup_app in Hpend as (_ & _ & Hpend).
           apply NoDup_app in Hpend as (_ & Hpend & _).
           apply (Hpend (event_key e)).
           ++ rewrite <- list_fmap_compose.
              apply (list_elem_of_fmap_2 (event_key ∘ fst) _ (e, res')). exact Hin.
           ++ rewrite Hk. by left.
        -- intros Hs. apply elem_of_app. left. by apply Hsome.
      * done.
      * intros [?|Hm]; [done|]. apply Hclosing. by right.
      * intros e He. destruct (Hprog e He) as [H|[H|[H|H]]]; auto.
        -- apply elem_of_cons in H as [->|H]; [|auto].
           right; right; right. rewrite Hk'. apply elem_of_app. right. by left.
        -- right; right; right. rewrite Hk'. apply elem_of_app. by left.
  - (* a call of stmtUpdate: the keys of the rows stay *)
    unfold stmt_step.
    destruct (queue sU) as [|[a|] q] eqn:Hqu; [discriminate| |];
      intros [= <- <- <-]; exists ys, m.
    + assert (Hk' : (row_key <$> rows (if finalized sU then db else exec_update db a))
                    = (row_key <$> rows db)).
      { destruct (finalized sU); [done|]. apply update_color_keys. }
      split; simpl; rewrite ?Hk'; eauto.
    + split; simpl; eauto.
Qed.

Lemma distinct_run sched db p db' p' ys m :
  Forall error_free sched -> distinct_inv ys m db p ->
  run_pass sched db p = Some (db', p') ->
  exists ys' m', distinct_inv ys' m' db' p'.
Proof.
  intros Hall. revert db p ys m.
  induction Hall as [|a sched Ha _ IH]; intros db p ys m Hinv; simpl.
  - intros [= <- <-]. eauto.
  - destruct (pass_step a db p) as [[[db1 p1] log]|] eqn:E; [|discriminate].
    destruct (distinct_step _ _ _ _ _ _ _ _ Ha Hinv E) as (ys1 & m1 & Hinv1).
    eauto.
Qed.

(** A pass over a batch of distinct keys, run alone to its end on a table
    with one record per key and without lookup errors, leaves one record
    per key and has every key of the batch stored. *)
Lemma reconcile_distinct db0 sched db' p' :
  NoDup (row_key <$> rows db0) ->
  Forall error_free sched ->
  run_pass sched db0 (begin_pass evs) = Some (db', p') ->
  pass_done p' ->
  NoDup (row_key <$> rows db') /\
  forall e, e ∈ evs -> event_key e ∈ (row_key <$> rows db').
Proof.
  intros Hdb Hall Hrun (Hi & Hr & Hq & _).
  destruct (distinct_begin db0 Hdb) as [m0 H0].
  destruct (distinct_run _ _ _ _ _ _ _ Hall H0 Hrun) as (ys & m & Hinv).
  destruct Hinv as [Hkeys _ _ Hqueue _ _ _ Hprog].
  assert (ys = []) as ->.
  { rewrite Hq in Hqueue. destruct ys; [done|discriminate]. }
  simpl in Hkeys. rewrite app_nil_r in Hkeys. split; [exact Hkeys|].
  intros e He. destruct (Hprog e He) as [H|[[res H]|[H|H]]]; [| | |exact H].
  - rewrite Hi in H. by apply elem_of_nil in H.
  - rewrite Hr in H. by apply elem_of_nil in H.
  - by apply elem_of_nil in H.
Qed.

End DistinctKeys.

Lemma no_record_of_absent_key (l : list Row) (k : Key) :
  k ∉ (row_key <$> l) -> filter (Db.matches k) l = [].
Proof.
  induction l as [|r l IH]; simpl; [done|].
  rewrite not_elem_of_cons. intros [Hr Hl].
  rewrite filter_cons. unfold Db.matches at 1.
  destruct (decide (row_key r = k)) as [E|E]; [congruence|auto].
Qed.

Lemma one_record_per_key (l : list Row) (k : Key) :
  NoDup (row_key <$> l) -> k ∈ (row_key <$> l) ->
  length (filter (Db.matches k) l) = 1%nat.
Proof.
  induction l as [|r l IH]; simpl.
  - intros _ H. by apply elem_of_nil in H.
  - rewrite NoDup_cons, elem_of_cons. intros [Hr Hnd] Hk.
    rewrite filter_cons. unfold Db.matches at 1.
    destruct (decide (row_key r = k)) as [E|E].
    + simpl. rewrite no_record_of_absent_key; [done|by rewrite <- E].
    + apply IH; [done|]. destruct Hk as [Hk|Hk]; [congruence|done].
Qed.

(** Reconciling the same batch twice. For a batch of distinct keys and a
    table with one record per key, when the first pass has run alone to its
    end without lookup errors, the second pass, whatever the order of its
    work, inserts no row, and the table holds exactly one record for every
    key of the batch and at most one for any key. *)
Lemma reconcile_twice evs db0 sched1 db1 p1 sched2 db2 p2 :
  NoDup (event_key <$> evs) ->
  NoDup (row_key <$> rows db0) ->
  Forall error_free sched1 ->
  run_pass sched1 db0 (begin_pass evs) = Some (db1, p1) -> pass_done p1 ->
  run_pass sched2 db1 (begin_pass evs) = Some (db2, p2) ->
  length (rows db2) = length (rows db1) /\
  NoDup (row_key <$> rows db2) /\
  forall e, e ∈ evs -> length (records_of db2 (event_key e)) = 1%nat.
Proof.
  intros Hevs Hdb Hfree Hrun1 Hdone1 Hrun2.
  destruct (reconcile_distinct evs Hevs db0 sched1 db1 p1 Hdb Hfree Hrun1 Hdone1)
    as [Hnd Hall].
  destruct (stored_keys_no_insert db1 evs sched2 db2 p2 Hall Hrun2)
    as (Hfix & Hlen & _).
  apply keys_of_fixed in Hfix.
  split; [exact Hlen|]. split; [by rewrite Hfix|].
  intros e He. apply one_record_per_key; rewrite Hfix; auto.
Qed.

(** ** Reconciler: update in place *)

Lemma recolor_single e r :
  recolor [e] r =
    if decide (row_key r = event_key e) then Db.set_color (color e) r else r.
Proof.
  unfold recolor. simpl.
  destruct (decide (event_key e = row_key r)) as [E|E];
    destruct (decide (row_key r = event_key e)) as [E'|E']; simpl;
    congruence.
Qed.

(** The work of a pass over one event that is stored, in program order. *)
Lemma single_stored_pass db e r :
  Db.get db (event_key e) = Some r ->
  exists p',
    run_pass [SelectRuns 0 false; CallbackRuns 0; UpdateStmtRuns;
              UpdateStmtRuns; InsertStmtRuns] db (begin_pass [e])
      = Some (Db.update_color db (color e) (event_key e), p') /\
    pass_done p' /\
    finalized (stmtInsert p') = true /\ finalized (stmtUpdate p') = true.
Proof.
  intros Hget. unfold begin_pass, finalize_if_done. simpl. rewrite Hget. simpl.
  eexists. split; [reflexivity|]. repeat split.
Qed.

(** C2. When the callback of a lookup receives a row, it queues one call of
    the UPDATE statement, with the color and the key of the event, and no
    call of the INSERT statement. That call keeps the number of rows and the
    AUTOINCREMENT counter, leaves id, title, start, end, description and
    location of every row as they are, and sets the color of the rows with
    the key, and of no other row. In particular, when an event that was
    ingested comes back with the status CONFIRMED, it has the same key and
    the color green, and a pass over it run alone to its end makes the stored
    rows of that key green, in place: no row is added and nothing else is
    rewritten; the work of the pass in program order is such a run. *)
Theorem matched_record_color_only (event : Event) (row : Row) (p : Pass)
    (db : Storage) :
  (let p' := fst (get_callback event (GetRow (Some row)) p) in
   runs (queue (stmtInsert p')) = runs (queue (stmtInsert p)) /\
   runs (queue (stmtUpdate p')) =
     runs (queue (stmtUpdate p)) ++ [(color event, event_key event)]) /\
  (let db' := exec_update db (color event, event_key event) in
   length (rows db') = length (rows db) /\
   sqlite_sequence db' = sqlite_sequence db /\
   forall i r, rows db !! i = Some r ->
     exists r', rows db' !! i = Some r' /\
       row_id r' = row_id r /\ row_title r' = row_title r /\
       row_start r' = row_start r /\ row_end r' = row_end r /\
       row_description r' = row_description r /\
       row_location r' = row_location r /\
       row_color r' =
         if decide (row_key r = event_key event) then color event
         else row_color r) /\
  (forall prefix v before after,
     normalize_one prefix v = inr before ->
     normalize_one prefix
       (mkVEvent (summary v) (startDate v) (endDate v) (Some "CONFIRMED")
                 (vdescription v) (vlocation v)) = inr after ->
     event_key before ∈ (row_key <$> rows db) ->
     event_key after = event_key before /\ color after = "green" /\
     (status v <> Some "CONFIRMED" -> color before = "red") /\
     (exists p',
        run_pass [SelectRuns 0 false; CallbackRuns 0; UpdateStmtRuns;
                  UpdateStmtRuns; InsertStmtRuns] db (begin_pass [after])
          = Some (Db.update_color db "green" (event_key before), p') /\
        pass_done p') /\
     forall sched db' p',
       Forall error_free sched ->
       run_pass sched db (begin_pass [after]) = Some (db', p') ->
       pass_done p' ->
       length (rows db') = length (rows db) /\
       rows db' =
         ((fun r => if decide (row_key r = event_key before)
                    then Db.set_color "green" r else r) <$> rows db)).
Proof.
  split; [|split].
  - unfold get_callback, finalize_if_done. simpl.
    destruct (decide (pendingOperations p - 1 = 0)); simpl;
      rewrite ?runs_app; simpl; rewrite ?app_nil_r; split; reflexivity.
  - cbv zeta. unfold exec_update. cbn [fst snd].
    split; [apply update_color_length|]. split; [reflexivity|].
    intros i r Hi.
    rewrite (update_color_lookup db (color event) (event_key event) i r Hi).
    eexists. split; [reflexivity|].
    destruct (decide (row_key r = event_key event)); simpl; auto 10.
  - intros prefix v before after Hb Ha Hstored.
    apply normalize_one_inv in Hb as (s & e & Hs & He & Eb).
    apply normalize_one_inv in Ha as (s' & e' & Hs' & He' & Ea).
    simpl in Hs', He'. rewrite Hs in Hs'. rewrite He in He'.
    injection Hs' as <-. injection He' as <-.
    assert (Hk : event_key after = event_key before) by (by rewrite Ea, Eb).
    assert (Hc : color after = "green") by (by rewrite Ea).
    split; [exact Hk|]. split; [exact Hc|]. split.
    { intros Hst. rewrite Eb. simpl. by rewrite decide_False. }
    split.
    { apply get_is_Some in Hstored as [r Hr]. rewrite <- Hk in Hr.
      destruct (single_stored_pass db after r Hr) as (p' & Hrun & Hdone & _).
      exists p'. rewrite <- Hk, <- Hc. split; assumption. }
    intros sched db' p' Hfree Hrun Hdone.
    assert (Hnd : NoDup (event_key <$> [after])).
    { apply NoDup_singleton. }
    assert (Hst : forall x, x ∈ [after] -> event_key x ∈ (row_key <$> rows db)).
    { intros x Hx. apply list_elem_of_singleton in Hx as ->. by rewrite Hk. }
    destruct (reingest_recolors [after] db Hnd Hst sched db' p' Hfree Hrun Hdone)
      as [Hrows _].
    rewrite Hrows. split; [apply length_fmap|].
    apply list_fmap_ext. intros i r _. rewrite recolor_single, Hk, Hc. reflexivity.
Qed.

(** ** Reconciler: the empty batch *)

Lemma idle_step a db p db' p' log :
  idle p -> pass_step a db p = Some (db', p', log) -> db' = db /\ idle p'.
Proof.
  intros (Hi & Hr & HI & HU). destruct p as [iss res sI sU pend]. simpl in *.
  subst iss res. destruct a as [i err|i| |]; simpl; try discriminate.
  - unfold stmt_step.
    destruct (queue sI) as [|[a|] q] eqn:Hq; [discriminate|done|].
    intros [= <- <- <-]. repeat split; auto.
  - unfold stmt_step.
    destruct (queue sU) as [|[a|] q] eqn:Hq; [discriminate|done|].
    intros [= <- <- <-]. repeat split; auto.
Qed.

Lemma idle_run sched db p db' p' :
  idle p -> run_pass sched db p = Some (db', p') -> db' = db.
Proof.
  revert db p. induction sched as [|a sched IH]; intros db p Hidle; simpl.
  - by intros [= <- <-].
  - destruct (pass_step a db p) as [[[db1 p1] log]|] eqn:E; [|discriminate].
    destruct (idle_step _ _ _ _ _ _ Hidle E) as [-> Hidle1].
    intros Hrun. eapply IH; eauto.
Qed.

Section EmptyBatch.

Variable ICAL_parse : string -> Exn + list VEvent.

(** C10. For a feed without event components the synchronous part of
    [fetchAndStoreEvents] ends with both statements asked to finalize by
    the test after the loop; no lookup is issued and no [run] is queued.
    The pass completes, with both statements finalized, and however the
    driver orders its work the table is left as it was. *)
Theorem empty_batch_pass (upstream : nat -> Outcome) (url prefix data : string)
    (tr : list Effect) :
  fetchWithRetries upstream url default_retries default_delay
    = (Returned data, tr) ->
  ICAL_parse data = inr [] ->
  fetchAndStoreEvents ICAL_parse upstream url prefix
    = (Some (mkPass [] [] (mkStatement [Finalize] false)
                          (mkStatement [Finalize] false) 0), tr) /\
  begin_pass [] = mkPass [] [] (mkStatement [Finalize] false)
                               (mkStatement [Finalize] false) 0 /\
  (forall db, exists p',
     run_pass [InsertStmtRuns; UpdateStmtRuns] db (begin_pass []) = Some (db, p') /\
     pass_done p' /\
     finalized (stmtInsert p') = true /\ finalized (stmtUpdate p') = true) /\
  (forall sched db db' p',
     run_pass sched db (begin_pass []) = Some (db', p') -> db' = db) /\
  (forall s, exists s',
     run ICAL_parse [Ingest url prefix upstream;
                     PassStep (length (passes s)) InsertStmtRuns;
                     PassStep (length (passes s)) UpdateStmtRuns] s = Some s' /\
     db s' = db s).
Proof.
  intros Hf Hp.
  assert (Hfs : fetchAndStoreEvents ICAL_parse upstream url prefix
                = (Some (begin_pass []), tr)).
  { unfold fetchAndStoreEvents. rewrite Hf, Hp. reflexivity. }
  split; [exact Hfs|]. split; [reflexivity|]. split; [|split].
  - intros db. eexists. split; [reflexivity|]. repeat split.
  - intros sched db db' p' Hrun. eapply idle_run; [|exact Hrun].
    repeat split.
  - intros s. cbn [run step]. rewrite Hfs.
    cbn [passes option_list db cache clock scans scanned replies console].
    rewrite lookup_app_r by reflexivity. rewrite Nat.sub_diag. simpl.
    rewrite list_lookup_insert_eq by (rewrite length_app; simpl; lia).
    simpl. eexists. split; reflexivity.
Qed.

End EmptyBatch.

(** ** Reconciler: a pass comes to its end *)

Lemma stmt_in_order_iff {A} (P Q : Prop) (s : Statement A) :
  (P <-> Q) -> stmt_in_order P s -> stmt_in_order Q s.
Proof.
  intros HPQ (xs & n & Hq & Hf & Hn & Hi). exists xs, n. rewrite <- HPQ. auto.
Qed.

Lemma stmt_in_order_call_run {A} (s : Statement A) (a : A) (idle : Prop) :
  ~ idle -> stmt_in_order idle s -> stmt_in_order idle (call (Run a) s).
Proof.
  intros Hbusy (xs & n & Hq & Hf & Hn & Hi).
  assert (n = 0%nat /\ finalized s = false) as [-> Hfin].
  { split.
    - destruct n as [|[|n]]; [done| |lia]. exfalso. apply Hbusy, Hi. by left.
    - destruct (finalized s); [|done]. exfalso. apply Hbusy, Hi. by right. }
  exists (xs ++ [a]), 0%nat. unfold call. simpl.
  rewrite Hq, Hfin, fmap_app. simpl. rewrite !app_nil_r.
  split; [done|]. split; [done|]. split; [lia|].
  split; [intros [?|?]; done|]. intros H. by destruct Hbusy.
Qed.

Lemma stmt_in_order_call_finalize {A} (s : Statement A) (busy : Prop) :
  ~ busy -> stmt_in_order busy s ->
  stmt_in_order True (call Finalize s).
Proof.
  intros Hbusy (xs & n & Hq & Hf & Hn & Hi).
  assert (n = 0%nat /\ finalized s = false) as [-> Hfin].
  { split.
    - destruct n as [|[|n]]; [done| |lia]. exfalso. apply Hbusy, Hi. by left.
    - destruct (finalized s); [|done]. exfalso. apply Hbusy, Hi. by right. }
  exists xs, 1%nat. unfold call. simpl. rewrite Hq, Hfin. simpl.
  rewrite app_nil_r.
  split; [done|]. split; [done|]. split; [lia|]. split; auto.
Qed.

Lemma stmt_in_order_step {A} (exec : Storage -> A -> Storage) idle db s db' s' :
  stmt_in_order idle s -> stmt_step exec db s = Some (db', s') ->
  stmt_in_order idle s' /\
  length (queue s) = S (length (queue s')) /\
  (forall a q, queue s = Run a :: q -> finalized s = false /\ db' = exec db a) /\
  (forall q, queue s = Finalize :: q ->
     finalized s = false /\ q = [] /\ db' = db /\ finalized s' = true).
Proof.
  intros (xs & n & Hq & Hf & Hn & Hi). unfold stmt_step. rewrite Hq.
  destruct xs as [|x xs]; simpl.
  - destruct n as [|[|n]]; simpl; [discriminate| |lia].
    intros [= <- <-].
    assert (Hfin : finalized s = false).
    { destruct (finalized s); [|done]. by destruct (Hf eq_refl). }
    split; [|split; [done|split]].
    + exists [], 0%nat. simpl. split; [done|]. split; [done|]. split; [lia|].
      split; [intros _; apply Hi; by left|by right].
    + intros a q [=].
    + intros q [= <-]. auto.
  - assert (Hfin : finalized s = false).
    { destruct (finalized s); [|done]. by destruct (Hf eq_refl). }
    rewrite Hfin. intros [= <- <-]. split; [|split; [|split]].
    + exists xs, n. simpl. split; [done|]. split; [done|].
      split; [done|]. rewrite <- Hi, Hfin. tauto.
    + simpl. done.
    + intros a q [= <- <-]. auto.
    + intros q [=].
Qed.

Lemma lifecycle_begin evs : lifecycle (begin_pass evs).
Proof.
  unfold begin_pass, finalize_if_done. simpl.
  destruct (decide (Z.of_nat (length evs) = 0)) as [E|E].
  - assert (evs = []) as -> by (destruct evs; [done|simpl in E; lia]).
    split; simpl; [done| |];
      exists [], 1%nat; simpl; (split; [done|]); (split; [done|]);
      (split; [lia|]); split; auto.
  - assert (Hne : evs <> []) by (intros ->; simpl in E; lia).
    split; simpl; [lia| |];
      exists [], 0%nat; simpl; (split; [done|]); (split; [done|]);
      (split; [lia|]); (split; [intros [?|?]; done|]); intros [? _]; done.
Qed.

Lemma lifecycle_close iss res sI sU pend (busy : Prop) :
  ~ busy -> stmt_in_order busy sI -> stmt_in_order busy sU ->
  pend = Z.of_nat (length iss + length res) ->
  lifecycle (finalize_if_done (mkPass iss res sI sU pend)) /\
  work_left (finalize_if_done (mkPass iss res sI sU pend))
  = (3 * length iss + 2 * length res
     + length (queue sI) + length (queue sU) + 2)%nat.
Proof.
  intros Hbusy HI HU Hc. unfold finalize_if_done. simpl.
  destruct (decide (pend = 0)) as [E|E].
  - assert (iss = [] /\ res = []) as [-> ->].
    { rewrite E in Hc. split; [destruct iss|destruct res];
        try done; simpl in *; lia. }
    split.
    + split; simpl; [done| |];
        (eapply stmt_in_order_iff; [|eapply stmt_in_order_call_finalize; eauto]);
        tauto.
    + unfold work_left, call. simpl. rewrite !length_app. simpl.
      try (rewrite decide_True by done). lia.
  - assert (Hidle : ~ (iss = [] /\ res = [])).
    { intros [-> ->]. simpl in Hc. lia. }
    split.
    + split; simpl; [done| |];
        (eapply stmt_in_order_iff; [|eassumption]); tauto.
    + unfold work_left. simpl. rewrite decide_False by done. lia.
Qed.

Lemma lifecycle_step a db p db' p' log :
  lifecycle p -> pass_step a db p = Some (db', p', log) ->
  lifecycle p' /\ (work_left p' < work_left p)%nat.
Proof.
  intros [Hc HI HU]. destruct p as [iss res sI sU pend]. simpl in *.
  destruct a as [i err|i| |]; simpl.
  - destruct (iss !! i) as [e|] eqn:Hi; [|discriminate].
    intros [= <- <- <-].
    assert (Hiss : iss <> []) by (intros ->; done).
    assert (Hl : length (delete i iss) = (length iss - 1)%nat)
      by (apply length_delete; eauto).
    assert (Hpos : (0 < length iss)%nat) by (destruct iss; [done|simpl; lia]).
    split.
    + split; simpl.
      * rewrite Hc, Hl, length_app. simpl. lia.
      * eapply stmt_in_order_iff; [|exact HI]. split; intros [H1 H2]; [done|].
        by destruct res.
      * eapply stmt_in_order_iff; [|exact HU]. split; intros [H1 H2]; [done|].
        by destruct res.
    + unfold work_left. simpl. rewrite Hl, length_app. simpl.
      rewrite (decide_False (P := iss = [] /\ res = [])) by (intros [? _]; done).
      rewrite decide_False by (intros [_ ?]; by destruct res).
      lia.
  - destruct (res !! i) as [[e r]|] eqn:Hi; [|discriminate].
    assert (Hl : length (delete i res) = (length res - 1)%nat)
      by (apply length_delete; eauto).
    assert (Hpos : (0 < length res)%nat) by (destruct res; [done|simpl; lia]).
    assert (Hbusy : ~ (iss = [] /\ res = [])) by (intros [_ ->]; done).
    assert (Hc' : pend - 1 = Z.of_nat (length iss + length (delete i res)))
      by lia.
    assert (Hw : work_left (mkPass iss res sI sU pend)
                 = (3 * length iss + 2 * length res
                    + length (queue sI) + length (queue sU) + 2)%nat).
    { unfold work_left. simpl. rewrite decide_False by done. lia. }
    rewrite Hw. unfold get_callback.
    destruct r as [|[row|]]; cbn [issued resolved stmtInsert stmtUpdate
                                  pendingOperations].
    + intros [= <- <- <-].
      destruct (lifecycle_close iss (delete i res) sI sU (pend - 1) _
                  Hbusy HI HU Hc') as [Hlc ->].
      split; [exact Hlc|]. lia.
    + intros [= <- <- <-].
      destruct (lifecycle_close iss (delete i res) sI
                  (call (Run (color e, event_key e)) sU) (pend - 1) _
                  Hbusy HI (stmt_in_order_call_run _ _ _ Hbusy HU) Hc')
        as [Hlc ->].
      split; [exact Hlc|]. unfold call. simpl. rewrite length_app. simpl. lia.
    + intros [= <- <- <-].
      destruct (lifecycle_close iss (delete i res) (call (Run e) sI) sU
                  (pend - 1) _
                  Hbusy (stmt_in_order_call_run _ _ _ Hbusy HI) HU Hc')
        as [Hlc ->].
      split; [exact Hlc|]. unfold call. simpl. rewrite length_app. simpl. lia.
  - destruct (stmt_step exec_insert db sI) as [[d s]|] eqn:Hs; [|discriminate].
    intros [= <- <- <-].
    destruct (stmt_in_order_step _ _ _ _ _ _ HI Hs) as (HI' & Hlen & _).
    split; [split; simpl; auto|]. unfold work_left. simpl. lia.
  - destruct (stmt_step exec_update db sU) as [[d s]|] eqn:Hs; [|discriminate].
    intros [= <- <- <-].
    destruct (stmt_in_order_step _ _ _ _ _ _ HU Hs) as (HU' & Hlen & _).
    split; [split; simpl; auto|]. unfold work_left. simpl. lia.
Qed.

Lemma lifecycle_run sched db p db' p' :
  lifecycle p -> run_pass sched db p = Some (db', p') ->
  lifecycle p' /\ (length sched + work_left p' <= work_left p)%nat.
Proof.
  revert db p. induction sched as [|a sched IH]; intros db p Hlc; simpl.
  - intros [= <- <-]. split; [done|lia].
  - destruct (pass_step a db p) as [[[db1 p1] log]|] eqn:E; [|discriminate].
    destruct (lifecycle_step _ _ _ _ _ _ Hlc E) as [Hlc1 Hlt].
    intros Hrun. destruct (IH _ _ Hlc1 Hrun) as [Hlc' Hle].
    split; [done|lia].
Qed.

Lemma stmt_in_order_facts {A} (idle : Prop) (s : Statement A) :
  stmt_in_order idle s ->
  (forall a q, queue s = Run a :: q -> finalized s = false) /\
  (forall q, queue s = Finalize :: q -> finalized s = false /\ q = []) /\
  (finalized s = true -> idle) /\
  (idle -> queue s = [] -> finalized s = true).
Proof.
  intros (xs & n & Hq & Hf & Hn & Hi). split; [|split; [|split]].
  - intros a q E. destruct (finalized s); [|done].
    destruct (Hf eq_refl) as [-> ->]. rewrite Hq in E. discriminate.
  - intros q E. rewrite Hq in E. destruct xs as [|x xs]; [|discriminate].
    destruct n as [|[|n]]; [discriminate| |lia]. simpl in E.
    injection E as <-. split; [|done].
    destruct (finalized s); [|done]. by destruct (Hf eq_refl).
  - intros H. apply Hi. by right.
  - intros H E. apply Hi in H as [->|H]; [|done].
    rewrite Hq in E. by destruct xs.
Qed.

Lemma work_left_done p : work_left p = 0%nat <-> pass_done p.
Proof.
  unfold work_left, pass_done. split.
  - intros H.
    destruct (decide (issued p = [] /\ resolved p = [])) as [[Hi Hr]|Hn]; [|lia].
    split; [done|]. split; [done|].
    split; apply nil_length_inv; lia.
  - intros (Hi & Hr & HI & HU). rewrite Hi, Hr, HI, HU. simpl.
    try (rewrite decide_True by done). reflexivity.
Qed.

Lemma pass_can_step db p :
  ~ pass_done p -> exists a, error_free a /\ is_Some (pass_step a db p).
Proof.
  intros Hnd. destruct p as [iss res sI sU pend].
  destruct iss as [|e iss].
  - destruct res as [|[e r] res].
    + destruct (queue sI) as [|op q] eqn:HI.
      * destruct (queue sU) as [|op q] eqn:HU.
        -- exfalso. apply Hnd. repeat split; assumption.
        -- exists UpdateStmtRuns. split; [done|]. simpl. unfold stmt_step.
           rewrite HU. destruct op; eauto.
      * exists InsertStmtRuns. split; [done|]. simpl. unfold stmt_step.
        rewrite HI. destruct op; eauto.
    + exists (CallbackRuns 0). split; [done|]. simpl.
      destruct (get_callback _ _ _). eauto.
  - exists (SelectRuns 0 false). split; [done|]. simpl. eauto.
Qed.

Lemma runs_cons_Run {A} (a : A) (q : list (StmtOp A)) :
  runs (Run a :: q) = a :: runs q.
Proof. reflexivity. Qed.

(** Every pass can be run to its end. *)
Lemma pass_completes db p :
  lifecycle p ->
  exists sched db' p',
    Forall error_free sched /\ run_pass sched db p = Some (db', p') /\
    pass_done p'.
Proof.
  remember (work_left p) as n eqn:Hn. revert db p Hn.
  induction n as [n IH] using lt_wf_ind. intros db p Hn Hl.
  destruct n as [|n].
  - exists [], db, p. split; [constructor|]. split; [reflexivity|].
    by apply work_left_done.
  - assert (Hnd : ~ pass_done p).
    { intros Hd. apply work_left_done in Hd. lia. }
    destruct (pass_can_step db p Hnd) as (a & Ha & [[[db1 p1] log] E]).
    destruct (lifecycle_step _ _ _ _ _ _ Hl E) as [Hl1 Hlt].
    destruct (IH (work_left p1) ltac:(lia) db1 p1 eq_refl Hl1)
      as (sched & db' & p' & Hfree & Hrun & Hdone).
    exists (a :: sched), db', p'. split; [by constructor|].
    split; [|exact Hdone]. simpl. rewrite E. exact Hrun.
Qed.

Section StoresBatch.

Variable evs : list Event.

(** Where each event of the batch is on its way to the table when no lookup
    fails: its lookup is issued or resolved, its INSERT waits, or its key is
    stored. *)
Record storing_inv (db : Storage) (p : Pass) : Prop := {
  sg_resolved : forall e res, (e, res) ∈ resolved p ->
    res <> GetErr /\
    (forall r, res = GetRow (Some r) -> event_key e ∈ (row_key <$> rows db));
  sg_progress : forall e, e ∈ evs ->
    e ∈ issued p \/ (exists res, (e, res) ∈ resolved p) \/
    e ∈ runs (queue (stmtInsert p)) \/ event_key e ∈ (row_key <$> rows db)
}.

Lemma storing_begin db0 : storing_inv db0 (begin_pass evs).
Proof.
  unfold begin_pass, finalize_if_done. simpl.
  destruct (decide (Z.of_nat (length evs) = 0)) as [E|E]; split; simpl; auto;
    intros e res Hin; by apply elem_of_nil in Hin.
Qed.

Lemma storing_finalize db iss res sI sU pend pend' :
  storing_inv db (mkPass iss res sI sU pend') ->
  storing_inv db (finalize_if_done (mkPass iss res sI sU pend)).
Proof.
  intros [H1 H2]. unfold finalize_if_done. simpl in *.
  destruct (decide (pend = 0)) as [E|E]; split; simpl; auto.
  intros e He. rewrite runs_app. simpl. rewrite app_nil_r. auto.
Qed.

Lemma storing_step a db p db' p' log :
  error_free a -> lifecycle p -> storing_inv db p ->
  pass_step a db p = Some (db', p', log) -> storing_inv db' p'.
Proof.
  intros Hfree [_ HI HU] [Hres Hprog].
  destruct p as [iss res sI sU pend]. simpl in *.
  destruct a as [i err|i| |]; simpl.
  - (* the SELECT of a lookup *)
    destruct err; [done|].
    destruct (iss !! i) as [e|] eqn:Hi; [|discriminate].
    intros [= <- <- <-]. split; simpl.
    + intros e' res' [Hin|Hin%list_elem_of_singleton]%elem_of_app; [eauto|].
      injection Hin as -> ->. split; [done|].
      intros r [= Hr]. apply get_Some in Hr as [Hr <-].
      by apply list_elem_of_fmap_2.
    + intros e' He'. destruct (Hprog e' He') as [H|[[r H]|H]].
      * destruct (elem_of_delete_or _ _ _ _ Hi H) as [->|H']; [|by left].
        right. left. eexists. apply elem_of_app. right.
        by apply list_elem_of_singleton.
      * right. left. exists r. apply elem_of_app. by left.
      * right. right. exact H.
  - (* the callback of a lookup *)
    destruct (res !! i) as [[e r]|] eqn:Hi; [|discriminate].
    assert (Hin : (e, r) ∈ res) by (eapply list_elem_of_lookup_2; eauto).
    destruct (Hres e r Hin) as [Hr Hstored].
    assert (Hdel : forall e' res', (e', res') ∈ delete i res ->
              res' <> GetErr /\
              (forall r0, res' = GetRow (Some r0) ->
                          event_key e' ∈ (row_key <$> rows db))).
    { intros e' res' H. apply Hres. eapply list_elem_of_delete_inv; eauto. }
    assert (Hmoved : forall e', e' ∈ evs ->
              (e' = e /\ (e, r) ∈ res) \/ e' ∈ iss \/
              (exists res', (e', res') ∈ delete i res) \/
              e' ∈ runs (queue sI) \/ event_key e' ∈ (row_key <$> rows db)).
    { intros e' He'. destruct (Hprog e' He') as [H|[[r' H]|H]]; [auto| |auto 6].
      destruct (elem_of_delete_or _ _ _ _ Hi H) as [[= -> ->]|H']; [by left|].
      right. right. left. eauto. }
    unfold get_callback.
    destruct r as [|[row|]]; [done| |];
      cbn [issued resolved stmtInsert stmtUpdate pendingOperations];
      intros [= <- <- <-]; eapply (storing_finalize _ _ _ _ _ _ 0);
      split; simpl; auto.
    + intros e' He'.
      destruct (Hmoved e' He') as [[-> _]|[H|[H|[H|H]]]]; eauto 6.
    + intros e' He'. rewrite runs_app, elem_of_app. simpl.
      destruct (Hmoved e' He') as [[-> _]|[H|[H|[H|H]]]]; auto 6.
      right. right. left. right. by apply list_elem_of_singleton.
  - (* a call of stmtInsert *)
    unfold stmt_step. destruct (queue sI) as [|[x|] q] eqn:Hq; [discriminate| |].
    + destruct (stmt_in_order_facts _ _ HI) as (I1 & _).
      rewrite (I1 x q Hq). intros [= <- <- <-].
      assert (Hmono : forall k, k ∈ (row_key <$> rows db) ->
                        k ∈ (row_key <$> rows (exec_insert db x))).
      { intros k Hk. unfold exec_insert. rewrite insert_keys.
        apply elem_of_app. by left. }
      assert (Hnew : event_key x ∈ (row_key <$> rows (exec_insert db x))).
      { unfold exec_insert. rewrite insert_keys.
        apply elem_of_app. right. by apply list_elem_of_singleton. }
      split; cbn [issued resolved stmtInsert stmtUpdate queue].
      * intros e res' Hin. destruct (Hres e res' Hin) as [H1 H2].
        split; [exact H1|]. intros r Hr. apply Hmono. eauto.
      * intros e He. destruct (Hprog e He) as [H|[H|[H|H]]]; [auto|auto| |auto].
        rewrite runs_cons_Run in H. apply elem_of_cons in H as [->|H]; auto.
    + intros [= <- <- <-]. split; simpl; auto.
  - (* a call of stmtUpdate *)
    unfold stmt_step. destruct (queue sU) as [|[a|] q] eqn:Hq; [discriminate| |].
    + intros [= <- <- <-].
      assert (Hkeys : (row_key <$> rows (if finalized sU then db
                                         else exec_update db a))
                      = (row_key <$> rows db)).
      { destruct (finalized sU); [reflexivity|]. apply update_color_keys. }
      split; simpl; rewrite Hkeys; auto.
    + intros [= <- <- <-]. split; simpl; auto.
Qed.

Lemma storing_run sched db p db' p' :
  Forall error_free sched -> lifecycle p -> storing_inv db p ->
  run_pass sched db p = Some (db', p') -> storing_inv db' p'.
Proof.
  intros Hall. revert db p.
  induction Hall as [|a sched Ha _ IH]; intros db p Hl Hinv; simpl.
  - intros [= <- <-]. exact Hinv.
  - destruct (pass_step a db p) as [[[db1 p1] log]|] eqn:E; [|discriminate].
    destruct (lifecycle_step _ _ _ _ _ _ Hl E) as [Hl1 _].
    intros Hrun. apply (IH db1 p1 Hl1); [|exact Hrun].
    exact (storing_step _ _ _ _ _ _ Ha Hl Hinv E).
Qed.

(** When a pass has run to its end without lookup errors, every event of
    its batch has a record in the table. *)
Lemma pass_stores_batch db0 sched db' p' :
  Forall error_free sched ->
  run_pass sched db0 (begin_pass evs) = Some (db', p') ->
  pass_done p' ->
  forall e, e ∈ evs -> event_key e ∈ (row_key <$> rows db').
Proof.
  intros Hall Hrun (Hi & Hr & Hq & _) e He.
  destruct (storing_run _ _ _ _ _ Hall (lifecycle_begin evs)
              (storing_begin db0) Hrun) as [_ Hprog].
  destruct (Hprog e He) as [H|[[res H]|[H|H]]]; [| | |exact H].
  - rewrite Hi in H. by apply elem_of_nil in H.
  - rewrite Hr in H. by apply elem_of_nil in H.
  - rewrite Hq in H. by apply elem_of_nil in H.
Qed.

End StoresBatch.

(** ** Fetcher: resilience *)

Section FetchResilience.

Variable ICAL_parse : string -> Exn + list VEvent.

(** C6. The fetcher makes at most 3 retrievals and every delay it sleeps is
    10 seconds. When the first two attempts fail and the third succeeds,
    it returns the third response after sleeping twice, and the ingestion
    goes on with that response: when the response parses and normalizes to
    a batch, [fetchAndStoreEvents] starts the pass over that batch and
    prints no error; the pass can be run to its end, and when it has run to
    its end without lookup errors every event of the third response has a
    record in the table. The pass is the one a first-time success with
    that response starts. When every attempt fails the fetcher throws
    after 3 retrievals and 2 delays; [fetchAndStoreEvents] catches and
    prints the error, and the table, the cache, the passes of other calls
    and the pending and answered requests are left as they were, so that
    whatever follows (the ingestion of the other source, requests to the
    read endpoint) runs as if the failed call had not been made, the
    console apart. *)
Theorem fetch_resilience (upstream : nat -> Outcome) (url prefix : string) :
  (let tr := snd (fetchWithRetries upstream url default_retries default_delay) in
   (attempts tr <= 3)%nat /\ Forall (eq 10000) (sleeps tr)) /\
  (forall m1 m2 data,
     upstream 1%nat = Rejected m1 -> upstream 2%nat = Rejected m2 ->
     upstream 3%nat = Resolved data ->
     let tr := [HttpGet url 1; AttemptFailed 1 m1; Sleep 10000;
                HttpGet url 2; AttemptFailed 2 m2; Sleep 10000;
                HttpGet url 3] in
     fetchWithRetries upstream url default_retries default_delay
       = (Returned data, tr) /\
     (forall vs evs,
        ICAL_parse data = inr vs -> normalize prefix vs = inr evs ->
        fetchAndStoreEvents ICAL_parse upstream url prefix
          = (Some (begin_pass evs), tr) /\
        (forall s,
           step ICAL_parse (Ingest url prefix upstream) s =
             Some (mkSystem (db s) (cache s) (clock s)
                     (passes s ++ [begin_pass evs]) (scans s) (scanned s)
                     (replies s) (console s ++ tr))) /\
        (forall db0, exists sched db' p',
           Forall error_free sched /\
           run_pass sched db0 (begin_pass evs) = Some (db', p') /\
           pass_done p') /\
        (forall db0 sched db' p',
           Forall error_free sched ->
           run_pass sched db0 (begin_pass evs) = Some (db', p') ->
           pass_done p' ->
           forall e, e ∈ evs -> event_key e ∈ (row_key <$> rows db'))) /\
     fst (fetchAndStoreEvents ICAL_parse upstream url prefix) =
       fst (fetchAndStoreEvents ICAL_parse (fun _ => Resolved data) url prefix)) /\
  ((forall n, exists m, upstream n = Rejected m) ->
     exists tr,
       fetchWithRetries upstream url default_retries default_delay
         = (Thrown (FetchFailed url 3), tr) /\
       attempts tr = 3%nat /\ sleeps tr = [10000; 10000] /\
       fetchAndStoreEvents ICAL_parse upstream url prefix
         = (None, tr ++ [ErrorFetchingAndStoring (FetchFailed url 3)]) /\
       forall s,
         step ICAL_parse (Ingest url prefix upstream) s =
           Some (mkSystem (db s) (cache s) (clock s) (passes s) (scans s)
                   (scanned s) (replies s)
                   (console s ++ tr ++ [ErrorFetchingAndStoring (FetchFailed url 3)])) /\
         forall sched,
           forget_console <$>
             run ICAL_parse (Ingest url prefix upstream :: sched) s
           = forget_console <$> run ICAL_parse sched s).
Proof.
  split; [|split].
  - split.
    + apply (fetch_loop_attempts upstream url 3 default_delay 3 1).
    + apply (fetch_loop_sleeps upstream url 3 default_delay 3 1).
  - intros m1 m2 data H1 H2 H3 tr.
    assert (Hf : fetchWithRetries upstream url default_retries default_delay
                 = (Returned data, tr)).
    { unfold fetchWithRetries, default_retries. simpl.
      rewrite H1. simpl. rewrite H2. simpl. rewrite H3. reflexivity. }
    split; [exact Hf|]. split.
    + intros vs evs Hparse Hnorm.
      assert (Hp : fetchAndStoreEvents ICAL_parse upstream url prefix
                   = (Some (begin_pass evs), tr)).
      { unfold fetchAndStoreEvents. rewrite Hf, Hparse, Hnorm. reflexivity. }
      split; [exact Hp|]. split; [|split].
      * intros s. cbn [step]. rewrite Hp. reflexivity.
      * intros db0. apply pass_completes. apply lifecycle_begin.
      * intros db0 sched db' p'. apply pass_stores_batch.
    + unfold fetchAndStoreEvents. rewrite Hf.
      unfold fetchWithRetries, default_retries. simpl.
      destruct (ICAL_parse data) as [e|vevents]; simpl; [reflexivity|].
      destruct (normalize prefix vevents); reflexivity.
  - intros Hall.
    destruct (Hall 1%nat) as [m1 H1], (Hall 2%nat) as [m2 H2],
             (Hall 3%nat) as [m3 H3].
    set (tr := [HttpGet url 1; AttemptFailed 1 m1; Sleep 10000;
                HttpGet url 2; AttemptFailed 2 m2; Sleep 10000;
                HttpGet url 3; AttemptFailed 3 m3]).
    assert (Hf : fetchWithRetries upstream url default_retries default_delay
                 = (Thrown (FetchFailed url 3), tr)).
    { unfold fetchWithRetries, default_retries. simpl.
      rewrite H1. simpl. rewrite H2. simpl. rewrite H3. reflexivity. }
    assert (Hp : fetchAndStoreEvents ICAL_parse upstream url prefix
                 = (None, tr ++ [ErrorFetchingAndStoring (FetchFailed url 3)])).
    { unfold fetchAndStoreEvents. rewrite Hf. reflexivity. }
    exists tr. repeat split; auto.
    + apply aborted_ingest_changes_console_only. exact Hp.
    + intros sched. eapply aborted_ingest_unnoticed. exact Hp.
Qed.

End FetchResilience.

(** ** Reconciler: duplicate records *)

(** C1. The reconciler does not keep one record per identity key.
    [forEach] issues every lookup of a batch before any callback can queue
    an INSERT, so two events of one feed with the same title, start and end
    are both looked up in a table that holds neither, and both are inserted:
    from the empty table, the pass ends with two records of the one key, and
    a second pass over the same batch finds the key stored, inserts nothing
    and leaves the two records. The same happens to a feed with a single
    event when two calls of [fetchAndStoreEvents] overlap: both look the
    event up before either inserts it. *)
Theorem duplicate_records_after_reconciliation :
  let batch := [Sample.pilot_event; Sample.pilot_event] in
  let k := event_key Sample.pilot_event in
  (normalize "Sonarr" [Sample.pilot; Sample.pilot] = inr batch /\
   exists db1 p1 db2 p2,
     run_pass [SelectRuns 0 false; SelectRuns 0 false;
               CallbackRuns 0; CallbackRuns 0;
               InsertStmtRuns; InsertStmtRuns; InsertStmtRuns; UpdateStmtRuns]
              empty_storage (begin_pass batch) = Some (db1, p1) /\
     pass_done p1 /\
     records_of db1 k = [Sample.pilot_row 1; Sample.pilot_row 2] /\
     run_pass [SelectRuns 0 false; SelectRuns 0 false;
               CallbackRuns 0; CallbackRuns 0;
               UpdateStmtRuns; UpdateStmtRuns; UpdateStmtRuns; InsertStmtRuns]
              db1 (begin_pass batch) = Some (db2, p2) /\
     pass_done p2 /\
     records_of db2 k = [Sample.pilot_row 1; Sample.pilot_row 2]) /\
  (exists s,
     run Sample.parse
         [Ingest "http://sonarr/feed.ics" "Sonarr" (Sample.up "pilot");
          Ingest "http://sonarr/feed.ics" "Sonarr" (Sample.up "pilot");
          PassStep 0 (SelectRuns 0 false); PassStep 1 (SelectRuns 0 false);
          PassStep 0 (CallbackRuns 0); PassStep 1 (CallbackRuns 0);
          PassStep 0 InsertStmtRuns; PassStep 1 InsertStmtRuns;
          PassStep 0 InsertStmtRuns; PassStep 1 InsertStmtRuns;
          PassStep 0 UpdateStmtRuns; PassStep 1 UpdateStmtRuns]
         (initial empty_storage) = Some s /\
     Forall pass_done (passes s) /\
     records_of (db s) k = [Sample.pilot_row 1; Sample.pilot_row 2]).
Proof.
  cbv zeta. split; [split; [reflexivity|]|].
  - eexists _, _, _, _.
    split; [vm_compute; reflexivity|]. split; [repeat split|].
    split; [vm_compute; reflexivity|].
    split; [vm_compute; reflexivity|]. split; [repeat split|].
    vm_compute; reflexivity.
  - eexists. split; [vm_compute; reflexivity|]. split.
    + repeat constructor.
    + vm_compute; reflexivity.
Qed.

(** ** The claims at concrete inputs *)

(** C3, as stated, fails at three requests that have both bounds and no
    cache entry while the table holds a row in the range. The request
    [/events.json?start=&end=2024-01-01T23:59], whose first bound is present
    and empty, is answered with the status 400; a request whose scan the
    engine fails is answered with the status 500; and a request that gives
    [start=2024-01-01T10:00:00] twice before [end=2024-01-01T23:59],
    whose start the parser gives as an array of the two strings, passes the
    guard and is answered with no row, although the stored row starts at
    the start that was given: the array is compared as the text the driver
    binds for it, be that the text of the array, the text of an object, or
    nothing. None of the replies is the row. *)
Lemma range_query_not_for_every_query :
  (let q := mkQuery (Some (Str "")) (Some (Str "2024-01-01T23:59")) in
   let s := initial (mkStorage [Sample.pilot_row 1] 1) in
   q_start q = Some (Str "") /\ q_end q = Some (Str "2024-01-01T23:59") /\
   cache s !! cacheKey "" "2024-01-01T23:59" = None /\
   Db.all_in_range (db s) "" "2024-01-01T23:59" = [Sample.pilot_row 1] /\
   exists s',
     serve Sample.parse q false s = Some s' /\
     replies s' = [Status400 "Start and end query parameters are required"] /\
     replies s' <>
       replies s ++ [Json (Db.all_in_range (db s) "" "2024-01-01T23:59")]) /\
  (let q := Sample.day in
   let s := initial (mkStorage [Sample.pilot_row 1] 1) in
   q_start q = Some (Str "2024-01-01T00:00") /\
   q_end q = Some (Str "2024-01-01T23:59") /\
   cache s !! cacheKey "2024-01-01T00:00" "2024-01-01T23:59" = None /\
   Db.all_in_range (db s) "2024-01-01T00:00" "2024-01-01T23:59"
     = [Sample.pilot_row 1] /\
   exists s',
     serve Sample.parse q true s = Some s' /\
     replies s' = [Status500 "Failed to fetch events"] /\
     replies s' <>
       replies s ++ [Json (Db.all_in_range (db s) "2024-01-01T00:00"
                                           "2024-01-01T23:59")]) /\
  (let s := initial (mkStorage [Sample.pilot_row 1] 1) in
   let text := "2024-01-01T10:00:00,2024-01-01T10:00:00" in
   cache s !! cacheKey text "2024-01-01T23:59" = None /\
   Db.all_in_range (db s) "2024-01-01T10:00:00" "2024-01-01T23:59"
     = [Sample.pilot_row 1] /\
   forall bound,
     bound ∈ [Some text; Some "[object Object]"; None] ->
     exists s',
       serve Sample.parse
             (mkQuery (Some (Structured (Some text) bound))
                      (Some (Str "2024-01-01T23:59")))
             false s = Some s' /\
       replies s' = [Json []] /\
       replies s' <>
         replies s ++ [Json (Db.all_in_range (db s) "2024-01-01T10:00:00"
                                             "2024-01-01T23:59")]).
Proof.
  cbv zeta. split; [|split].
  - split; [reflexivity|]. split; [reflexivity|].
    split; [apply lookup_empty|]. split; [reflexivity|].
    eexists. split; [reflexivity|]. split; [reflexivity|]. discriminate.
  - split; [reflexivity|]. split; [reflexivity|].
    split; [apply lookup_empty|]. split; [reflexivity|].
    eexists. split; [vm_compute; reflexivity|]. split; [reflexivity|].
    discriminate.
  - split; [apply lookup_empty|]. split; [reflexivity|].
    intros bound Hb. rewrite !elem_of_cons in Hb.
    destruct Hb as [->|[->|[->|Hb]]]; [| | |by apply elem_of_nil in Hb];
      (eexists; split; [vm_compute; reflexivity|]; split; [reflexivity|];
       discriminate).
Qed.

Lemma normalize_fields_witness :
  exists evs,
    normalize "Sonarr" [Sample.pilot_confirmed; Sample.second] = inr evs /\
    (title <$> evs) =
      ["[Sonarr] Show - 1x01 - Pilot"; "[Sonarr] Show - 1x02 - Second"] /\
    (color <$> evs) = ["green"; "red"] /\
    (description <$> evs) = ["First episode"; ""] /\
    (location <$> evs) = [""; "Channel 4"].
Proof.
  assert (Hd : Forall has_dates [Sample.pilot_confirmed; Sample.second]).
  { repeat constructor; simpl; eauto. }
  destruct (normalize_fields "Sonarr" [Sample.pilot_confirmed; Sample.second] Hd)
    as (evs & H & _).
  exists evs. split; [exact H|].
  vm_compute in H. injection H as <-. repeat split.
Defined.

(** Sonarr fails twice and answers the third time with the pilot: the pass
    over the pilot is started, and run in program order it stores the
    pilot. And, at startup, Sonarr is down while Radarr is up: the pass
    over the Radarr feed is started as if Sonarr had not been asked. *)
Lemma fetch_resilience_witness :
  (fetchWithRetries (Sample.third_time "pilot") "http://sonarr/feed.ics" 3 10000
     = (Returned "pilot",
        [HttpGet "http://sonarr/feed.ics" 1; AttemptFailed 1 "ECONNREFUSED";
         Sleep 10000;
         HttpGet "http://sonarr/feed.ics" 2; AttemptFailed 2 "ECONNREFUSED";
         Sleep 10000;
         HttpGet "http://sonarr/feed.ics" 3]) /\
   fetchAndStoreEvents Sample.parse (Sample.third_time "pilot")
                       "http://sonarr/feed.ics" "Sonarr"
     = (Some (begin_pass [Sample.pilot_event]),
        [HttpGet "http://sonarr/feed.ics" 1; AttemptFailed 1 "ECONNREFUSED";
         Sleep 10000;
         HttpGet "http://sonarr/feed.ics" 2; AttemptFailed 2 "ECONNREFUSED";
         Sleep 10000;
         HttpGet "http://sonarr/feed.ics" 3]) /\
   exists db' p',
     run_pass [SelectRuns 0 false; CallbackRuns 0; InsertStmtRuns;
               InsertStmtRuns; UpdateStmtRuns]
              empty_storage (begin_pass [Sample.pilot_event])
       = Some (db', p') /\
     pass_done p' /\
     event_key Sample.pilot_event ∈ (row_key <$> rows db')) /\
  exists tr,
    fetchWithRetries Sample.down "http://sonarr/feed.ics" 3 10000
      = (Thrown (FetchFailed "http://sonarr/feed.ics" 3), tr) /\
    attempts tr = 3%nat /\ sleeps tr = [10000; 10000] /\
    step Sample.parse (Ingest "http://sonarr/feed.ics" "Sonarr" Sample.down)
         (initial empty_storage)
      = Some (mkSystem empty_storage ∅ 0 [] [] [] []
                (tr ++ [ErrorFetchingAndStoring
                          (FetchFailed "http://sonarr/feed.ics" 3)])) /\
    forget_console <$>
      run Sample.parse
          (ingest_both "http://sonarr/feed.ics" "http://radarr/feed.ics"
                       Sample.down (Sample.up "pilot"))
          (initial empty_storage)
    = forget_console <$>
      run Sample.parse
          [Ingest "http://radarr/feed.ics" "Radarr" (Sample.up "pilot")]
          (initial empty_storage).
Proof.
  split.
  - destruct (proj1 (proj2 (fetch_resilience Sample.parse
                              (Sample.third_time "pilot")
                              "http://sonarr/feed.ics" "Sonarr"))
                "ECONNREFUSED" "ECONNREFUSED" "pilot" eq_refl eq_refl eq_refl)
      as (Hfetch & Hpass & _).
    split; [exact Hfetch|].
    destruct (Hpass [Sample.pilot] [Sample.pilot_event] eq_refl eq_refl)
      as (Hstart & _ & _ & Hstored).
    split; [exact Hstart|].
    assert (Hrun : exists db' p',
              run_pass [SelectRuns 0 false; CallbackRuns 0; InsertStmtRuns;
                        InsertStmtRuns; UpdateStmtRuns]
                       empty_storage (begin_pass [Sample.pilot_event])
                = Some (db', p') /\ pass_done p').
    { eexists. eexists. split; [vm_compute; reflexivity|]. repeat split. }
    destruct Hrun as (db' & p' & Hrun & Hdone).
    exists db', p'. split; [exact Hrun|]. split; [exact Hdone|].
    eapply (Hstored empty_storage); [|exact Hrun|exact Hdone|by left].
    repeat constructor.
  - destruct (proj2 (proj2 (fetch_resilience Sample.parse Sample.down
                              "http://sonarr/feed.ics" "Sonarr"))
                (fun n => ex_intro _ "ECONNREFUSED" eq_refl))
      as (tr & H1 & H2 & H3 & _ & H5).
    exists tr. split; [exact H1|]. split; [exact H2|]. split; [exact H3|].
    destruct (H5 (initial empty_storage)) as [H6 H7].
    split; [exact H6|]. apply H7.
Defined.

Lemma missing_parameter_rejected_witness :
  step Sample.parse (Request (mkQuery None (Some (Str "2024-01-01T23:59"))))
       (initial (mkStorage [Sample.pilot_row 1] 1))
  = Some (mkSystem (mkStorage [Sample.pilot_row 1] 1) ∅ 0 [] [] []
            [Status400 "Start and end query parameters are required"] []).
Proof.
  exact (proj2 (missing_parameter_rejected Sample.parse
                  (mkQuery None (Some (Str "2024-01-01T23:59")))
                  (initial (mkStorage [Sample.pilot_row 1] 1))
                  (or_introl eq_refl))).
Defined.

Lemma range_query_witness :
  (exists s',
     serve Sample.parse Sample.day false
           (initial (mkStorage [Sample.pilot_row 1] 1)) = Some s' /\
     replies s' = [Json [Sample.pilot_row 1]]) /\
  (exists s',
     serve Sample.parse Sample.day true
           (initial (mkStorage [Sample.pilot_row 1] 1)) = Some s' /\
     replies s' = [Status500 "Failed to fetch events"]).
Proof.
  assert (H1 : "2024-01-01T00:00" <> "") by discriminate.
  assert (H2 : "2024-01-01T23:59" <> "") by discriminate.
  destruct (range_query Sample.parse Sample.day
              (initial (mkStorage [Sample.pilot_row 1] 1))
              "2024-01-01T00:00" "2024-01-01T23:59"
              eq_refl eq_refl H1 H2 eq_refl)
    as ((s' & Hs & Hr & _) & (s2 & Hs2 & Hr2 & _) & _).
  split; [exists s'; split; [exact Hs|exact Hr]|].
  exists s2. split; [exact Hs2|exact Hr2].
Defined.


(** The pilot is stored; it comes back confirmed together with a second
    episode, a request is served and time passes: the pilot is still the
    first row of the table. *)
Lemma no_deletion_witness :
  exists s' r',
    run Sample.parse
        [Ingest "http://sonarr/feed.ics" "Sonarr" (Sample.up "pilot and second");
         PassStep 0 (SelectRuns 1 false); PassStep 0 (SelectRuns 0 false);
         PassStep 0 (CallbackRuns 0); PassStep 0 (CallbackRuns 0);
         PassStep 0 UpdateStmtRuns; PassStep 0 InsertStmtRuns;
         Request Sample.day; ScanRuns 0 false; ScanCallback 0;
         Tick 700000; CacheCheck]
        (initial (mkStorage [Sample.pilot_row 1] 1)) = Some s' /\
    length (rows (db s')) = 2%nat /\
    rows (db s') !! 0%nat = Some r' /\
    row_id r' = 1 /\ row_title r' = "[Sonarr] Show - 1x01 - Pilot".
Proof.
  set (s0 := initial (mkStorage [Sample.pilot_row 1] 1)).
  match goal with |- context [run Sample.parse ?l s0] => set (sched := l) end.
  destruct (run Sample.parse sched s0) as [s'|] eqn:E;
    [|vm_compute in E; discriminate].
  destruct (proj2 (no_deletion Sample.parse sched s0 s' E) 0%nat
              (Sample.pilot_row 1) eq_refl)
    as (r' & Hr' & Hid & Ht & _).
  exists s', r'. split; [reflexivity|]. split.
  - vm_compute in E. injection E as <-. reflexivity.
  - split; [exact Hr'|]. split; [exact Hid|exact Ht].
Defined.

Lemma matched_record_color_only_witness :
  exists p',
    run_pass [SelectRuns 0 false; CallbackRuns 0; UpdateStmtRuns;
              UpdateStmtRuns; InsertStmtRuns]
             (mkStorage [Sample.pilot_row 1] 1)
             (begin_pass
                [mkEvent "[Sonarr] Show - 1x01 - Pilot" "2024-01-01T10:00:00"
                         "2024-01-01T11:00:00" "green" "First episode" ""])
    = Some (Db.update_color (mkStorage [Sample.pilot_row 1] 1) "green"
                            (event_key Sample.pilot_event), p') /\
    pass_done p' /\
    Db.update_color (mkStorage [Sample.pilot_row 1] 1) "green"
                    (event_key Sample.pilot_event)
    = mkStorage
        [mkRow 1 "[Sonarr] Show - 1x01 - Pilot" "2024-01-01T10:00:00"
               "2024-01-01T11:00:00" "green" "First episode" ""] 1.
Proof.
  assert (Hin : event_key Sample.pilot_event
                ∈ (row_key <$> rows (mkStorage [Sample.pilot_row 1] 1))).
  { simpl. apply list_elem_of_singleton. reflexivity. }
  destruct (proj2 (proj2 (matched_record_color_only Sample.pilot_event
                            (Sample.pilot_row 1) (begin_pass [])
                            (mkStorage [Sample.pilot_row 1] 1)))
              "Sonarr" Sample.pilot Sample.pilot_event
              (mkEvent "[Sonarr] Show - 1x01 - Pilot" "2024-01-01T10:00:00"
                       "2024-01-01T11:00:00" "green" "First episode" "")
              eq_refl eq_refl Hin)
    as (_ & _ & _ & (p' & Hrun & Hdone) & _).
  exists p'. split; [exact Hrun|]. split; [exact Hdone|reflexivity].
Defined.

Lemma empty_batch_pass_witness :
  fetchAndStoreEvents Sample.parse (Sample.up "no events")
                      "http://radarr/feed.ics" "Radarr"
    = (Some (mkPass [] [] (mkStatement [Finalize] false)
                          (mkStatement [Finalize] false) 0),
       [HttpGet "http://radarr/feed.ics" 1]) /\
  exists p',
    run_pass [InsertStmtRuns; UpdateStmtRuns]
             (mkStorage [Sample.pilot_row 1] 1) (begin_pass [])
      = Some (mkStorage [Sample.pilot_row 1] 1, p') /\
    pass_done p' /\
    finalized (stmtInsert p') = true /\ finalized (stmtUpdate p') = true.
Proof.
  destruct (empty_batch_pass Sample.parse (Sample.up "no events")
              "http://radarr/feed.ics" "Radarr" "no events"
              [HttpGet "http://radarr/feed.ics" 1] eq_refl eq_refl)
    as (H1 & _ & H3 & _).
  split; [exact H1|]. exact (H3 (mkStorage [Sample.pilot_row 1] 1)).
Defined.

Lemma malformed_document_aborts_witness :
  fetchAndStoreEvents Sample.parse (Sample.up "<html>502 Bad Gateway</html>")
                      "http://radarr/feed.ics" "Radarr"
    = (None,
       [HttpGet "http://radarr/feed.ics" 1;
        ErrorFetchingAndStoring (ParserError "invalid ical body")]) /\
  fetchAndStoreEvents Sample.parse (Sample.up "pilot and undated")
                      "http://sonarr/feed.ics" "Sonarr"
    = (None,
       [HttpGet "http://sonarr/feed.ics" 1;
        ErrorFetchingAndStoring
          (TypeError "Cannot read properties of null (reading 'toString')")]).
Proof.
  split.
  - exact (proj1 (malformed_document_aborts Sample.parse
                    (Sample.up "<html>502 Bad Gateway</html>")
                    "http://radarr/feed.ics" "Radarr"
                    "<html>502 Bad Gateway</html>"
                    [HttpGet "http://radarr/feed.ics" 1]
                    (ParserError "invalid ical body")
                    eq_refl (or_introl eq_refl))).
  - exact (proj1 (malformed_document_aborts Sample.parse
                    (Sample.up "pilot and undated")
                    "http://sonarr/feed.ics" "Sonarr" "pilot and undated"
                    [HttpGet "http://sonarr/feed.ics" 1]
                    (TypeError "Cannot read properties of null (reading 'toString')")
                    eq_refl
                    (or_intror (ex_intro _ [Sample.pilot; Sample.undated]
                                  (conj eq_refl eq_refl))))).
Defined.

(** * Further properties *)

(** ** Fetcher: any bound and any delay *)

Lemma observe_failed_attempt url n m d tr :
  requested (HttpGet url n :: AttemptFailed n m :: Sleep d :: tr)
    = n :: requested tr /\
  attempts (HttpGet url n :: AttemptFailed n m :: Sleep d :: tr)
    = S (attempts tr) /\
  sleeps (HttpGet url n :: AttemptFailed n m :: Sleep d :: tr)
    = d :: sleeps tr.
Proof. repeat split. Qed.

Lemma fetch_loop_first_success upstream url retries delay :
  forall j remaining attempt data,
    (forall i, (i < j)%nat -> exists m, upstream (attempt + i)%nat = Rejected m) ->
    upstream (attempt + j)%nat = Resolved data ->
    (attempt + j <= retries)%nat -> (j < remaining)%nat ->
    exists tr,
      fetch_loop upstream url retries delay remaining attempt = (Returned data, tr) /\
      requested tr = seq attempt (S j) /\
      attempts tr = S j /\
      sleeps tr = replicate j delay.
Proof.
  induction j as [|j IH]; intros remaining attempt data Hrej Hok Hle Hrem.
  - destruct remaining as [|n]; [lia|]. simpl.
    rewrite Nat.add_0_r in Hok. rewrite Hok.
    eexists. split; [reflexivity|]. repeat split.
  - destruct remaining as [|n]; [lia|]. simpl.
    destruct (Hrej 0%nat ltac:(lia)) as [m Hm]. rewrite Nat.add_0_r in Hm.
    rewrite Hm.
    assert (Hlt : (attempt <? retries)%nat = true) by (apply Nat.ltb_lt; lia).
    rewrite Hlt.
    destruct (IH n (S attempt) data) as (tr & Htr & Hreq & Hatt & Hsl).
    + intros i Hi. destruct (Hrej (S i) ltac:(lia)) as [m' Hm'].
      exists m'. rewrite <- Hm'. f_equal. lia.
    + rewrite <- Hok. f_equal. lia.
    + lia.
    + lia.
    + rewrite Htr. eexists. split; [reflexivity|].
      destruct (observe_failed_attempt url attempt m delay tr) as (-> & -> & ->).
      rewrite Hreq, Hatt, Hsl. repeat split.
Qed.

Lemma fetch_loop_exhausted upstream url retries delay :
  forall remaining attempt,
    (forall i, (i < remaining)%nat ->
       exists m, upstream (attempt + i)%nat = Rejected m) ->
    (attempt + remaining = S retries)%nat -> (0 < remaining)%nat ->
    exists tr,
      fetch_loop upstream url retries delay remaining attempt
        = (Thrown (FetchFailed url retries), tr) /\
      requested tr = seq attempt remaining /\
      attempts tr = remaining /\
      sleeps tr = replicate (remaining - 1) delay.
Proof.
  induction remaining as [|n IH]; intros attempt Hrej Hsum Hpos; [lia|].
  simpl. destruct (Hrej 0%nat ltac:(lia)) as [m Hm].
  rewrite Nat.add_0_r in Hm. rewrite Hm.
  destruct n as [|n].
  - assert (Hlt : (attempt <? retries)%nat = false) by (apply Nat.ltb_ge; lia).
    rewrite Hlt. eexists. split; [reflexivity|]. repeat split.
  - assert (Hlt : (attempt <? retries)%nat = true) by (apply Nat.ltb_lt; lia).
    rewrite Hlt.
    destruct (IH (S attempt)) as (tr & Htr & Hreq & Hatt & Hsl).
    + intros i Hi. destruct (Hrej (S i) ltac:(lia)) as [m' Hm'].
      exists m'. rewrite <- Hm'. f_equal. lia.
    + lia.
    + lia.
    + rewrite Htr. eexists. split; [reflexivity|].
      destruct (observe_failed_attempt url attempt m delay tr) as (-> & -> & ->).
      rewrite Hreq, Hatt, Hsl. simpl. rewrite Nat.sub_0_r. repeat split.
Qed.

(** X1. Whatever the bound and the delay, the fetcher returns the first
    response that succeeds: when attempts 1 to k-1 fail and attempt k, within
    the bound, succeeds, it returns that response after exactly k
    retrievals, numbered 1 to k, and k-1 delays. *)
Theorem fetch_first_success (upstream : nat -> Outcome) (url : string)
    (retries : nat) (delay : Z) (k : nat) (data : string) :
  (1 <= k <= retries)%nat ->
  (forall i, (1 <= i < k)%nat -> exists m, upstream i = Rejected m) ->
  upstream k = Resolved data ->
  exists tr,
    fetchWithRetries upstream url retries delay = (Returned data, tr) /\
    requested tr = seq 1 k /\
    attempts tr = k /\
    sleeps tr = replicate (k - 1) delay.
Proof.
  intros Hk Hrej Hok. unfold fetchWithRetries.
  destruct k as [|j]; [lia|].
  destruct (fetch_loop_first_success upstream url retries delay j retries 1 data)
    as (tr & Htr & Hreq & Hatt & Hsl).
  - intros i Hi. apply Hrej. lia.
  - exact Hok.
  - lia.
  - lia.
  - exists tr. simpl. rewrite Nat.sub_0_r. auto.
Qed.

(** X2. When every attempt up to the bound fails, the fetcher throws the
    error that names the url and the bound, after as many retrievals as the
    bound allows and one delay less: it does not sleep after the last
    attempt. *)
Theorem fetch_exhausted (upstream : nat -> Outcome) (url : string)
    (retries : nat) (delay : Z) :
  (1 <= retries)%nat ->
  (forall i, (1 <= i <= retries)%nat -> exists m, upstream i = Rejected m) ->
  exists tr,
    fetchWithRetries upstream url retries delay
      = (Thrown (FetchFailed url retries), tr) /\
    requested tr = seq 1 retries /\
    attempts tr = retries /\
    sleeps tr = replicate (retries - 1) delay.
Proof.
  intros Hpos Hrej. unfold fetchWithRetries.
  apply fetch_loop_exhausted; [|lia|lia].
  intros i Hi. apply Hrej. lia.
Qed.

Lemma fetch_loop_defined upstream url retries delay :
  forall remaining attempt,
    (attempt + remaining = S retries)%nat -> (0 < remaining)%nat ->
    fst (fetch_loop upstream url retries delay remaining attempt)
      <> ReturnedUndefined.
Proof.
  induction remaining as [|n IH]; intros attempt Hsum Hpos; [lia|].
  simpl. destruct (upstream attempt) as [m|d]; [|discriminate].
  destruct (attempt <? retries)%nat eqn:Hlt; [|discriminate].
  apply Nat.ltb_lt in Hlt.
  specialize (IH (S attempt) ltac:(lia) ltac:(lia)).
  destruct (fetch_loop upstream url retries delay n (S attempt)) as [r tr].
  exact IH.
Qed.

(** X3. The fetcher falls out of its loop, returning [undefined], exactly
    when the bound is 0, and then it has not asked the upstream at all; with
    any other bound it asks at least once and at most as often as the bound
    says. *)
Theorem fetch_undefined_iff_no_attempt (upstream : nat -> Outcome)
    (url : string) (retries : nat) (delay : Z) :
  (fst (fetchWithRetries upstream url retries delay) = ReturnedUndefined
   <-> retries = 0%nat) /\
  (retries = 0%nat ->
   fetchWithRetries upstream url retries delay = (ReturnedUndefined, [])) /\
  ((1 <= retries)%nat ->
   (1 <= attempts (snd (fetchWithRetries upstream url retries delay))
      <= retries)%nat).
Proof.
  split; [|split].
  - split.
    + intros H. destruct retries as [|n]; [reflexivity|]. exfalso.
      revert H. apply fetch_loop_defined; lia.
    + intros ->. reflexivity.
  - intros ->. reflexivity.
  - intros Hpos. split.
    + unfold fetchWithRetries. destruct retries as [|n]; [lia|]. simpl.
      destruct (upstream 1%nat); [|unfold attempts; simpl; lia].
      destruct (1 <? S n)%nat; [|unfold attempts; simpl; lia].
      destruct (fetch_loop upstream url (S n) delay n 2) as [r tr].
      unfold attempts. simpl. lia.
    + apply fetch_loop_attempts.
Qed.

(** ** Normalizer: the two sources, and feeds with a component without a start *)

(** X4. The two sources never share an identity key: an event of the Sonarr
    feed and an event of the Radarr feed differ in their titles, so a lookup
    for the one never finds a row of the other, and the UPDATE queued for
    the one leaves every row of the other as it is. *)
Theorem sources_never_share_a_key (v v' : VEvent) (ev ev' : Event) :
  normalize_one "Sonarr" v = inr ev ->
  normalize_one "Radarr" v' = inr ev' ->
  event_key ev <> event_key ev' /\
  forall db,
    (forall r, Db.get db (event_key ev') = Some r -> row_key r <> event_key ev) /\
    (forall r, Db.get db (event_key ev) = Some r -> row_key r <> event_key ev') /\
    (forall i r, rows db !! i = Some r -> row_key r = event_key ev ->
       rows (exec_update db (update_args ev')) !! i = Some r) /\
    (forall i r, rows db !! i = Some r -> row_key r = event_key ev' ->
       rows (exec_update db (update_args ev)) !! i = Some r).
Proof.
  intros Hs Hr.
  apply normalize_one_inv in Hs as (s & e & _ & _ & ->).
  apply normalize_one_inv in Hr as (s' & e' & _ & _ & ->).
  assert (Hkey : event_key
            (mkEvent ("[" +:+ "Sonarr" +:+ "] " +:+ js_string (summary v)) s e
               (if decide (status v = Some "CONFIRMED") then "green" else "red")
               (or_empty (vdescription v)) (or_empty (vlocation v)))
          <> event_key
            (mkEvent ("[" +:+ "Radarr" +:+ "] " +:+ js_string (summary v')) s' e'
               (if decide (status v' = Some "CONFIRMED") then "green" else "red")
               (or_empty (vdescription v')) (or_empty (vlocation v')))).
  { unfold event_key. simpl. intros [=]. }
  split; [exact Hkey|]. intros db.
  split; [|split; [|split]].
  - intros r Hget Heq. apply get_Some in Hget as [_ Hk]. congruence.
  - intros r Hget Heq. apply get_Some in Hget as [_ Hk]. congruence.
  - intros i r Hi Hk. unfold exec_update.
    rewrite (update_color_lookup db _ _ i r Hi).
    rewrite decide_False; [reflexivity|]. simpl. congruence.
  - intros i r Hi Hk. unfold exec_update.
    rewrite (update_color_lookup db _ _ i r Hi).
    rewrite decide_False; [reflexivity|]. simpl. congruence.
Qed.

Lemma normalize_undated prefix vs :
  Exists (fun v => ~ has_dates v) vs ->
  normalize prefix vs
    = inl (TypeError "Cannot read properties of null (reading 'toString')").
Proof.
  induction vs as [|v vs IH]; intros Hex; [by apply Exists_nil in Hex|].
  simpl. unfold normalize_one.
  destruct (startDate v) as [s|] eqn:Hs; [|reflexivity].
  destruct (endDate v) as [e|] eqn:He; [|reflexivity].
  apply Exists_cons in Hex as [Hv|Hex].
  - exfalso. apply Hv. split; [rewrite Hs|rewrite He]; eauto.
  - rewrite (IH Hex). reflexivity.
Qed.

Section ComponentWithoutStart.

Variable ICAL_parse : string -> Exn + list VEvent.

(** X5. One event component without a start date (no DTSTART, so that
    [event.startDate] is null) makes the whole feed fail, wherever it
    stands among the components and however many events with a start the
    feed carries besides: reading [toString] of the absent start throws,
    the catch prints the error, no event of the feed is looked up and no
    pass is started. A missing DTEND does no such thing where the getter
    [event.endDate] yields a date all the same: given that it does so for
    every component that has a start, a feed is normalized exactly when
    every component has a start, and then to one event per component. *)
Theorem component_without_start_discards_feed (prefix : string)
    (vs : list VEvent) :
  (Exists (fun v => startDate v = None) vs ->
   normalize prefix vs
     = inl (TypeError "Cannot read properties of null (reading 'toString')") /\
   forall upstream url data tr,
     fetchWithRetries upstream url default_retries default_delay
       = (Returned data, tr) ->
     ICAL_parse data = inr vs ->
     fetchAndStoreEvents ICAL_parse upstream url prefix
       = (None,
          tr ++ [ErrorFetchingAndStoring
                   (TypeError
                      "Cannot read properties of null (reading 'toString')")])) /\
  (Forall (fun v => is_Some (startDate v) -> is_Some (endDate v)) vs ->
   ((exists evs, normalize prefix vs = inr evs)
    <-> Forall (fun v => is_Some (startDate v)) vs)) /\
  (forall evs, normalize prefix vs = inr evs -> length evs = length vs).
Proof.
  split; [|split].
  - intros Hex.
    assert (Hun : Exists (fun v => ~ has_dates v) vs).
    { eapply Exists_impl; [exact Hex|]. simpl. intros v Hv [[x Hx] _].
      rewrite Hv in Hx. discriminate. }
    split; [by apply normalize_undated|].
    intros upstream url data tr Hf Hp. unfold fetchAndStoreEvents.
    rewrite Hf, Hp, (normalize_undated prefix vs Hun). reflexivity.
  - intros Hend. split.
    + intros [evs H]. apply normalize_Forall2 in H.
      induction H as [|v ev vs' evs' Hone _ IH]; constructor.
      * apply normalize_one_inv in Hone as (x & e & Hx & _). rewrite Hx. eauto.
      * apply IH. by apply Forall_cons in Hend as [_ Hend].
    + intros Hstart. apply normalize_total.
      apply Forall_forall. intros v Hv. rewrite Forall_forall in Hend, Hstart.
      split; [by apply Hstart|]. apply Hend; [exact Hv|by apply Hstart].
  - intros evs H. apply normalize_Forall2 in H. symmetry.
    eapply Forall2_length; eauto.
Qed.

End ComponentWithoutStart.

(** ** Reconciler: the bookkeeping of a pass *)

(** X6. The bookkeeping of a pass holds at every moment, for every batch
    and table, in whatever order the driver works and whether or not
    lookups fail: [pendingOperations] is the number of lookups whose
    callback has not run; no [run] ever waits on a finalized statement, so
    that no write is rejected; [finalize] is called once on each statement,
    after the last callback, and nothing is queued behind it; and when the
    pass is over both statements are finalized. *)
Theorem pass_bookkeeping (evs : list Event) (sched : list PassAction)
    (db db' : Storage) (p' : Pass) :
  run_pass sched db (begin_pass evs) = Some (db', p') ->
  pendingOperations p' = Z.of_nat (length (issued p') + length (resolved p')) /\
  (forall e q, queue (stmtInsert p') = Run e :: q ->
     finalized (stmtInsert p') = false) /\
  (forall a q, queue (stmtUpdate p') = Run a :: q ->
     finalized (stmtUpdate p') = false) /\
  (forall q, queue (stmtInsert p') = Finalize :: q ->
     finalized (stmtInsert p') = false /\ q = []) /\
  (forall q, queue (stmtUpdate p') = Finalize :: q ->
     finalized (stmtUpdate p') = false /\ q = []) /\
  (finalized (stmtInsert p') = true \/ finalized (stmtUpdate p') = true ->
     issued p' = [] /\ resolved p' = []) /\
  (pass_done p' ->
     finalized (stmtInsert p') = true /\ finalized (stmtUpdate p') = true).
Proof.
  intros Hrun.
  destruct (lifecycle_run _ _ _ _ _ (lifecycle_begin evs) Hrun) as [[Hc HI HU] _].
  destruct (stmt_in_order_facts _ _ HI) as (I1 & I2 & I3 & I4).
  destruct (stmt_in_order_facts _ _ HU) as (U1 & U2 & U3 & U4).
  split; [exact Hc|]. split; [exact I1|]. split; [exact U1|].
  split; [exact I2|]. split; [exact U2|]. split.
  - intros [H|H]; auto.
  - intros (Hi & Hr & HqI & HqU). split; [apply I4|apply U4]; auto.
Qed.

(** X7. Every pass comes to its end: for a batch of n events the driver can
    do at most 3n+2 pieces of work for it, in whatever order and whether or
    not lookups fail (each piece of work uses up some of the work that is
    left), a pass that is not over can always do a next piece of work, and
    no work is left exactly when the pass is over. *)
Theorem pass_terminates (evs : list Event) (sched : list PassAction)
    (db db' : Storage) (p' : Pass) :
  run_pass sched db (begin_pass evs) = Some (db', p') ->
  (length sched + work_left p' <= 3 * length evs + 2)%nat /\
  (work_left p' = 0%nat <-> pass_done p') /\
  (~ pass_done p' ->
   exists a, error_free a /\ is_Some (pass_step a db' p')).
Proof.
  intros Hrun.
  destruct (lifecycle_run _ _ _ _ _ (lifecycle_begin evs) Hrun) as [_ Hle].
  split; [|split; [apply work_left_done|apply pass_can_step]].
  assert (work_left (begin_pass evs) <= 3 * length evs + 2)%nat; [|lia].
  unfold begin_pass, finalize_if_done, work_left. simpl.
  destruct (decide (Z.of_nat (length evs) = 0)) as [E|E]; simpl.
  - destruct evs; [simpl; lia|simpl in E; lia].
  - destruct (decide (evs = [] /\ [] = [])); lia.
Qed.

Lemma insert_bound_step a db p db' p' log :
  pass_step a db p = Some (db', p', log) ->
  (length (rows db') + length (runs (queue (stmtInsert p')))
   + length (issued p') + length (resolved p')
   <= length (rows db) + length (runs (queue (stmtInsert p)))
      + length (issued p) + length (resolved p))%nat.
Proof.
  destruct p as [iss res sI sU pend].
  destruct a as [i err|i| |]; simpl.
  - destruct (iss !! i) as [e|] eqn:Hi; [|discriminate].
    intros [= <- <- <-]. simpl. rewrite length_app, length_delete by eauto.
    assert (0 < length iss)%nat by (destruct iss; [done|simpl; lia]).
    simpl. lia.
  - destruct (res !! i) as [[e r]|] eqn:Hi; [|discriminate].
    assert (Hl : length (delete i res) = (length res - 1)%nat)
      by (apply length_delete; eauto).
    assert (0 < length res)%nat by (destruct res; [done|simpl; lia]).
    unfold get_callback, finalize_if_done.
    destruct r as [|[row|]]; simpl;
      destruct (decide (pend - 1 = 0)); intros [= <- <- <-]; simpl;
      unfold call; simpl; rewrite ?runs_app, ?length_app; simpl; lia.
  - unfold stmt_step. destruct (queue sI) as [|[e|] q]; [discriminate| |];
      intros [= <- <- <-]; simpl; [|lia].
    destruct (finalized sI); [simpl; lia|].
    unfold exec_insert. rewrite insert_rows, length_app. simpl.
    change (runs (Run e :: q)) with (e :: runs q). simpl. lia.
  - unfold stmt_step. destruct (queue sU) as [|[a|] q]; [discriminate| |];
      intros [= <- <- <-]; simpl; [|lia].
    destruct (finalized sU); [lia|].
    unfold exec_update. rewrite update_color_length. lia.
Qed.

(** X8. A pass inserts at most one row for each event of its batch and
    removes none: whatever the order of its work, the table grows by no more
    rows than the batch has events. *)
Theorem pass_inserts_at_most_batch (evs : list Event)
    (sched : list PassAction) (db db' : Storage) (p' : Pass) :
  run_pass sched db (begin_pass evs) = Some (db', p') ->
  (length (rows db) <= length (rows db') <= length (rows db) + length evs)%nat.
Proof.
  intros Hrun. split.
  - assert (Hpre : forall sched db p db' p',
              run_pass sched db p = Some (db', p') ->
              (length (rows db) <= length (rows db'))%nat).
    { clear. induction sched as [|a sched IH]; intros db p db' p'; simpl.
      - intros [= <- <-]. lia.
      - destruct (pass_step a db p) as [[[db1 p1] log]|] eqn:E; [|discriminate].
        intros Hrun. apply IH in Hrun. apply pass_step_fixed in E.
        apply prefix_length in E. rewrite !length_fmap in E. lia. }
    eapply Hpre; eauto.
  - assert (Hb : forall sched db p db' p',
              run_pass sched db p = Some (db', p') ->
              (length (rows db') + length (runs (queue (stmtInsert p')))
               + length (issued p') + length (resolved p')
               <= length (rows db) + length (runs (queue (stmtInsert p)))
                  + length (issued p) + length (resolved p))%nat).
    { clear. induction sched as [|a sched IH]; intros db p db' p'; simpl.
      - intros [= <- <-]. lia.
      - destruct (pass_step a db p) as [[[db1 p1] log]|] eqn:E; [|discriminate].
        intros Hrun. apply IH in Hrun. apply insert_bound_step in E. lia. }
    apply Hb in Hrun.
    assert (Hbegin : (length (runs (queue (stmtInsert (begin_pass evs))))
                      + length (issued (begin_pass evs))
                      + length (resolved (begin_pass evs)) = length evs)%nat).
    { unfold begin_pass, finalize_if_done. simpl.
      destruct (decide (Z.of_nat (length evs) = 0)); simpl; lia. }
    lia.
Qed.

(** ** Strings: the order of the range filter and the cache key *)

Lemma ascii_compare_lt_trans a b c :
  Ascii.compare a b = Lt -> Ascii.compare b c = Lt -> Ascii.compare a c = Lt.
Proof.
  unfold Ascii.compare. rewrite !N.compare_lt_iff. lia.
Qed.

Lemma ascii_compare_refl a : Ascii.compare a a = Eq.
Proof. unfold Ascii.compare. apply N.compare_refl. Qed.

Lemma string_compare_lt_trans x :
  forall y z, String.compare x y = Lt -> String.compare y z = Lt ->
              String.compare x z = Lt.
Proof.
  induction x as [|a x IH]; intros [|b y] [|c z]; simpl; try discriminate; auto.
  destruct (Ascii.compare a b) eqn:Hab; try discriminate;
    destruct (Ascii.compare b c) eqn:Hbc; try discriminate; intros H1 H2.
  - apply Ascii.compare_eq_iff in Hab as ->.
    apply Ascii.compare_eq_iff in Hbc as ->.
    rewrite ascii_compare_refl. eauto.
  - apply Ascii.compare_eq_iff in Hab as ->. by rewrite Hbc.
  - apply Ascii.compare_eq_iff in Hbc as <-. by rewrite Hab.
  - by rewrite (ascii_compare_lt_trans a b c).
Qed.

Lemma string_leb_trans x y z :
  String.leb x y = true -> String.leb y z = true -> String.leb x z = true.
Proof.
  unfold String.leb.
  destruct (String.compare x y) eqn:Hxy; try discriminate;
    destruct (String.compare y z) eqn:Hyz; try discriminate; intros _ _.
  - apply String.compare_eq_iff in Hxy as ->. by rewrite Hyz.
  - apply String.compare_eq_iff in Hxy as ->. by rewrite Hyz.
  - apply String.compare_eq_iff in Hyz as <-. by rewrite Hxy.
  - by rewrite (string_compare_lt_trans x y z).
Qed.

Lemma string_ltb_not_leb x y :
  String.ltb x y = true -> String.leb y x = false.
Proof.
  unfold String.ltb, String.leb. rewrite (String.compare_antisym y x).
  destruct (String.compare x y); simpl; congruence.
Qed.

Lemma string_app_assoc (a b c : string) : (a +:+ b) +:+ c = a +:+ (b +:+ c).
Proof.
  induction a as [|x a IH]; [reflexivity|].
  change (String x ((a +:+ b) +:+ c) = String x (a +:+ (b +:+ c))).
  by rewrite IH.
Qed.

(** ** Query service: ranges *)

(** X9. Widening the range never loses an event: when the new start is not
    after the old one and the new end is not before the old one, as strings,
    every row of the old result is in the new result, in the same order. *)
Theorem wider_range_returns_more (db : Storage)
    (start end_ start' end' : string) :
  String.leb start' start = true -> String.leb end_ end' = true ->
  Db.all_in_range db start end_ `sublist_of` Db.all_in_range db start' end' /\
  forall r, r ∈ Db.all_in_range db start end_ ->
            r ∈ Db.all_in_range db start' end'.
Proof.
  intros Hs He.
  assert (Himp : forall r, Db.in_range start end_ r = true ->
                           Db.in_range start' end' r = true).
  { intros r. unfold Db.in_range, Db.text_ge, Db.text_le.
    rewrite !andb_true_iff. intros [H1 H2]. split.
    - eapply string_leb_trans; eauto.
    - eapply string_leb_trans; eauto. }
  split.
  - unfold Db.all_in_range. induction (rows db) as [|r l IH]; simpl; [done|].
    destruct (Db.in_range start end_ r) eqn:E.
    + rewrite (Himp r E). by constructor.
    + destruct (Db.in_range start' end' r); [by constructor|exact IH].
  - intros r. rewrite !in_all_in_range. intros (Hin & H1 & H2).
    split; [done|]. split; eapply string_leb_trans; eauto.
Qed.

(** X10. A range whose end is before its start returns no row that starts
    no later than it ends: for a table of such rows the result is empty. *)
Theorem inverted_range_is_empty (db : Storage) (start end_ : string) :
  String.ltb end_ start = true ->
  (forall r, r ∈ rows db -> String.leb (row_start r) (row_end r) = true) ->
  Db.all_in_range db start end_ = [].
Proof.
  intros Hinv Hrows.
  destruct (Db.all_in_range db start end_) as [|r l] eqn:E; [reflexivity|].
  exfalso.
  assert (Hr : r ∈ Db.all_in_range db start end_) by (rewrite E; by left).
  apply in_all_in_range in Hr as (Hin & H1 & H2).
  pose proof (string_leb_trans _ _ _ H1 (Hrows r Hin)) as H3.
  pose proof (string_leb_trans _ _ _ H3 H2) as H4.
  rewrite (string_ltb_not_leb _ _ Hinv) in H4. discriminate.
Qed.

(** ** Query service: the cache key *)




(** ** Query service: what the cache does to the replies *)

Lemma cacheKey_assoc (a b c : string) :
  cacheKey (cacheKey a b) c = cacheKey a (cacheKey b c).
Proof.
  unfold cacheKey. rewrite !string_app_assoc. reflexivity.
Qed.

Lemma cacheKey_left_nonempty (a b : string) : a <> "" -> cacheKey a b <> "".
Proof. destruct a; [done|discriminate]. Qed.

Lemma cacheKey_right_nonempty (a b : string) : cacheKey a b <> "".
Proof. destruct a; discriminate. Qed.

Lemma cache_get_expired now c key e :
  c !! key = Some e -> Cache.expired now e ->
  Cache.get now c key = (None, delete key c).
Proof.
  intros Hc Hx. unfold Cache.get. rewrite Hc, decide_True by assumption.
  reflexivity.
Qed.

Section QueryCache.

Variable ICAL_parse : string -> Exn + list VEvent.

(** Ingestion, the passes, the clock and the expiry check never add an
    entry to the cache and never change one. *)
Lemma storage_activity_adds_no_entry a s s' key e :
  storage_activity a -> step ICAL_parse a s = Some s' ->
  cache s' !! key = Some e -> cache s !! key = Some e.
Proof.
  destruct a as [ms|url prefix upstream|i a|q|i err|i|]; simpl; try tauto;
    intros _.
  - destruct (decide (0 <= ms)); [|discriminate]. intros [= <-]. auto.
  - destruct (fetchAndStoreEvents _ _ _ _) as [p log]. intros [= <-]. auto.
  - destruct (passes s !! i) as [p|]; [|discriminate].
    destruct (pass_step a (db s) p) as [[[d p'] log]|]; [|discriminate].
    intros [= <-]. auto.
  - intros [= <-]. simpl. unfold Cache.check_data.
    intros H. by apply map_lookup_filter_Some in H as [H _].
Qed.

Lemma storage_activities_add_no_entry sched s s' key e :
  Forall storage_activity sched -> run ICAL_parse sched s = Some s' ->
  cache s' !! key = Some e -> cache s !! key = Some e.
Proof.
  intros Hall. revert s. induction Hall as [|a sched Ha _ IH]; intros s; simpl.
  - intros [= <-]. auto.
  - destruct (step ICAL_parse a s) as [s1|] eqn:E; [|discriminate].
    intros Hrun Hc. eapply storage_activity_adds_no_entry; eauto.
Qed.

(** X12. A cached result is served for 600 seconds counted from the
    moment it is stored, which is when the callback of its scan runs and
    not when the request came, and no longer. Let the callback of a
    successful scan for a range run, and let the server then ingest, run
    its passes, check the cache and let time pass. A request for the range
    that comes no later than 600 seconds after the callback ran is answered
    with the rows the callback stored, without a scan, whatever the table
    holds by then. A request that comes later finds the entry expired: the
    handler issues a scan of the table, and when that request is served
    without delay the reply is the rows that are in the range by then. *)
Theorem expired_result_is_recomputed (q : Query) (start end_ : string)
    (i : nat) (result : list Row) (s0 s1 s2 : System)
    (sched : list Action) :
  q_start q = Some (Str start) -> q_end q = Some (Str end_) ->
  start <> "" -> end_ <> "" ->
  0 <= clock s0 ->
  scanned s0 !! i = Some (cacheKey start end_, Some result) ->
  step ICAL_parse (ScanCallback i) s0 = Some s1 ->
  Forall storage_activity sched ->
  run ICAL_parse sched s1 = Some s2 ->
  cache s1 !! cacheKey start end_
    = Some (mkCacheEntry result (clock s0 + 600 * 1000)) /\
  (clock s2 <= clock s0 + 600 * 1000 ->
   step ICAL_parse (Request q) s2 =
     Some (mkSystem (db s2) (cache s2) (clock s2) (passes s2) (scans s2)
             (scanned s2) (replies s2 ++ [Json result]) (console s2))) /\
  (clock s0 + 600 * 1000 < clock s2 ->
   (exists c',
      events_json (clock s2) (cache s2) q
        = (Scanning (mkScan (cacheKey start end_) (Str start) (Str end_)), c')) /\
   exists s3,
     serve ICAL_parse q false s2 = Some s3 /\
     replies s3 = replies s2 ++ [Json (Db.all_in_range (db s2) start end_)] /\
     db s3 = db s2).
Proof.
  intros Hs He Hs' He' H0 Hscan Hcb Hact Hrun.
  assert (Hc1 : cache s1 !! cacheKey start end_
                = Some (mkCacheEntry result (clock s0 + 600 * 1000))).
  { simpl in Hcb. rewrite Hscan in Hcb. simpl in Hcb. injection Hcb as <-.
    simpl. unfold Cache.set. apply lookup_insert_eq. }
  split; [exact Hc1|]. split.
  - intros Hwin.
    apply (request_hit ICAL_parse q s2 start end_
             (mkCacheEntry result (clock s0 + 600 * 1000)) Hs He Hs' He').
    + eapply storage_activities_keep_entry; eauto.
      unfold Cache.expired. simpl. lia.
    + unfold Cache.expired. simpl. lia.
  - intros Hlate.
    assert (Hget : exists c2,
              Cache.get (clock s2) (cache s2) (cacheKey start end_) = (None, c2)).
    { destruct (cache s2 !! cacheKey start end_) as [e|] eqn:E2.
      - pose proof (storage_activities_add_no_entry _ _ _ _ _ Hact Hrun E2) as E1.
        rewrite Hc1 in E1. injection E1 as <-.
        eexists. eapply cache_get_expired; [exact E2|].
        unfold Cache.expired. simpl. lia.
      - exists (cache s2). unfold Cache.get. by rewrite E2. }
    destruct Hget as [c2 Hget]. split.
    + exists c2. rewrite (events_json_bounds _ _ _ _ _ Hs He Hs' He'), Hget.
      reflexivity.
    + eexists. split; [eapply serve_miss; eauto|].
      cbn [replies cache db]. split; reflexivity.
Qed.

(** X13. A failed scan is not cached. For a request with both bounds that
    is a miss, when the scan of the table fails the reply is status 500
    with the body of the source, the error is printed, the table is as
    before and the cache holds nothing under the key: the same request,
    made again at once, scans the table and is answered with the rows in
    the range. *)
Theorem failed_scan_is_not_cached (q : Query) (start end_ : string)
    (s : System) :
  q_start q = Some (Str start) -> q_end q = Some (Str end_) ->
  start <> "" -> end_ <> "" ->
  fst (Cache.get (clock s) (cache s) (cacheKey start end_)) = None ->
  exists s1 s2,
    serve ICAL_parse q true s = Some s1 /\
    replies s1 = replies s ++ [Status500 "Failed to fetch events"] /\
    console s1 = console s ++ [DatabaseError] /\
    cache s1 !! cacheKey start end_ = None /\
    db s1 = db s /\
    serve ICAL_parse q false s1 = Some s2 /\
    replies s2 = replies s1 ++ [Json (Db.all_in_range (db s) start end_)].
Proof.
  intros Hs He Hs' He' Hmiss.
  destruct (Cache.get (clock s) (cache s) (cacheKey start end_))
    as [o c'] eqn:E.
  simpl in Hmiss. subst o.
  pose proof (cache_get_miss _ _ _ _ E) as Hnone.
  eexists. eexists. split; [eapply serve_miss_err; eauto|].
  cbn [replies cache db console]. split; [reflexivity|].
  split; [reflexivity|]. split; [exact Hnone|]. split; [reflexivity|].
  split.
  - apply (serve_miss ICAL_parse q _ start end_ c' Hs He Hs' He').
    cbn [clock cache]. unfold Cache.get. by rewrite Hnone.
  - reflexivity.
Qed.

(** X14. Two ranges can share a cache key. The key joins the two bounds
    with an underscore, so the range from [a_b] to [c] and the range from
    [a] to [b_c] have the same key. After a request for the first range
    has been served from the table, a request for the second range that
    comes within 600 seconds is answered from the cache with the rows of
    the first range, and the table is not scanned. *)
Theorem ranges_sharing_a_cache_key (a b c : string)
    (s0 s1 s2 : System) (sched : list Action) :
  a <> "" -> c <> "" ->
  fst (Cache.get (clock s0) (cache s0) (cacheKey (cacheKey a b) c)) = None ->
  serve ICAL_parse (mkQuery (Some (Str (cacheKey a b))) (Some (Str c))) false s0 = Some s1 ->
  Forall storage_activity sched ->
  run ICAL_parse sched s1 = Some s2 ->
  clock s2 <= clock s0 + 600 * 1000 ->
  cacheKey (cacheKey a b) c = cacheKey a (cacheKey b c) /\
  step ICAL_parse (Request (mkQuery (Some (Str a)) (Some (Str (cacheKey b c))))) s2 =
    Some (mkSystem (db s2) (cache s2) (clock s2) (passes s2) (scans s2)
            (scanned s2)
            (replies s2 ++ [Json (Db.all_in_range (db s0) (cacheKey a b) c)])
            (console s2)).
Proof.
  intros Ha Hc Hmiss Hserve Hact Hrun Hclock.
  split; [apply cacheKey_assoc|].
  destruct (Cache.get (clock s0) (cache s0) (cacheKey (cacheKey a b) c))
    as [o c'] eqn:E.
  simpl in Hmiss. subst o.
  rewrite (serve_miss ICAL_parse (mkQuery (Some (Str (cacheKey a b))) (Some (Str c))) s0
             (cacheKey a b) c c' eq_refl eq_refl
             (cacheKey_left_nonempty a b Ha) Hc E) in Hserve.
  injection Hserve as <-.
  apply (request_hit ICAL_parse (mkQuery (Some (Str a)) (Some (Str (cacheKey b c)))) s2
           a (cacheKey b c)
           (mkCacheEntry (Db.all_in_range (db s0) (cacheKey a b) c)
                         (clock s0 + Cache.stdTTL * 1000)));
    [reflexivity|reflexivity|exact Ha|apply cacheKey_right_nonempty| |].
  - rewrite <- cacheKey_assoc.
    eapply storage_activities_keep_entry; eauto.
    + cbn [cache]. unfold Cache.set. apply lookup_insert_eq.
    + unfold Cache.expired, Cache.stdTTL. simpl. lia.
  - unfold Cache.expired, Cache.stdTTL. simpl. lia.
Qed.

(** ** The read path and the write path *)

Lemma read_step_apart a s s' :
  read_activity a -> step ICAL_parse a s = Some s' ->
  db s' = db s /\ passes s' = passes s /\ clock s' = clock s.
Proof.
  destruct a as [ms|url prefix upstream|i a|q|i err|i|]; simpl; try tauto;
    intros _.
  - destruct (events_json (clock s) (cache s) q) as [[r|sc] c];
      intros [= <-]; auto.
  - destruct (scans s !! i); [|discriminate]. intros [= <-]. auto.
  - destruct (scanned s !! i) as [[key res]|]; [|discriminate].
    destruct (all_callback _ _ _ _) as [[r c] log]. intros [= <-]. auto.
Qed.

Lemma write_step_apart a s s' :
  write_activity a -> step ICAL_parse a s = Some s' ->
  cache s' = cache s /\ replies s' = replies s /\ scans s' = scans s /\
  scanned s' = scanned s /\ clock s' = clock s.
Proof.
  destruct a as [ms|url prefix upstream|i a|q|i err|i|]; simpl; try tauto;
    intros _.
  - destruct (fetchAndStoreEvents _ _ _ _) as [p log]. intros [= <-].
    simpl. auto.
  - destruct (passes s !! i) as [p|]; [|discriminate].
    destruct (pass_step a (db s) p) as [[[d p'] log]|]; [|discriminate].
    intros [= <-]. simpl. auto.
Qed.

(** X15. The two halves of the server meet in the table only. Requests,
    scans and their callbacks never write the table, never touch a pass
    and leave the clock alone; calls of [fetchAndStoreEvents] and the work
    of the passes never touch the cache, the replies or a scan: a cached
    result is not invalidated by an ingestion. *)
Theorem read_and_write_paths_apart (sched : list Action) (s s' : System) :
  run ICAL_parse sched s = Some s' ->
  (Forall read_activity sched ->
     db s' = db s /\ passes s' = passes s /\ clock s' = clock s) /\
  (Forall write_activity sched ->
     cache s' = cache s /\ replies s' = replies s /\ scans s' = scans s /\
     scanned s' = scanned s /\ clock s' = clock s).
Proof.
  revert s. induction sched as [|a sched IH]; intros s; simpl.
  - intros [= <-]. auto 10.
  - destruct (step ICAL_parse a s) as [s1|] eqn:E; [|discriminate].
    intros Hrun. destruct (IH s1 Hrun) as [IHr IHw]. split.
    + intros Hall. apply Forall_cons in Hall as [Ha Hall].
      destruct (read_step_apart _ _ _ Ha E) as (H1 & H2 & H3).
      destruct (IHr Hall) as (H4 & H5 & H6). repeat split; congruence.
    + intros Hall. apply Forall_cons in Hall as [Ha Hall].
      destruct (write_step_apart _ _ _ Ha E) as (H1 & H2 & H3 & H4 & H5).
      destruct (IHw Hall) as (H6 & H7 & H8 & H9 & H10).
      repeat split; congruence.
Qed.

End QueryCache.

(** ** Storage engine: row ids *)

Lemma ids_update_color db c k : ids (Db.update_color db c k) = ids db.
Proof.
  unfold ids, Db.update_color. simpl. rewrite <- list_fmap_compose.
  apply list_fmap_ext. intros i r _. simpl.
  destruct (decide (Db.matches k r)); reflexivity.
Qed.

Lemma max_id_ids (l l' : list Row) :
  (row_id <$> l) = (row_id <$> l') -> Db.max_id l = Db.max_id l'.
Proof.
  revert l'. induction l as [|r l IH]; intros [|r' l']; simpl; try done.
  intros [= Hr Hl]. rewrite Hr, (IH l' Hl). reflexivity.
Qed.

Lemma next_id_update_color db c k :
  Db.next_id (Db.update_color db c k) = Db.next_id db.
Proof.
  unfold Db.next_id.
  rewrite (max_id_ids (rows (Db.update_color db c k)) (rows db));
    [reflexivity|apply ids_update_color].
Qed.

Lemma ids_insert db e : ids (Db.insert db e) = ids db ++ [Db.next_id db].
Proof. unfold ids. rewrite insert_rows, fmap_app. reflexivity. Qed.

Lemma next_id_insert db e : Db.next_id db < Db.next_id (Db.insert db e).
Proof. unfold Db.next_id at 2. simpl. lia. Qed.

Lemma ids_below_next_id db i : i ∈ ids db -> i < Db.next_id db.
Proof.
  unfold ids. intros (r & -> & Hr)%list_elem_of_fmap.
  by apply next_id_fresh.
Qed.

Lemma ids_grow_refl d : ids_grow d d [].
Proof.
  split; [by rewrite app_nil_r|]. split; [constructor|].
  split; [constructor|lia].
Qed.

Lemma ids_grow_trans d1 d2 d3 new new' :
  ids_grow d1 d2 new -> ids_grow d2 d3 new' -> ids_grow d1 d3 (new ++ new').
Proof.
  intros (H1 & H2 & H3 & H4) (H1' & H2' & H3' & H4').
  split; [by rewrite H1', H1, app_assoc|].
  split; [|split; [|lia]].
  - apply StronglySorted_app. split; [|done].
    intros x y Hx Hy.
    assert (x < Db.next_id d2).
    { apply ids_below_next_id. rewrite H1. apply elem_of_app. by right. }
    rewrite Forall_forall in H3'. specialize (H3' y Hy). lia.
  - apply Forall_app. split; [done|].
    eapply Forall_impl; [exact H3'|]. simpl. intros. lia.
Qed.

Lemma ids_grow_stmt {A} (exec : Storage -> A -> Storage) db s db' s' :
  (forall d a, exists new, ids_grow d (exec d a) new) ->
  stmt_step exec db s = Some (db', s') -> exists new, ids_grow db db' new.
Proof.
  intros Hexec. unfold stmt_step.
  destruct (queue s) as [|[a|] q]; [discriminate| |].
  - intros [= <- _]. destruct (finalized s); [|apply Hexec].
    eexists. apply ids_grow_refl.
  - intros [= <- _]. eexists. apply ids_grow_refl.
Qed.

Lemma ids_grow_pass_step a db p db' p' log :
  pass_step a db p = Some (db', p', log) -> exists new, ids_grow db db' new.
Proof.
  destruct a as [i err|i| |]; simpl.
  - destruct (issued p !! i); [|discriminate]. intros [= <- _ _].
    eexists. apply ids_grow_refl.
  - destruct (resolved p !! i) as [[e res]|]; [|discriminate].
    destruct (get_callback _ _ _) as [p1 log1]. intros [= <- _ _].
    eexists. apply ids_grow_refl.
  - destruct (stmt_step exec_insert db (stmtInsert p)) as [[d s]|] eqn:E;
      [|discriminate].
    intros [= <- _ _]. eapply ids_grow_stmt; [|exact E].
    intros d0 e. exists [Db.next_id d0]. unfold exec_insert.
    split; [apply ids_insert|]. split; [repeat constructor|].
    split; [repeat constructor; lia|]. pose proof (next_id_insert d0 e). lia.
  - destruct (stmt_step exec_update db (stmtUpdate p)) as [[d s]|] eqn:E;
      [|discriminate].
    intros [= <- _ _]. eapply ids_grow_stmt; [|exact E].
    intros d0 a. exists []. unfold exec_update.
    split; [by rewrite ids_update_color, app_nil_r|]. split; [constructor|].
    split; [constructor|]. rewrite next_id_update_color. lia.
Qed.

Section RowIds.

Variable ICAL_parse : string -> Exn + list VEvent.

Lemma ids_grow_step a s s' :
  step ICAL_parse a s = Some s' -> exists new, ids_grow (db s) (db s') new.
Proof.
  destruct a as [ms|url prefix upstream|i a|q|i err|i|]; simpl.
  - destruct (decide (0 <= ms)); [|discriminate]. intros [= <-].
    eexists. apply ids_grow_refl.
  - destruct (fetchAndStoreEvents _ _ _ _) as [p log]. intros [= <-].
    eexists. apply ids_grow_refl.
  - destruct (passes s !! i) as [p|]; [|discriminate].
    destruct (pass_step a (db s) p) as [[[d p'] log]|] eqn:E; [|discriminate].
    intros [= <-]. simpl. eapply ids_grow_pass_step; eauto.
  - destruct (events_json (clock s) (cache s) q) as [[r|sc] c];
      intros [= <-]; eexists; apply ids_grow_refl.
  - destruct (scans s !! i); [|discriminate]. intros [= <-].
    eexists. apply ids_grow_refl.
  - destruct (scanned s !! i) as [[key res]|]; [|discriminate].
    destruct (all_callback _ _ _ _) as [[r c] log]. intros [= <-].
    eexists. apply ids_grow_refl.
  - intros [= <-]. eexists. apply ids_grow_refl.
Qed.

Lemma ids_grow_run sched s s' :
  run ICAL_parse sched s = Some s' -> exists new, ids_grow (db s) (db s') new.
Proof.
  revert s. induction sched as [|a sched IH]; intros s; simpl.
  - intros [= <-]. eexists. apply ids_grow_refl.
  - destruct (step ICAL_parse a s) as [s1|] eqn:E; [|discriminate].
    intros Hrun. destruct (ids_grow_step _ _ _ E) as [new1 H1].
    destruct (IH s1 Hrun) as [new2 H2].
    eexists. eapply ids_grow_trans; eauto.
Qed.

(** X16. Row ids are never reused. Whatever the server does, with passes
    overlapping at will, the rows it adds get ids in strictly increasing
    order of insertion, each greater than the id of every row that was in
    the table before and than the AUTOINCREMENT counter; so a table whose
    ids are distinct keeps distinct ids, and a row that is in the table
    keeps its id for good. *)
Theorem row_ids_never_reused (sched : list Action) (s s' : System) :
  run ICAL_parse sched s = Some s' ->
  exists new,
    ids (db s') = ids (db s) ++ new /\
    StronglySorted Z.lt new /\
    Forall (fun i => sqlite_sequence (db s) < i /\
                     forall j, j ∈ ids (db s) -> j < i) new /\
    (NoDup (ids (db s)) -> NoDup (ids (db s'))).
Proof.
  intros Hrun. destruct (ids_grow_run _ _ _ Hrun) as (new & H1 & H2 & H3 & H4).
  exists new. split; [exact H1|]. split; [exact H2|].
  assert (Hnew : Forall (fun i => sqlite_sequence (db s) < i /\
                     forall j, j ∈ ids (db s) -> j < i) new).
  { eapply Forall_impl; [exact H3|]. simpl. intros i Hi. split.
    - unfold Db.next_id in Hi. lia.
    - intros j Hj. apply ids_below_next_id in Hj. lia. }
  split; [exact Hnew|].
  intros Hnd. rewrite H1. apply NoDup_app. split; [exact Hnd|]. split.
  - intros x Hx Hx'. rewrite Forall_forall in Hnew.
    destruct (Hnew x Hx') as [_ Hlt]. specialize (Hlt x Hx). lia.
  - clear -H2. induction H2 as [|x l _ IH Hx]; constructor; [|exact IH].
    intros Hin. rewrite Forall_forall in Hx. specialize (Hx x).
    assert (x < x) by (by apply Hx). lia.
Qed.

End RowIds.

(** ** Reconciler: batches the table already holds *)

Lemma records_of_keys (l l' : list Row) (k : Key) :
  (row_key <$> l) = (row_key <$> l') ->
  length (filter (Db.matches k) l) = length (filter (Db.matches k) l').
Proof.
  revert l'. induction l as [|r l IH]; intros [|r' l']; try done.
  rewrite !fmap_cons. intros H.
  assert (Hr : row_key r = row_key r') by congruence.
  assert (Hl : (row_key <$> l) = (row_key <$> l')) by congruence.
  rewrite !filter_cons.
  destruct (decide (Db.matches k r)) as [Hm|Hm];
    destruct (decide (Db.matches k r')) as [Hm'|Hm'];
    unfold Db.matches in Hm, Hm'; simpl; try congruence;
    by rewrite (IH l').
Qed.

Lemma ids_of_fixed (l l' : list Row) :
  (row_fixed <$> l) = (row_fixed <$> l') -> (row_id <$> l) = (row_id <$> l').
Proof.
  intros H.
  assert (E : forall k : list Row,
            (row_id <$> k) = ((fun f => fst (fst (fst f))) <$> (row_fixed <$> k))).
  { intros k. rewrite <- list_fmap_compose. reflexivity. }
  rewrite !E, H. reflexivity.
Qed.

(** X17. A pass over events whose keys are all stored adds no record, in
    whatever order the driver works, whether or not lookups fail, and
    whether or not the batch repeats a key: the table keeps its rows in
    place with their ids and keys, the AUTOINCREMENT counter does not
    move, and every key has as many records as before. *)
Theorem stored_batch_adds_no_record (evs : list Event)
    (sched : list PassAction) (db0 db' : Storage) (p' : Pass) :
  (forall e, e ∈ evs -> event_key e ∈ (row_key <$> rows db0)) ->
  run_pass sched db0 (begin_pass evs) = Some (db', p') ->
  ids db' = ids db0 /\
  (row_key <$> rows db') = (row_key <$> rows db0) /\
  sqlite_sequence db' = sqlite_sequence db0 /\
  forall k, length (records_of db' k) = length (records_of db0 k).
Proof.
  intros Hstored Hrun.
  destruct (stored_keys_no_insert db0 evs sched db' p' Hstored Hrun)
    as (Hfix & _ & Hseq).
  split; [by apply ids_of_fixed|].
  split; [by apply keys_of_fixed|]. split; [exact Hseq|].
  intros k. apply records_of_keys. by apply keys_of_fixed.
Qed.

Lemma update_color_settled db c k :
  (forall r, r ∈ rows db -> row_key r = k -> row_color r = c) ->
  Db.update_color db c k = db.
Proof.
  intros H. destruct db as [l n]. unfold Db.update_color. simpl in *.
  f_equal. rewrite <- (list_fmap_id l) at 2. apply list_fmap_ext.
  intros i r Hr. simpl.
  destruct (decide (Db.matches k r)) as [Hm|]; [|reflexivity].
  rewrite <- (H r); [apply set_color_same| |exact Hm].
  eapply list_elem_of_lookup_2; eauto.
Qed.

Section Settled.

Variable evs : list Event.
Variable db0 : Storage.
Hypothesis keys_stored :
  forall e, e ∈ evs -> event_key e ∈ (row_key <$> rows db0).
Hypothesis colors_stored :
  forall e r, e ∈ evs -> r ∈ rows db0 -> row_key r = event_key e ->
              row_color r = color e.

(** What holds at every moment of a pass over a batch the table reflects
    already. *)
Record settled_inv (db : Storage) (p : Pass) : Prop := {
  st_db : db = db0;
  st_issued : forall e, e ∈ issued p -> e ∈ evs;
  st_resolved : forall e res, (e, res) ∈ resolved p ->
    e ∈ evs /\ res <> GetRow None;
  st_insert : runs (queue (stmtInsert p)) = [];
  st_update : forall a, a ∈ runs (queue (stmtUpdate p)) ->
    exists e, e ∈ evs /\ a = update_args e
}.

Lemma settled_begin : settled_inv db0 (begin_pass evs).
Proof.
  unfold begin_pass, finalize_if_done. simpl.
  destruct (decide (Z.of_nat (length evs) = 0)) as [E|E];
    split; simpl; auto;
    solve [ intros e res Hin; by apply elem_of_nil in Hin
          | intros a Hin; by apply elem_of_nil in Hin ].
Qed.

Lemma settled_step a db p db' p' log :
  settled_inv db p -> pass_step a db p = Some (db', p', log) ->
  settled_inv db' p'.
Proof.
  intros [Hdb Hiss Hres Hins Hupd].
  destruct p as [iss res sI sU pend]. simpl in *.
  destruct a as [i err|i| |]; simpl.
  - destruct (iss !! i) as [e|] eqn:Hi; [|discriminate].
    assert (He : e ∈ evs) by (apply Hiss; eapply list_elem_of_lookup_2; eauto).
    intros [= <- <- <-]. split; simpl; auto.
    + intros e' He'. apply Hiss. eapply list_elem_of_delete_inv; eauto.
    + intros e' res' Hin. apply elem_of_app in Hin as [Hin|Hin]; [eauto|].
      apply list_elem_of_singleton in Hin. injection Hin as -> ->.
      split; [exact He|]. destruct err; [done|].
      assert (Hget : is_Some (Db.get db (event_key e))).
      { apply get_is_Some. rewrite Hdb. by apply keys_stored. }
      destruct Hget as [r ->]. done.
  - destruct (res !! i) as [[e r]|] eqn:Hi; [|discriminate].
    assert (Her : e ∈ evs /\ r <> GetRow None).
    { apply Hres. eapply list_elem_of_lookup_2; eauto. }
    destruct Her as [He Hr].
    assert (Hdel : forall e' res', (e', res') ∈ delete i res ->
                     e' ∈ evs /\ res' <> GetRow None).
    { intros e' res' Hin. apply Hres. eapply list_elem_of_delete_inv; eauto. }
    assert (Hnew : forall a, a ∈ runs (queue sU) ++ [update_args e] ->
                     exists e', e' ∈ evs /\ a = update_args e').
    { intros a [Ha|Ha%list_elem_of_singleton]%elem_of_app; [auto|].
      exists e. by subst. }
    unfold get_callback, finalize_if_done.
    destruct r as [|[row|]]; [| |done]; simpl;
      destruct (decide (pend - 1 = 0)); intros [= <- <- <-];
      split; simpl; auto;
      rewrite ?runs_app, ?app_nil_r; simpl; rewrite ?app_nil_r; auto.
  - unfold stmt_step.
    destruct (queue sI) as [|[a|] q] eqn:Hqi; [discriminate|done|].
    intros [= <- <- <-]. split; simpl; auto.
  - unfold stmt_step.
    destruct (queue sU) as [|[a|] q] eqn:Hqu; [discriminate| |];
      intros [= <- <- <-]; split; simpl; auto.
    + destruct (finalized sU); [done|].
      destruct (Hupd a) as (e & He & ->); [rewrite runs_cons_Run; by left|].
      unfold exec_update, update_args. simpl. rewrite <- Hdb.
      apply update_color_settled. intros r Hr Hk. rewrite Hdb in Hr.
      by apply colors_stored.
    + intros a' Ha'. apply Hupd. rewrite runs_cons_Run. by right.
Qed.

Lemma settled_run sched db p db' p' :
  settled_inv db p -> run_pass sched db p = Some (db', p') ->
  settled_inv db' p'.
Proof.
  revert db p. induction sched as [|a sched IH]; intros db p Hinv; simpl.
  - intros [= <- <-]. exact Hinv.
  - destruct (pass_step a db p) as [[[db1 p1] log]|] eqn:E; [|discriminate].
    intros Hrun. eapply IH; [|exact Hrun]. eapply settled_step; eauto.
Qed.

End Settled.

(** X18. Re-ingesting what the table reflects already changes nothing.
    When every event of the batch has its key stored and the rows with its
    key have its color, the table is the same, byte for byte, at every
    moment of the pass: in whatever order the driver works, whether or not
    lookups fail, and also when the pass is cut short. *)
Theorem settled_batch_changes_nothing (evs : list Event)
    (sched : list PassAction) (db0 db' : Storage) (p' : Pass) :
  (forall e, e ∈ evs -> event_key e ∈ (row_key <$> rows db0)) ->
  (forall e r, e ∈ evs -> r ∈ rows db0 -> row_key r = event_key e ->
               row_color r = color e) ->
  run_pass sched db0 (begin_pass evs) = Some (db', p') ->
  db' = db0.
Proof.
  intros Hk Hc Hrun.
  exact (st_db _ _ _ _
           (settled_run evs db0 Hk Hc sched db0 _ db' p'
              (settled_begin evs db0) Hrun)).
Qed.

(** ** Reconciler: the colors after a first pass *)

Section FirstPass.

Variable evs : list Event.
Hypothesis keys_distinct : NoDup (event_key <$> evs).

(** Where each event of the batch is on its way to the table: its lookup
    is issued or resolved, its INSERT or its UPDATE waits, or the rows with
    its key have its color. *)
Record color_inv (db : Storage) (p : Pass) : Prop := {
  co_issued : forall e, e ∈ issued p -> e ∈ evs;
  co_resolved : forall e res, (e, res) ∈ resolved p -> e ∈ evs;
  co_inserts : forall e, e ∈ runs (queue (stmtInsert p)) -> e ∈ evs;
  co_updates : forall a, a ∈ runs (queue (stmtUpdate p)) ->
    exists e, e ∈ evs /\ a = update_args e;
  co_progress : forall e, e ∈ evs ->
    e ∈ issued p \/ (exists res, (e, res) ∈ resolved p) \/
    e ∈ runs (queue (stmtInsert p)) \/
    update_args e ∈ runs (queue (stmtUpdate p)) \/
    (forall r, r ∈ rows db -> row_key r = event_key e -> row_color r = color e)
}.

Lemma color_begin db0 : color_inv db0 (begin_pass evs).
Proof.
  unfold begin_pass, finalize_if_done. simpl.
  destruct (decide (Z.of_nat (length evs) = 0)) as [E|E];
    split; simpl; auto;
    solve [ intros e res Hin; by apply elem_of_nil in Hin
          | intros a Hin; by apply elem_of_nil in Hin ].
Qed.

Lemma color_finalize db iss res sI sU pend pend' :
  color_inv db (mkPass iss res sI sU pend') ->
  color_inv db (finalize_if_done (mkPass iss res sI sU pend)).
Proof.
  intros [H1 H2 H3 H4 H5]. unfold finalize_if_done. simpl in *.
  destruct (decide (pend = 0)); split; simpl; auto;
    rewrite ?runs_app; simpl; rewrite ?app_nil_r; auto.
Qed.

Lemma color_step a db p db' p' log ys m :
  error_free a -> distinct_inv evs ys m db p -> lifecycle p ->
  color_inv db p -> pass_step a db p = Some (db', p', log) ->
  color_inv db' p'.
Proof.
  intros Hfree Hd [_ HI HU] [Hiss Hres Hins Hupd Hprog].
  destruct p as [iss res sI sU pend]. simpl in *.
  destruct a as [i err|i| |]; simpl.
  - (* the SELECT of a lookup *)
    destruct err; [done|].
    destruct (iss !! i) as [e|] eqn:Hi; [|discriminate].
    intros [= <- <- <-]. split; simpl; auto.
    + intros e' He'. apply Hiss. eapply list_elem_of_delete_inv; eauto.
    + intros e' res' [Hin|Hin%list_elem_of_singleton]%elem_of_app; [eauto|].
      injection Hin as -> ->. apply Hiss. eapply list_elem_of_lookup_2; eauto.
    + intros e' He'. destruct (Hprog e' He') as [H|[[r H]|H]].
      * destruct (elem_of_delete_or _ _ _ _ Hi H) as [->|H']; [|by left].
        right. left. eexists. apply elem_of_app. right.
        by apply list_elem_of_singleton.
      * right. left. exists r. apply elem_of_app. by left.
      * right. right. exact H.
  - (* the callback of a lookup *)
    destruct (res !! i) as [[e r]|] eqn:Hi; [|discriminate].
    assert (Hin : (e, r) ∈ res) by (eapply list_elem_of_lookup_2; eauto).
    assert (He : e ∈ evs) by eauto.
    assert (Hr : r <> GetErr).
    { destruct Hd as [_ _ Hdres _ _ _ _ _]. by apply (Hdres e r). }
    assert (Hdel : forall e' res', (e', res') ∈ delete i res -> e' ∈ evs).
    { intros e' res' H. eapply Hres. eapply list_elem_of_delete_inv; eauto. }
    assert (Hmoved : forall e', e' ∈ evs ->
              e' = e \/ e' ∈ iss \/ (exists res', (e', res') ∈ delete i res) \/
              e' ∈ runs (queue sI) \/ update_args e' ∈ runs (queue sU) \/
              (forall r0, r0 ∈ rows db -> row_key r0 = event_key e' ->
                          row_color r0 = color e')).
    { intros e' He'. destruct (Hprog e' He') as [H|[[r' H]|H]]; [auto| |auto 6].
      destruct (elem_of_delete_or _ _ _ _ Hi H) as [[= -> ->]|H']; [by left|].
      right. right. left. eauto. }
    unfold get_callback.
    destruct r as [|[row|]]; [done| |];
      cbn [issued resolved stmtInsert stmtUpdate pendingOperations];
      intros [= <- <- <-]; eapply (color_finalize _ _ _ _ _ _ 0);
      split; simpl; auto; rewrite ?runs_app; simpl.
    + intros a [Ha|Ha%list_elem_of_singleton]%elem_of_app; [auto|].
      exists e. by subst.
    + intros e' He'. rewrite !elem_of_app.
      destruct (Hmoved e' He') as [->|[H|[H|[H|[H|H]]]]]; auto 8.
      right. right. right. left. right. by apply list_elem_of_singleton.
    + intros e' [H|H%list_elem_of_singleton]%elem_of_app; [auto|by subst].
    + intros e' He'. rewrite !elem_of_app.
      destruct (Hmoved e' He') as [->|[H|[H|[H|[H|H]]]]]; auto 8.
      right. right. left. right. by apply list_elem_of_singleton.
  - (* a call of stmtInsert *)
    unfold stmt_step. destruct (queue sI) as [|[x|] q] eqn:Hq; [discriminate| |].
    + destruct (stmt_in_order_facts _ _ HI) as (I1 & _).
      rewrite (I1 x q Hq). intros [= <- <- <-].
      assert (Hx : x ∈ evs) by (apply Hins; rewrite runs_cons_Run; by left).
      assert (Hfresh : event_key x ∉ (row_key <$> rows db)).
      { destruct Hd as [Hkeys _ _ Hqueue _ _ _ _]. simpl in Hqueue.
        rewrite Hq in Hqueue. destruct ys as [|y ys']; simpl in Hqueue.
        - destruct m; discriminate.
        - injection Hqueue as -> _. rewrite fmap_cons in Hkeys.
          apply NoDup_app in Hkeys as (_ & Hdisj & _).
          intros Hin. apply (Hdisj _ Hin). by left. }
      split; simpl; auto.
      * intros e He. apply Hins. rewrite runs_cons_Run. by right.
      * intros e He. unfold exec_insert. rewrite ?insert_rows.
        destruct (decide (event_key e = event_key x)) as [Hk|Hk].
        -- assert (e = x) as -> by (eapply NoDup_key_inj; eauto).
           do 4 right. intros r [Hr|Hr%list_elem_of_singleton]%elem_of_app Hkr.
           ++ exfalso. apply Hfresh. rewrite <- Hkr. by apply list_elem_of_fmap_2.
           ++ by subst r.
        -- destruct (Hprog e He) as [H|[H|[H|[H|H]]]]; [auto|auto| |auto 6|].
           ++ rewrite runs_cons_Run in H.
              apply elem_of_cons in H as [->|H]; [done|auto].
           ++ do 4 right.
              intros r [Hr|Hr%list_elem_of_singleton]%elem_of_app Hkr; [auto|].
              subst r. by destruct Hk.
    + intros [= <- <- <-]. split; simpl; auto.
  - (* a call of stmtUpdate *)
    unfold stmt_step. destruct (queue sU) as [|[a|] q] eqn:Hq; [discriminate| |].
    + destruct (stmt_in_order_facts _ _ HU) as (U1 & _).
      rewrite (U1 a q Hq). intros [= <- <- <-].
      destruct (Hupd a) as (x & Hx & ->); [rewrite runs_cons_Run; by left|].
      split; simpl; auto.
      * intros a' Ha'. apply Hupd. rewrite runs_cons_Run. by right.
      * intros e He.
        destruct (decide (event_key e = event_key x)) as [Hk|Hk].
        -- assert (e = x) as -> by (eapply NoDup_key_inj; eauto).
           do 4 right. intros r (r0 & -> & Hr0)%list_elem_of_fmap Hkr.
           destruct (decide (Db.matches (event_key x) r0)) as [Hm|Hm];
             [reflexivity|]. by destruct Hm.
        -- destruct (Hprog e He) as [H|[H|[H|[H|H]]]]; [auto|auto|auto| |].
           ++ rewrite runs_cons_Run in H.
              apply elem_of_cons in H as [H|H]; [|auto 6].
              exfalso. apply Hk. unfold update_args in H. congruence.
           ++ do 4 right. intros r (r0 & -> & Hr0)%list_elem_of_fmap Hkr.
              destruct (decide (Db.matches (event_key x) r0)) as [Hm|Hm];
                [|auto].
              exfalso. apply Hk. rewrite <- Hkr. exact Hm.
    + intros [= <- <- <-]. split; simpl; auto.
Qed.

Lemma color_run sched db p db' p' ys m :
  Forall error_free sched -> distinct_inv evs ys m db p -> lifecycle p ->
  color_inv db p -> run_pass sched db p = Some (db', p') ->
  color_inv db' p'.
Proof.
  intros Hall. revert db p ys m.
  induction Hall as [|a sched Ha _ IH]; intros db p ys m Hd Hl Hc; simpl.
  - intros [= <- <-]. exact Hc.
  - destruct (pass_step a db p) as [[[db1 p1] log]|] eqn:E; [|discriminate].
    destruct (distinct_step evs _ _ _ _ _ _ _ _ Ha Hd E)
      as (ys1 & m1 & Hd1).
    destruct (lifecycle_step _ _ _ _ _ _ Hl E) as [Hl1 _].
    pose proof (color_step _ _ _ _ _ _ _ _ Ha Hd Hl Hc E) as Hc1.
    eauto.
Qed.

(** After a pass over a batch of distinct keys that ran alone to its end
    without lookup errors, the rows with the key of an event of the batch
    have the color of the event. *)
Lemma first_pass_colors db0 sched db1 p1 :
  NoDup (row_key <$> rows db0) ->
  Forall error_free sched ->
  run_pass sched db0 (begin_pass evs) = Some (db1, p1) -> pass_done p1 ->
  forall e r, e ∈ evs -> r ∈ rows db1 -> row_key r = event_key e ->
              row_color r = color e.
Proof.
  intros Hdb Hall Hrun (Hi & Hr & Hqi & Hqu) e r He.
  destruct (distinct_begin evs keys_distinct db0 Hdb) as [m0 Hd0].
  pose proof (color_run _ _ _ _ _ _ _ Hall Hd0 (lifecycle_begin evs)
                (color_begin db0) Hrun) as [_ _ _ _ Hprog].
  destruct (Hprog e He) as [H|[[res H]|[H|[H|H]]]]; [| | | |by apply H].
  - rewrite Hi in H. by apply elem_of_nil in H.
  - rewrite Hr in H. by apply elem_of_nil in H.
  - rewrite Hqi in H. by apply elem_of_nil in H.
  - rewrite Hqu in H. by apply elem_of_nil in H.
Qed.

End FirstPass.

(** X19. Reconciliation is idempotent. For a batch of distinct keys and a
    table with one record per key, after a first pass that ran alone to its
    end without lookup errors the table holds, for every event of the
    batch, exactly one record with its key, and that record has its color;
    and a second pass over the same batch leaves the table as it is, in
    whatever order the driver works, whether or not lookups fail, and at
    every moment of the pass. *)
Theorem reconcile_is_idempotent (evs : list Event) (db0 db1 db2 : Storage)
    (sched1 sched2 : list PassAction) (p1 p2 : Pass) :
  NoDup (event_key <$> evs) ->
  NoDup (row_key <$> rows db0) ->
  Forall error_free sched1 ->
  run_pass sched1 db0 (begin_pass evs) = Some (db1, p1) -> pass_done p1 ->
  run_pass sched2 db1 (begin_pass evs) = Some (db2, p2) ->
  db2 = db1 /\
  forall e, e ∈ evs ->
    exists r, records_of db1 (event_key e) = [r] /\ row_color r = color e.
Proof.
  intros Hevs Hdb Hfree Hrun1 Hdone1 Hrun2.
  destruct (reconcile_distinct evs Hevs db0 sched1 db1 p1 Hdb Hfree Hrun1 Hdone1)
    as [Hnd Hall].
  pose proof (first_pass_colors evs Hevs db0 sched1 db1 p1 Hdb Hfree Hrun1 Hdone1)
    as Hcol.
  split.
  - pose proof (settled_run evs db1 Hall
                  (fun e r He Hr Hk => Hcol e r He Hr Hk)
                  sched2 db1 _ db2 p2 (settled_begin evs db1) Hrun2) as [H _ _ _ _].
    exact H.
  - intros e He.
    pose proof (one_record_per_key (rows db1) (event_key e) Hnd (Hall e He)) as Hlen.
    unfold records_of.
    destruct (filter (Db.matches (event_key e)) (rows db1)) as [|r [|r' l]] eqn:Ef;
      try discriminate.
    exists r. split; [reflexivity|].
    assert (Hr : r ∈ filter (Db.matches (event_key e)) (rows db1))
      by (rewrite Ef; by left).
    apply list_elem_of_filter in Hr as [Hm Hr]. by apply Hcol.
Qed.

(** ** The variant without a store *)

Lemma feeds_get_miss now c key c' :
  Feeds.get now c key = (None, c') -> c' !! key = None.
Proof.
  unfold Feeds.get. destruct (c !! key) as [e|] eqn:E.
  - destruct (decide (Feeds.expired now e)); [|discriminate].
    intros [= <-]. apply lookup_delete_eq.
  - intros [= <-]. exact E.
Qed.

Lemma feeds_get_other now c key key' :
  key' <> key -> snd (Feeds.get now c key) !! key' = c !! key'.
Proof.
  intros Hne. unfold Feeds.get. destruct (c !! key) as [e|]; [|reflexivity].
  destruct (decide (Feeds.expired now e)); [|reflexivity].
  simpl. by apply lookup_delete_ne.
Qed.

Lemma fetchWithCache_miss now arrival c key url answer c' :
  Feeds.get now c key = (None, c') ->
  Feeds.fetchWithCache now arrival c key url answer =
    match answer with
    | Resolved data => (inr data, Feeds.set arrival c' key data, [HttpGet url 1])
    | Rejected message => (inl message, c', [HttpGet url 1])
    end.
Proof. intros E. unfold Feeds.fetchWithCache. rewrite E. reflexivity. Qed.

Lemma fetchWithCache_hit now arrival c key url answer e :
  c !! key = Some e -> ~ Feeds.expired now e -> Feeds.entry_data e <> "" ->
  Feeds.fetchWithCache now arrival c key url answer =
    (inr (Feeds.entry_data e), c, []).
Proof.
  intros Hc Hx Hd. unfold Feeds.fetchWithCache, Feeds.get.
  rewrite Hc, decide_False by assumption.
  rewrite bool_decide_eq_false_2 by assumption. reflexivity.
Qed.

Lemma fetchWithCache_empty now arrival c key url answer e :
  c !! key = Some e -> ~ Feeds.expired now e -> Feeds.entry_data e = "" ->
  Feeds.fetchWithCache now arrival c key url answer =
    match answer with
    | Resolved data => (inr data, Feeds.set arrival c key data, [HttpGet url 1])
    | Rejected message => (inl message, c, [HttpGet url 1])
    end.
Proof.
  intros Hc Hx Hd. unfold Feeds.fetchWithCache, Feeds.get.
  rewrite Hc, decide_False by assumption.
  rewrite bool_decide_eq_true_2 by assumption. reflexivity.
Qed.

Lemma fetchWithCache_other now arrival c key url answer key' :
  key' <> key ->
  snd (fst (Feeds.fetchWithCache now arrival c key url answer)) !! key'
  = c !! key'.
Proof.
  intros Hne. unfold Feeds.fetchWithCache.
  pose proof (feeds_get_other now c key key' Hne) as Hg.
  destruct (Feeds.get now c key) as [[data|] c']; simpl in Hg;
    [destruct (bool_decide (data = ""))|]; destruct answer; simpl;
    unfold Feeds.set; rewrite ?lookup_insert_ne by done; exact Hg.
Qed.

Lemma convert_normalize (prefix : string) (vs : list VEvent) :
  Feeds.convert ("[" +:+ prefix +:+ "] ") vs = normalize prefix vs.
Proof.
  induction vs as [|v vs IH]; simpl; [reflexivity|].
  assert (H1 : Feeds.convert_one ("[" +:+ prefix +:+ "] ") v
               = normalize_one prefix v).
  { unfold Feeds.convert_one, normalize_one.
    destruct (startDate v); [|reflexivity].
    destruct (endDate v); [|reflexivity].
    rewrite !string_app_assoc. reflexivity. }
  rewrite H1, IH. reflexivity.
Qed.

Section FeedHandlers.

Variable ICAL_parse : string -> Exn + list VEvent.

Lemma feed_json_miss key tag url now arrival c answer c' :
  Feeds.get now c key = (None, c') ->
  Feeds.feed_json ICAL_parse key tag url now arrival c answer =
    match answer with
    | Resolved data =>
        (Feeds.respond ICAL_parse tag (inr data),
         Feeds.set arrival c' key data, [HttpGet url 1])
    | Rejected message =>
        (Feeds.Failed "Failed to convert ICS to JSON", c', [HttpGet url 1])
    end.
Proof.
  intros E. unfold Feeds.feed_json.
  rewrite (fetchWithCache_miss _ _ _ _ _ _ _ E). by destruct answer.
Qed.

Lemma feed_json_trace_miss key tag url now arrival c answer :
  fst (Feeds.get now c key) = None ->
  snd (Feeds.feed_json ICAL_parse key tag url now arrival c answer)
    = [HttpGet url 1].
Proof.
  destruct (Feeds.get now c key) as [o c'] eqn:E. simpl. intros ->.
  rewrite (feed_json_miss _ _ _ _ _ _ _ _ E). by destruct answer.
Qed.

(** X20. A document is fetched once a minute at most. When a request to
    an endpoint found nothing in the cache and the upstream answered with
    a body that is not empty, every request to the endpoint that is
    handled after the body was stored and no later than 60 seconds after
    its arrival makes no request to the upstream, leaves the cache as it is
    and sends the reply of the first request, whatever the upstream would
    answer by then; this holds of a body that cannot be converted as well,
    whose status 500 is repeated. *)
Theorem feed_reused_for_a_minute (key tag url data : string)
    (now arrival now' arrival' : Z) (c : gmap string Feeds.Entry)
    (answer' : Outcome) :
  data <> "" ->
  fst (Feeds.get now c key) = None ->
  now' <= arrival + 60 * 1000 ->
  exists r1 c1,
    Feeds.feed_json ICAL_parse key tag url now arrival c (Resolved data)
      = (r1, c1, [HttpGet url 1]) /\
    Feeds.feed_json ICAL_parse key tag url now' arrival' c1 answer'
      = (r1, c1, []).
Proof.
  intros Hd Hmiss Hnow.
  destruct (Feeds.get now c key) as [o c'] eqn:E. simpl in Hmiss. subst o.
  eexists _, _. split; [rewrite (feed_json_miss _ _ _ _ _ _ _ _ E); reflexivity|].
  unfold Feeds.feed_json.
  rewrite (fetchWithCache_hit now' arrival' (Feeds.set arrival c' key data)
             key url answer' (Feeds.mkEntry data (arrival + Feeds.stdTTL * 1000)));
    [reflexivity
    |apply lookup_insert_eq
    |unfold Feeds.expired, Feeds.stdTTL; simpl; lia
    |exact Hd].
Qed.

(** X21. A failed retrieval is not cached. When a request found nothing
    in the cache and the upstream rejected, the reply is status 500 with
    the body of the source after one request to the upstream, nothing is
    stored under the key, and the next request asks the upstream again. *)
Theorem feed_failure_is_not_cached (key tag url message : string)
    (now arrival now' arrival' : Z) (c : gmap string Feeds.Entry)
    (answer' : Outcome) :
  fst (Feeds.get now c key) = None ->
  exists c1,
    Feeds.feed_json ICAL_parse key tag url now arrival c (Rejected message)
      = (Feeds.Failed "Failed to convert ICS to JSON", c1, [HttpGet url 1]) /\
    c1 !! key = None /\
    snd (Feeds.feed_json ICAL_parse key tag url now' arrival' c1 answer')
      = [HttpGet url 1].
Proof.
  intros Hmiss.
  destruct (Feeds.get now c key) as [o c'] eqn:E. simpl in Hmiss. subst o.
  pose proof (feeds_get_miss _ _ _ _ E) as Hnone.
  exists c'. split; [rewrite (feed_json_miss _ _ _ _ _ _ _ _ E); reflexivity|].
  split; [exact Hnone|].
  apply feed_json_trace_miss. unfold Feeds.get. by rewrite Hnone.
Qed.

(** X22. After 60 seconds the document is fetched again. When a request
    found nothing in the cache and the upstream answered with a body, a
    request that comes more than 60 seconds after the arrival of the body
    asks the upstream once, whatever it answers, and a body it answers
    with is converted for the reply and replaces the old one in the
    cache. *)
Theorem feed_refetched_after_a_minute (key tag url data data' : string)
    (now arrival now' arrival' : Z) (c : gmap string Feeds.Entry) :
  fst (Feeds.get now c key) = None ->
  0 <= arrival -> arrival + 60 * 1000 < now' ->
  exists r1 c1 c2,
    Feeds.feed_json ICAL_parse key tag url now arrival c (Resolved data)
      = (r1, c1, [HttpGet url 1]) /\
    Feeds.feed_json ICAL_parse key tag url now' arrival' c1 (Resolved data')
      = (Feeds.respond ICAL_parse tag (inr data'), c2, [HttpGet url 1]) /\
    c2 !! key = Some (Feeds.mkEntry data' (arrival' + 60 * 1000)) /\
    forall answer',
      snd (Feeds.feed_json ICAL_parse key tag url now' arrival' c1 answer')
        = [HttpGet url 1].
Proof.
  intros Hmiss H0 Hlate.
  destruct (Feeds.get now c key) as [o c'] eqn:E. simpl in Hmiss. subst o.
  assert (E' : Feeds.get now' (Feeds.set arrival c' key data) key
               = (None, delete key (Feeds.set arrival c' key data))).
  { unfold Feeds.get, Feeds.set. rewrite lookup_insert_eq.
    rewrite decide_True; [reflexivity|].
    unfold Feeds.expired, Feeds.stdTTL. simpl. lia. }
  eexists _, _, _. split; [rewrite (feed_json_miss _ _ _ _ _ _ _ _ E); reflexivity|].
  split; [rewrite (feed_json_miss _ _ _ _ _ _ _ _ E'); reflexivity|].
  split; [unfold Feeds.set at 1; by rewrite lookup_insert_eq|].
  intros answer'. apply feed_json_trace_miss. by rewrite E'.
Qed.

(** X23. An empty body is never a hit. [if (cachedData)] is false of the
    empty string: when the upstream answered with an empty body, which is
    stored like any other, every later request asks the upstream again,
    also within the 60 seconds. *)
Theorem empty_body_is_fetched_again (key tag url : string)
    (now arrival now' arrival' : Z) (c : gmap string Feeds.Entry)
    (answer' : Outcome) :
  fst (Feeds.get now c key) = None ->
  exists r1 c1,
    Feeds.feed_json ICAL_parse key tag url now arrival c (Resolved "")
      = (r1, c1, [HttpGet url 1]) /\
    c1 !! key = Some (Feeds.mkEntry "" (arrival + 60 * 1000)) /\
    snd (Feeds.feed_json ICAL_parse key tag url now' arrival' c1 answer')
      = [HttpGet url 1].
Proof.
  intros Hmiss.
  destruct (Feeds.get now c key) as [o c'] eqn:E. simpl in Hmiss. subst o.
  assert (Hc1 : Feeds.set arrival c' key "" !! key
                = Some (Feeds.mkEntry "" (arrival + 60 * 1000))).
  { unfold Feeds.set. by rewrite lookup_insert_eq. }
  eexists _, _. split; [rewrite (feed_json_miss _ _ _ _ _ _ _ _ E); reflexivity|].
  split; [exact Hc1|].
  destruct (decide (Feeds.expired now'
              (Feeds.mkEntry "" (arrival + 60 * 1000)))) as [Hx|Hx].
  - apply feed_json_trace_miss. unfold Feeds.get. rewrite Hc1.
    by rewrite decide_True.
  - unfold Feeds.feed_json.
    rewrite (fetchWithCache_empty now' arrival' _ key url answer' _ Hc1 Hx
               eq_refl).
    by destruct answer'.
Qed.

(** X24. The two programs convert alike. The handlers of the variant
    build, from the components of a document, the list of events that
    [fetchAndStoreEvents] builds for the table, or fail on the same
    component: the conversion with the tag [[Sonarr] ] is the
    normalization with the prefix [Sonarr], and likewise for Radarr and any
    other prefix; so [/sonarr.json] replies with the events that the
    server with the table would reconcile, and with status 500 where that
    server would give up the document. *)
Theorem variant_converts_like_normalizer (prefix : string)
    (vs : list VEvent) :
  Feeds.convert ("[" +:+ prefix +:+ "] ") vs = normalize prefix vs /\
  Feeds.convert "[Sonarr] " vs = normalize "Sonarr" vs /\
  Feeds.convert "[Radarr] " vs = normalize "Radarr" vs /\
  forall icsData,
    ICAL_parse icsData = inr vs ->
    Feeds.respond ICAL_parse "[Sonarr] " (inr icsData) =
      match normalize "Sonarr" vs with
      | inl _ => Feeds.Failed "Failed to convert ICS to JSON"
      | inr events => Feeds.Events events
      end.
Proof.
  split; [apply convert_normalize|].
  split; [apply (convert_normalize "Sonarr")|].
  split; [apply (convert_normalize "Radarr")|].
  intros icsData Hparse. unfold Feeds.respond. rewrite Hparse.
  change "[Sonarr] " with ("[" +:+ "Sonarr" +:+ "] ").
  by rewrite convert_normalize.
Qed.

(** X25. The two endpoints do not interfere. A request to [/sonarr.json]
    leaves the entry of [/radarr.json] as it is, whatever the upstream
    answers, and the other way round. *)
Theorem endpoints_do_not_interfere (SONARR_ICS RADARR_ICS : string)
    (now arrival : Z) (c : gmap string Feeds.Entry) (answer : Outcome) :
  snd (fst (Feeds.sonarr_json ICAL_parse SONARR_ICS now arrival c answer))
    !! "radarr_json" = c !! "radarr_json" /\
  snd (fst (Feeds.radarr_json ICAL_parse RADARR_ICS now arrival c answer))
    !! "sonarr_json" = c !! "sonarr_json".
Proof.
  assert (H : forall key tag url key', key' <> key ->
    snd (fst (Feeds.feed_json ICAL_parse key tag url now arrival c answer))
      !! key' = c !! key').
  { intros key tag url key' Hne.
    pose proof (fetchWithCache_other now arrival c key url answer key' Hne) as Hf.
    unfold Feeds.feed_json.
    by destruct (Feeds.fetchWithCache now arrival c key url answer)
      as [[r c'] tr]. }
  split; apply H; discriminate.
Qed.

End FeedHandlers.

(** ** From the feed to the reply *)

Section EndToEnd.

Variable ICAL_parse : string -> Exn + list VEvent.

(** The work of one pass of the running server, done without anything in
    between, is a run of the pass alone against the table. *)
Lemma run_pass_steps i sched s p db' p' :
  passes s !! i = Some p ->
  run_pass sched (db s) p = Some (db', p') ->
  exists log,
    run ICAL_parse (PassStep i <$> sched) s =
      Some (mkSystem db' (cache s) (clock s) (<[i := p']> (passes s))
              (scans s) (scanned s) (replies s) (console s ++ log)).
Proof.
  revert s p. induction sched as [|a sched IH]; intros s p Hp.
  - simpl. intros [= <- <-]. exists []. rewrite list_insert_id by exact Hp.
    rewrite app_nil_r. by destruct s.
  - cbn [run_pass].
    destruct (pass_step a (db s) p) as [[[db1 p1] log]|] eqn:E; [|discriminate].
    intros Hrun.
    set (s1 := mkSystem db1 (cache s) (clock s) (<[i:=p1]> (passes s))
                 (scans s) (scanned s) (replies s) (console s ++ log)).
    assert (Hstep : step ICAL_parse (PassStep i a) s = Some s1).
    { simpl. rewrite Hp, E. reflexivity. }
    assert (Hp1 : passes s1 !! i = Some p1).
    { simpl. apply list_lookup_insert_eq. eapply lookup_lt_Some; eauto. }
    destruct (IH s1 p1 Hp1 Hrun) as [log' IH1]. exists (log ++ log').
    rewrite fmap_cons. cbn [run]. rewrite Hstep, IH1.
    simpl. by rewrite list_insert_insert_eq, app_assoc.
Qed.

(** X26. A new event reaches the calendar. Let the upstream answer the
    first request with a document whose components normalize to a batch of
    distinct keys, let the table hold one record per key, and let the pass
    that the ingestion starts do its work alone, in any order and without
    lookup errors, to its end. Then a request whose range covers an event
    of the batch and that is not answered from the cache is answered with
    a list that holds a record with the key and the color of the event. *)
Theorem ingested_event_is_served (s : System) (upstream : nat -> Outcome)
    (url prefix data : string) (vs : list VEvent) (evs : list Event)
    (sched : list PassAction) (db' : Storage) (p' : Pass)
    (e : Event) (q : Query) (rangeStart rangeEnd : string) :
  upstream 1%nat = Resolved data ->
  ICAL_parse data = inr vs ->
  normalize prefix vs = inr evs ->
  NoDup (event_key <$> evs) ->
  NoDup (row_key <$> rows (db s)) ->
  Forall error_free sched ->
  run_pass sched (db s) (begin_pass evs) = Some (db', p') ->
  pass_done p' ->
  e ∈ evs ->
  q_start q = Some (Str rangeStart) -> q_end q = Some (Str rangeEnd) ->
  rangeStart <> "" -> rangeEnd <> "" ->
  String.leb rangeStart (start e) = true ->
  String.leb (end_ e) rangeEnd = true ->
  fst (Cache.get (clock s) (cache s) (cacheKey rangeStart rangeEnd)) = None ->
  exists s1 s2 result r,
    run ICAL_parse
        (Ingest url prefix upstream
           :: (PassStep (length (passes s)) <$> sched)) s = Some s1 /\
    db s1 = db' /\
    serve ICAL_parse q false s1 = Some s2 /\
    replies s2 = replies s ++ [Json result] /\
    r ∈ result /\ row_key r = event_key e /\ row_color r = color e.
Proof.
  intros Hup Hparse Hnorm Hevs Hdb Hfree Hrun Hdone He Hs Hen Hs' He'
         Hle1 Hle2 Hmiss.
  destruct (reconcile_distinct evs Hevs (db s) sched db' p' Hdb Hfree Hrun Hdone)
    as [_ Hall].
  pose proof (first_pass_colors evs Hevs (db s) sched db' p' Hdb Hfree Hrun Hdone)
    as Hcol.
  pose proof (Hall e He) as Hin.
  apply list_elem_of_fmap in Hin as (r & Hk & Hr).
  assert (Hing : fetchAndStoreEvents ICAL_parse upstream url prefix
                 = (Some (begin_pass evs), [HttpGet url 1])).
  { unfold fetchAndStoreEvents, fetchWithRetries, default_retries. simpl.
    rewrite Hup, Hparse, Hnorm. reflexivity. }
  set (s0 := mkSystem (db s) (cache s) (clock s)
               (passes s ++ [begin_pass evs]) (scans s) (scanned s)
               (replies s) (console s ++ [HttpGet url 1])).
  assert (Hp0 : passes s0 !! length (passes s) = Some (begin_pass evs)).
  { simpl. rewrite lookup_app_r by reflexivity.
    by rewrite Nat.sub_diag. }
  destruct (run_pass_steps (length (passes s)) sched s0 _ db' p' Hp0 Hrun)
    as [log Hsteps].
  destruct (Cache.get (clock s) (cache s) (cacheKey rangeStart rangeEnd))
    as [o c'] eqn:E.
  simpl in Hmiss. subst o.
  eexists _, _, _, r. split.
  { cbn [run step]. rewrite Hing. cbn [option_list]. exact Hsteps. }
  split; [reflexivity|]. split.
  { apply (serve_miss ICAL_parse q _ rangeStart rangeEnd c' Hs Hen Hs' He').
    exact E. }
  cbn [replies db]. split; [reflexivity|].
  split; [|split; [by symmetry|by apply Hcol]].
  apply in_all_in_range. split; [exact Hr|].
  assert (Hks : row_start r = start e) by (unfold row_key, event_key in Hk; congruence).
  assert (Hke : row_end r = end_ e) by (unfold row_key, event_key in Hk; congruence).
  rewrite Hks, Hke. done.
Qed.

End EndToEnd.

(** * The further properties at concrete inputs *)

(** Two refusals, then the document. *)
Lemma fetch_first_success_witness :
  exists tr,
    fetchWithRetries (Sample.third_time "pilot") "http://sonarr/feed.ics" 5 2000
      = (Returned "pilot", tr) /\
    requested tr = [1; 2; 3]%nat /\
    attempts tr = 3%nat /\
    sleeps tr = [2000; 2000].
Proof.
  apply (fetch_first_success (Sample.third_time "pilot")
           "http://sonarr/feed.ics" 5 2000 3 "pilot").
  - lia.
  - intros i Hi. exists "ECONNREFUSED". unfold Sample.third_time.
    assert (H : (i <? 3)%nat = true) by (apply Nat.ltb_lt; lia).
    rewrite H. reflexivity.
  - reflexivity.
Defined.

(** The upstream is down and two attempts are allowed. *)
Lemma fetch_exhausted_witness :
  exists tr,
    fetchWithRetries Sample.down "http://radarr/feed.ics" 2 500
      = (Thrown (FetchFailed "http://radarr/feed.ics" 2), tr) /\
    requested tr = [1; 2]%nat /\
    attempts tr = 2%nat /\
    sleeps tr = [500].
Proof.
  apply (fetch_exhausted Sample.down "http://radarr/feed.ics" 2 500).
  - lia.
  - intros i Hi. exists "ECONNREFUSED". reflexivity.
Defined.

(** The same component in the two feeds. *)
Lemma sources_never_share_a_key_witness :
  normalize_one "Sonarr" Sample.pilot = inr Sample.pilot_event /\
  event_key Sample.pilot_event <>
    ("[Radarr] Show - 1x01 - Pilot", "2024-01-01T10:00:00", "2024-01-01T11:00:00").
Proof.
  split; [reflexivity|].
  exact (proj1 (sources_never_share_a_key Sample.pilot Sample.pilot
                  Sample.pilot_event
                  (mkEvent "[Radarr] Show - 1x01 - Pilot" "2024-01-01T10:00:00"
                     "2024-01-01T11:00:00" "red" "First episode" "")
                  eq_refl eq_refl)).
Defined.

(** A component with both dates followed by one without DTSTART; and a
    component with both dates followed by one without DTEND, for which the
    getter gives the start as the end. *)
Lemma component_without_start_discards_feed_witness :
  (normalize "Sonarr" [Sample.pilot; Sample.undated]
     = inl (TypeError "Cannot read properties of null (reading 'toString')") /\
   fetchAndStoreEvents Sample.parse (Sample.up "pilot and undated")
                       "http://sonarr/feed.ics" "Sonarr"
     = (None,
        [HttpGet "http://sonarr/feed.ics" 1;
         ErrorFetchingAndStoring
           (TypeError "Cannot read properties of null (reading 'toString')")])) /\
  exists evs,
    normalize "Sonarr"
      [Sample.pilot;
       mkVEvent (Some "Show - 1x04 - Fourth") (Some "2024-01-02T10:00:00")
                (Some "2024-01-02T10:00:00") None None None] = inr evs.
Proof.
  split.
  - assert (Hex : Exists (fun v => startDate v = None)
                    [Sample.pilot; Sample.undated]).
    { right. left. reflexivity. }
    destruct (proj1 (component_without_start_discards_feed Sample.parse "Sonarr"
                       [Sample.pilot; Sample.undated]) Hex) as [H1 H2].
    split; [exact H1|].
    exact (H2 (Sample.up "pilot and undated") "http://sonarr/feed.ics"
              "pilot and undated" [HttpGet "http://sonarr/feed.ics" 1]
              eq_refl eq_refl).
  - apply (proj1 (proj2 (component_without_start_discards_feed Sample.parse
                           "Sonarr" _))).
    + repeat constructor; simpl; eauto.
    + repeat constructor; simpl; eauto.
Defined.

(** A pass over two events after the first lookup has run. *)
Lemma pass_bookkeeping_witness :
  exists db' p',
    run_pass [SelectRuns 1 false] empty_storage
             (begin_pass [Sample.pilot_event; Sample.pilot_event])
      = Some (db', p') /\
    length (issued p') = 1%nat /\ length (resolved p') = 1%nat /\
    pendingOperations p' = 2.
Proof.
  destruct (run_pass [SelectRuns 1 false] empty_storage
              (begin_pass [Sample.pilot_event; Sample.pilot_event]))
    as [[db' p']|] eqn:E; [|vm_compute in E; discriminate].
  pose proof (proj1 (pass_bookkeeping _ _ _ _ _ E)) as H.
  exists db', p'. split; [reflexivity|].
  assert (Hl : length (issued p') = 1%nat /\ length (resolved p') = 1%nat).
  { vm_compute in E. injection E as <- <-. split; reflexivity. }
  destruct Hl as [Hi Hr]. split; [exact Hi|]. split; [exact Hr|].
  rewrite H, Hi, Hr. reflexivity.
Defined.

(** A pass over one new event, run in program order to its end: five
    pieces of work, the most a batch of one event allows. *)
Lemma pass_terminates_witness :
  exists db' p',
    run_pass [SelectRuns 0 false; CallbackRuns 0; InsertStmtRuns;
              InsertStmtRuns; UpdateStmtRuns]
             empty_storage (begin_pass [Sample.pilot_event])
      = Some (db', p') /\
    work_left p' = 0%nat /\ pass_done p'.
Proof.
  destruct (run_pass [SelectRuns 0 false; CallbackRuns 0; InsertStmtRuns;
                      InsertStmtRuns; UpdateStmtRuns]
              empty_storage (begin_pass [Sample.pilot_event]))
    as [[db' p']|] eqn:E; [|vm_compute in E; discriminate].
  destruct (pass_terminates _ _ _ _ _ E) as (Hle & Hiff & _).
  assert (H0 : work_left p' = 0%nat) by (simpl in Hle; lia).
  exists db', p'. split; [reflexivity|]. split; [exact H0|].
  apply Hiff. exact H0.
Defined.

(** The pilot twice in one batch: both lookups run before either insert,
    and the table gets two rows, the most a batch of two allows. *)
Lemma pass_inserts_at_most_batch_witness :
  exists db' p',
    run_pass [SelectRuns 0 false; SelectRuns 0 false; CallbackRuns 0;
              CallbackRuns 0; InsertStmtRuns; InsertStmtRuns]
             empty_storage
             (begin_pass [Sample.pilot_event; Sample.pilot_event])
      = Some (db', p') /\
    (0 <= length (rows db') <= 2)%nat /\
    length (rows db') = 2%nat.
Proof.
  destruct (run_pass [SelectRuns 0 false; SelectRuns 0 false; CallbackRuns 0;
                      CallbackRuns 0; InsertStmtRuns; InsertStmtRuns]
              empty_storage
              (begin_pass [Sample.pilot_event; Sample.pilot_event]))
    as [[db' p']|] eqn:E; [|vm_compute in E; discriminate].
  pose proof (pass_inserts_at_most_batch _ _ _ _ _ E) as H.
  exists db', p'. split; [reflexivity|]. split; [exact H|].
  vm_compute in E. injection E as <- <-. reflexivity.
Defined.

(** The pilot is stored; it comes twice in one batch, once confirmed, and
    the first lookup fails. *)
Lemma stored_batch_adds_no_record_witness :
  exists db' p',
    run_pass [SelectRuns 0 true; SelectRuns 0 false; CallbackRuns 1;
              CallbackRuns 0; UpdateStmtRuns]
             (mkStorage [Sample.pilot_row 1] 1)
             (begin_pass
                [mkEvent "[Sonarr] Show - 1x01 - Pilot" "2024-01-01T10:00:00"
                         "2024-01-01T11:00:00" "green" "First episode" "";
                 Sample.pilot_event])
      = Some (db', p') /\
    ids db' = [1] /\ sqlite_sequence db' = 1 /\
    length (records_of db' (event_key Sample.pilot_event)) = 1%nat.
Proof.
  match goal with
  | |- context [run_pass ?l ?d (begin_pass ?b)] =>
      set (sched := l); set (db0 := d); set (evs := b)
  end.
  assert (Hin : forall e, e ∈ evs -> event_key e ∈ (row_key <$> rows db0)).
  { intros e He. apply list_elem_of_singleton.
    apply elem_of_cons in He as [->|He]; [reflexivity|].
    apply list_elem_of_singleton in He as ->. reflexivity. }
  destruct (run_pass sched db0 (begin_pass evs)) as [[db' p']|] eqn:E;
    [|vm_compute in E; discriminate].
  destruct (stored_batch_adds_no_record evs sched db0 db' p' Hin E)
    as (H1 & _ & H3 & H4).
  exists db', p'. split; [reflexivity|]. split; [exact H1|].
  split; [exact H3|]. rewrite H4. reflexivity.
Defined.

(** The pilot and a second episode are new; the first pass runs in program
    order, the second one in another order and with a failed lookup. *)
Lemma reconcile_is_idempotent_witness :
  exists db1 p1 p2 r,
    run_pass [SelectRuns 0 false; SelectRuns 0 false; CallbackRuns 0;
              CallbackRuns 0; InsertStmtRuns; InsertStmtRuns; InsertStmtRuns;
              UpdateStmtRuns]
             empty_storage
             (begin_pass
                [Sample.pilot_event;
                 mkEvent "[Sonarr] Show - 1x02 - Second" "2024-01-01T20:00:00"
                         "2024-01-01T21:00:00" "red" "" "Channel 4"])
      = Some (db1, p1) /\
    length (rows db1) = 2%nat /\
    run_pass [SelectRuns 1 false; SelectRuns 0 true; CallbackRuns 1;
              CallbackRuns 0; UpdateStmtRuns]
             db1
             (begin_pass
                [Sample.pilot_event;
                 mkEvent "[Sonarr] Show - 1x02 - Second" "2024-01-01T20:00:00"
                         "2024-01-01T21:00:00" "red" "" "Channel 4"])
      = Some (db1, p2) /\
    records_of db1 (event_key Sample.pilot_event) = [r] /\ row_color r = "red".
Proof.
  match goal with
  | |- context [run_pass ?l empty_storage (begin_pass ?b)] =>
      set (sched1 := l); set (evs := b)
  end.
  set (sched2 := [SelectRuns 1 false; SelectRuns 0 true; CallbackRuns 1;
                  CallbackRuns 0; UpdateStmtRuns]).
  assert (Hevs : NoDup (event_key <$> evs)).
  { repeat constructor; simpl; rewrite ?elem_of_cons, ?elem_of_nil;
      intros H; decompose [or] H; discriminate || done. }
  assert (Hdb : NoDup (row_key <$> rows empty_storage)) by constructor.
  assert (Hfree : Forall error_free sched1) by (repeat constructor).
  destruct (run_pass sched1 empty_storage (begin_pass evs))
    as [[db1 p1]|] eqn:E1; [|vm_compute in E1; discriminate].
  assert (Hdone : pass_done p1).
  { vm_compute in E1. injection E1 as <- <-. repeat split. }
  assert (Hlen : length (rows db1) = 2%nat).
  { vm_compute in E1. injection E1 as <- <-. reflexivity. }
  destruct (run_pass sched2 db1 (begin_pass evs)) as [[db2 p2]|] eqn:E2;
    [|vm_compute in E1; injection E1 as <- <-; vm_compute in E2; discriminate].
  destruct (reconcile_is_idempotent evs empty_storage db1 db2 sched1 sched2
              p1 p2 Hevs Hdb Hfree E1 Hdone E2) as [Heq Hone].
  destruct (Hone Sample.pilot_event) as (r & Hr & Hc); [by left|].
  exists db1, p1, p2, r. split; [reflexivity|]. split; [exact Hlen|].
  split; [rewrite <- Heq at 2; exact E2|]. split; [exact Hr|exact Hc].
Defined.

(** The pilot is stored as the feed has it, and the feed is ingested
    again. *)
Lemma settled_batch_changes_nothing_witness :
  exists p',
    run_pass [SelectRuns 0 false; CallbackRuns 0; UpdateStmtRuns]
             (mkStorage [Sample.pilot_row 1] 1)
             (begin_pass [Sample.pilot_event])
      = Some (mkStorage [Sample.pilot_row 1] 1, p').
Proof.
  set (db0 := mkStorage [Sample.pilot_row 1] 1).
  set (sched := [SelectRuns 0 false; CallbackRuns 0; UpdateStmtRuns]).
  assert (Hk : forall e, e ∈ [Sample.pilot_event] ->
                 event_key e ∈ (row_key <$> rows db0)).
  { intros e He. apply list_elem_of_singleton in He as ->.
    apply list_elem_of_singleton. reflexivity. }
  assert (Hc : forall e r, e ∈ [Sample.pilot_event] -> r ∈ rows db0 ->
                 row_key r = event_key e -> row_color r = color e).
  { intros e r He Hr _. apply list_elem_of_singleton in He as ->.
    apply list_elem_of_singleton in Hr as ->. reflexivity. }
  destruct (run_pass sched db0 (begin_pass [Sample.pilot_event]))
    as [[db' p']|] eqn:E; [|vm_compute in E; discriminate].
  exists p'.
  rewrite (settled_batch_changes_nothing [Sample.pilot_event] sched db0 db' p'
             Hk Hc E).
  reflexivity.
Defined.

(** The day is queried while the table holds the pilot, and the callback of
    the scan runs 5 ms after the request; a second episode is then
    ingested. A request 600001 ms after the first request, 4 ms before the
    entry expires, is answered with the pilot alone; a request 5 ms later
    is answered with both rows. *)
Lemma expired_result_is_recomputed_witness :
  exists s0 s1 s2 s2' s3,
    run Sample.parse [Request Sample.day; ScanRuns 0 false; Tick 5]
        (initial (mkStorage [Sample.pilot_row 1] 1)) = Some s0 /\
    step Sample.parse (ScanCallback 0) s0 = Some s1 /\
    run Sample.parse
        [Ingest "http://sonarr/feed.ics" "Sonarr" (Sample.up "pilot and second");
         PassStep 0 (SelectRuns 0 false); PassStep 0 (SelectRuns 0 false);
         PassStep 0 (CallbackRuns 0); PassStep 0 (CallbackRuns 0);
         PassStep 0 InsertStmtRuns; PassStep 0 UpdateStmtRuns;
         Tick 599996] s1 = Some s2 /\
    clock s2 = 600001 /\
    length (Db.all_in_range (db s2) "2024-01-01T00:00" "2024-01-01T23:59")
      = 2%nat /\
    (replies <$> step Sample.parse (Request Sample.day) s2)
      = Some [Json [Sample.pilot_row 1]; Json [Sample.pilot_row 1]] /\
    run Sample.parse [Tick 5] s2 = Some s2' /\
    serve Sample.parse Sample.day false s2' = Some s3 /\
    replies s3 =
      replies s2' ++ [Json (Db.all_in_range (db s2') "2024-01-01T00:00"
                                            "2024-01-01T23:59")] /\
    length (Db.all_in_range (db s2') "2024-01-01T00:00" "2024-01-01T23:59")
      = 2%nat.
Proof.
  set (init := initial (mkStorage [Sample.pilot_row 1] 1)).
  set (sched :=
    [Ingest "http://sonarr/feed.ics" "Sonarr" (Sample.up "pilot and second");
     PassStep 0 (SelectRuns 0 false); PassStep 0 (SelectRuns 0 false);
     PassStep 0 (CallbackRuns 0); PassStep 0 (CallbackRuns 0);
     PassStep 0 InsertStmtRuns; PassStep 0 UpdateStmtRuns;
     Tick 599996]).
  set (s0 := mkSystem (mkStorage [Sample.pilot_row 1] 1) ∅ 5 [] []
               [(cacheKey "2024-01-01T00:00" "2024-01-01T23:59",
                 Some [Sample.pilot_row 1])] [] []).
  assert (E0 : run Sample.parse [Request Sample.day; ScanRuns 0 false; Tick 5]
                   init = Some s0) by (vm_compute; reflexivity).
  assert (E1 : exists s1, step Sample.parse (ScanCallback 0) s0 = Some s1)
    by (eexists; reflexivity).
  destruct E1 as [s1 E1].
  assert (E2 : exists s2 s2',
            run Sample.parse sched s1 = Some s2 /\
            run Sample.parse (sched ++ [Tick 5]) s1 = Some s2' /\
            run Sample.parse [Tick 5] s2 = Some s2' /\
            clock s2 = 600001 /\ clock s2' = 600006 /\
            replies s2 = [Json [Sample.pilot_row 1]] /\
            length (Db.all_in_range (db s2) "2024-01-01T00:00"
                                    "2024-01-01T23:59") = 2%nat /\
            length (Db.all_in_range (db s2') "2024-01-01T00:00"
                                     "2024-01-01T23:59") = 2%nat).
  { vm_compute in E1. injection E1 as <-.
    eexists. eexists. split; [vm_compute; reflexivity|].
    split; [vm_compute; reflexivity|].
    split; [vm_compute; reflexivity|].
    split; [reflexivity|]. split; [reflexivity|]. split; [reflexivity|].
    split; vm_compute; reflexivity. }
  destruct E2 as (s2 & s2' & E2 & E2' & Ht & Hclock2 & Hclock2' & Hr2
                  & Hlen2 & Hlen2').
  assert (H1 : "2024-01-01T00:00" <> "") by discriminate.
  assert (H2 : "2024-01-01T23:59" <> "") by discriminate.
  assert (Hact : Forall storage_activity sched) by (repeat constructor).
  assert (Hact' : Forall storage_activity (sched ++ [Tick 5]))
    by (repeat constructor).
  assert (H0 : 0 <= clock s0) by (cbn [clock s0]; lia).
  destruct (expired_result_is_recomputed Sample.parse Sample.day
              "2024-01-01T00:00" "2024-01-01T23:59" 0 [Sample.pilot_row 1]
              s0 s1 s2 sched eq_refl eq_refl H1 H2 H0 eq_refl E1 Hact E2)
    as (_ & Hhit & _).
  destruct (expired_result_is_recomputed Sample.parse Sample.day
              "2024-01-01T00:00" "2024-01-01T23:59" 0 [Sample.pilot_row 1]
              s0 s1 s2' (sched ++ [Tick 5]) eq_refl eq_refl H1 H2 H0 eq_refl
              E1 Hact' E2')
    as (_ & _ & Hmiss).
  destruct Hmiss as (_ & s3 & Hs3 & Hr3 & _);
    [rewrite Hclock2'; cbn [clock s0]; lia|].
  assert (Hstale : (replies <$> step Sample.parse (Request Sample.day) s2)
                   = Some [Json [Sample.pilot_row 1]; Json [Sample.pilot_row 1]]).
  { rewrite Hhit; [|rewrite Hclock2; cbn [clock s0]; lia].
    cbn [fmap option_fmap option_map replies]. rewrite Hr2. reflexivity. }
  exists s0, s1, s2, s2', s3.
  split; [exact E0|]. split; [exact E1|]. split; [exact E2|].
  split; [exact Hclock2|]. split; [exact Hlen2|]. split; [exact Hstale|].
  split; [exact Ht|]. split; [exact Hs3|]. split; [exact Hr3|exact Hlen2'].
Defined.

(** The scan of the day fails once. *)
Lemma failed_scan_is_not_cached_witness :
  exists s1 s2,
    serve Sample.parse Sample.day true
          (initial (mkStorage [Sample.pilot_row 1] 1)) = Some s1 /\
    replies s1 = [Status500 "Failed to fetch events"] /\
    serve Sample.parse Sample.day false s1 = Some s2 /\
    replies s2 = [Status500 "Failed to fetch events"; Json [Sample.pilot_row 1]].
Proof.
  assert (H1 : "2024-01-01T00:00" <> "") by discriminate.
  assert (H2 : "2024-01-01T23:59" <> "") by discriminate.
  destruct (failed_scan_is_not_cached Sample.parse Sample.day
              "2024-01-01T00:00" "2024-01-01T23:59"
              (initial (mkStorage [Sample.pilot_row 1] 1))
              eq_refl eq_refl H1 H2 eq_refl)
    as (s1 & s2 & Hs1 & Hr1 & _ & _ & _ & Hs2 & Hr2).
  exists s1, s2. split; [exact Hs1|]. split; [exact Hr1|].
  split; [exact Hs2|]. rewrite Hr2, Hr1. reflexivity.
Defined.

(** A row from [2024_05] to [2024_06] is in the range from [2024_01] to
    [2025] and not in the range from [2024] to [01_2025]; the second range
    is asked for after the first and gets the row. *)
Lemma ranges_sharing_a_cache_key_witness :
  exists s1 s2,
    serve Sample.parse (mkQuery (Some (Str "2024_01")) (Some (Str "2025"))) false
          (initial (mkStorage [mkRow 1 "[Sonarr] Show" "2024_05" "2024_06"
                                     "red" "" ""] 1)) = Some s1 /\
    step Sample.parse (Request (mkQuery (Some (Str "2024")) (Some (Str "01_2025")))) s1
      = Some s2 /\
    replies s2 =
      [Json [mkRow 1 "[Sonarr] Show" "2024_05" "2024_06" "red" "" ""];
       Json [mkRow 1 "[Sonarr] Show" "2024_05" "2024_06" "red" "" ""]] /\
    Db.all_in_range (db s1) "2024" "01_2025" = [].
Proof.
  set (s0 := initial (mkStorage [mkRow 1 "[Sonarr] Show" "2024_05" "2024_06"
                                       "red" "" ""] 1)).
  destruct (serve Sample.parse (mkQuery (Some (Str "2024_01")) (Some (Str "2025"))) false s0)
    as [s1|] eqn:E1; [|vm_compute in E1; discriminate].
  assert (Ha : "2024" <> "") by discriminate.
  assert (Hc : "2025" <> "") by discriminate.
  assert (Hclock : clock s1 <= clock s0 + 600 * 1000).
  { vm_compute in E1. injection E1 as <-. vm_compute. discriminate. }
  destruct (ranges_sharing_a_cache_key Sample.parse "2024" "01" "2025"
              s0 s1 s1 [] Ha Hc eq_refl E1 (Forall_nil_2 _) eq_refl Hclock)
    as [_ Hstep].
  exists s1. eexists. split; [reflexivity|]. split; [exact Hstep|].
  vm_compute in E1. injection E1 as <-. split; reflexivity.
Defined.


(** The pilot is in the hour from ten to twelve, and so in the day. *)
Lemma wider_range_returns_more_witness :
  Db.all_in_range (mkStorage [Sample.pilot_row 1] 1)
                  "2024-01-01T10" "2024-01-01T12" = [Sample.pilot_row 1] /\
  Sample.pilot_row 1 ∈ Db.all_in_range (mkStorage [Sample.pilot_row 1] 1)
                         "2024-01-01T00:00" "2024-01-01T23:59".
Proof.
  split; [reflexivity|].
  apply (proj2 (wider_range_returns_more (mkStorage [Sample.pilot_row 1] 1)
                  "2024-01-01T10" "2024-01-01T12"
                  "2024-01-01T00:00" "2024-01-01T23:59" eq_refl eq_refl)).
  by left.
Defined.

(** A range from the second of January back to the first. *)
Lemma inverted_range_is_empty_witness :
  Db.all_in_range (mkStorage [Sample.pilot_row 1] 1)
                  "2024-01-02T00:00" "2024-01-01T00:00" = [].
Proof.
  apply inverted_range_is_empty; [reflexivity|].
  intros r Hr. apply list_elem_of_singleton in Hr as ->. reflexivity.
Defined.

(** A request served from the table. *)
Lemma read_and_write_paths_apart_witness :
  exists s',
    run Sample.parse [Request Sample.day; ScanRuns 0 false; ScanCallback 0]
        (initial (mkStorage [Sample.pilot_row 1] 1)) = Some s' /\
    db s' = mkStorage [Sample.pilot_row 1] 1 /\ passes s' = [] /\
    replies s' = [Json [Sample.pilot_row 1]].
Proof.
  set (s0 := initial (mkStorage [Sample.pilot_row 1] 1)).
  set (sched := [Request Sample.day; ScanRuns 0 false; ScanCallback 0]).
  destruct (run Sample.parse sched s0) as [s'|] eqn:E;
    [|vm_compute in E; discriminate].
  assert (Hread : Forall read_activity sched) by (repeat constructor).
  destruct (proj1 (read_and_write_paths_apart Sample.parse sched s0 s' E) Hread)
    as (Hdb & Hp & _).
  exists s'. split; [reflexivity|]. split; [exact Hdb|]. split; [exact Hp|].
  vm_compute in E. injection E as <-. reflexivity.
Defined.

(** The table holds the pilot with id 1 and the counter stands at 5, rows 2
    to 5 having been deleted by hand; the second episode gets the id 6. *)
Lemma row_ids_never_reused_witness :
  exists s',
    run Sample.parse
        [Ingest "http://sonarr/feed.ics" "Sonarr" (Sample.up "pilot and second");
         PassStep 0 (SelectRuns 0 false); PassStep 0 (SelectRuns 0 false);
         PassStep 0 (CallbackRuns 0); PassStep 0 (CallbackRuns 0);
         PassStep 0 InsertStmtRuns; PassStep 0 UpdateStmtRuns]
        (initial (mkStorage [Sample.pilot_row 1] 5)) = Some s' /\
    ids (db s') = [1; 6] /\ NoDup (ids (db s')).
Proof.
  set (s0 := initial (mkStorage [Sample.pilot_row 1] 5)).
  match goal with |- context [run Sample.parse ?l _] => set (sched := l) end.
  destruct (run Sample.parse sched s0) as [s'|] eqn:E;
    [|vm_compute in E; discriminate].
  destruct (row_ids_never_reused Sample.parse sched s0 s' E)
    as (new & _ & _ & _ & Hnd).
  exists s'. split; [reflexivity|]. split.
  - vm_compute in E. injection E as <-. reflexivity.
  - apply Hnd. simpl. repeat constructor. by intros H%elem_of_nil.
Defined.

(** The document is fetched at the first request; a minute later, with the
    upstream down, the endpoint still replies with the pilot. *)
Lemma feed_reused_for_a_minute_witness :
  exists c1,
    Feeds.sonarr_json Sample.parse "http://sonarr/feed.ics" 0 150 ∅
                      (Resolved "pilot")
      = (Feeds.Events [Sample.pilot_event], c1,
         [HttpGet "http://sonarr/feed.ics" 1]) /\
    Feeds.sonarr_json Sample.parse "http://sonarr/feed.ics" 60000 60100 c1
                      (Rejected "ECONNREFUSED")
      = (Feeds.Events [Sample.pilot_event], c1, []).
Proof.
  assert (Hd : "pilot" <> "") by discriminate.
  assert (Hle : 60000 <= 150 + 60 * 1000) by lia.
  assert (Hm : fst (Feeds.get 0 ∅ "sonarr_json") = None).
  { unfold Feeds.get. rewrite lookup_empty. reflexivity. }
  destruct (feed_reused_for_a_minute Sample.parse "sonarr_json" "[Sonarr] "
              "http://sonarr/feed.ics" "pilot" 0 150 60000 60100 ∅
              (Rejected "ECONNREFUSED") Hd Hm Hle)
    as (r1 & c1 & H1 & H2).
  assert (Hr : Feeds.Events [Sample.pilot_event] = r1).
  { pose proof (f_equal (fun x => fst (fst x)) H1) as Hr. exact Hr. }
  exists c1. rewrite Hr. split; [exact H1|exact H2].
Defined.

(** The upstream is down at the first request and up at the second. *)
Lemma feed_failure_is_not_cached_witness :
  exists c1,
    Feeds.sonarr_json Sample.parse "http://sonarr/feed.ics" 0 150 ∅
                      (Rejected "ECONNREFUSED")
      = (Feeds.Failed "Failed to convert ICS to JSON", c1,
         [HttpGet "http://sonarr/feed.ics" 1]) /\
    c1 !! "sonarr_json" = None /\
    snd (Feeds.sonarr_json Sample.parse "http://sonarr/feed.ics" 1000 1100 c1
                           (Resolved "pilot"))
      = [HttpGet "http://sonarr/feed.ics" 1].
Proof.
  assert (Hm : fst (Feeds.get 0 ∅ "sonarr_json") = None).
  { unfold Feeds.get. rewrite lookup_empty. reflexivity. }
  exact (feed_failure_is_not_cached Sample.parse "sonarr_json" "[Sonarr] "
           "http://sonarr/feed.ics" "ECONNREFUSED" 0 150 1000 1100 ∅
           (Resolved "pilot") Hm).
Defined.

(** The feed has one event at the first request and two a minute later. *)
Lemma feed_refetched_after_a_minute_witness :
  exists r1 c1 c2,
    Feeds.radarr_json Sample.parse "http://radarr/feed.ics" 0 150 ∅
                      (Resolved "pilot")
      = (r1, c1, [HttpGet "http://radarr/feed.ics" 1]) /\
    Feeds.radarr_json Sample.parse "http://radarr/feed.ics" 60151 60300 c1
                      (Resolved "pilot and second")
      = (Feeds.respond Sample.parse "[Radarr] " (inr "pilot and second"), c2,
         [HttpGet "http://radarr/feed.ics" 1]) /\
    c2 !! "radarr_json" = Some (Feeds.mkEntry "pilot and second" 120300).
Proof.
  assert (H0 : 0 <= 150) by lia.
  assert (Hlate : 150 + 60 * 1000 < 60151) by lia.
  assert (Hm : fst (Feeds.get 0 ∅ "radarr_json") = None).
  { unfold Feeds.get. rewrite lookup_empty. reflexivity. }
  destruct (feed_refetched_after_a_minute Sample.parse "radarr_json" "[Radarr] "
              "http://radarr/feed.ics" "pilot" "pilot and second"
              0 150 60151 60300 ∅ Hm H0 Hlate)
    as (r1 & c1 & c2 & H1 & H2 & H3 & _).
  exists r1, c1, c2. split; [exact H1|]. split; [exact H2|exact H3].
Defined.

(** The upstream answers with an empty body, then with the pilot. *)
Lemma empty_body_is_fetched_again_witness :
  exists r1 c1,
    Feeds.sonarr_json Sample.parse "http://sonarr/feed.ics" 0 150 ∅
                      (Resolved "")
      = (r1, c1, [HttpGet "http://sonarr/feed.ics" 1]) /\
    c1 !! "sonarr_json" = Some (Feeds.mkEntry "" 60150) /\
    snd (Feeds.sonarr_json Sample.parse "http://sonarr/feed.ics" 1000 1100 c1
                           (Resolved "pilot"))
      = [HttpGet "http://sonarr/feed.ics" 1].
Proof.
  assert (Hm : fst (Feeds.get 0 ∅ "sonarr_json") = None).
  { unfold Feeds.get. rewrite lookup_empty. reflexivity. }
  exact (empty_body_is_fetched_again Sample.parse "sonarr_json" "[Sonarr] "
           "http://sonarr/feed.ics" 0 150 1000 1100 ∅ (Resolved "pilot")
           Hm).
Defined.

(** The pilot is ingested into an empty table and the day is queried. *)
Lemma ingested_event_is_served_witness :
  exists s1 s2 result r,
    run Sample.parse
        [Ingest "http://sonarr/feed.ics" "Sonarr" (Sample.up "pilot");
         PassStep 0 (SelectRuns 0 false); PassStep 0 (CallbackRuns 0);
         PassStep 0 InsertStmtRuns; PassStep 0 InsertStmtRuns;
         PassStep 0 UpdateStmtRuns]
        (initial empty_storage) = Some s1 /\
    serve Sample.parse Sample.day false s1 = Some s2 /\
    replies s2 = [Json result] /\
    r ∈ result /\
    row_key r = event_key Sample.pilot_event /\ row_color r = "red".
Proof.
  set (sched := [SelectRuns 0 false; CallbackRuns 0; InsertStmtRuns;
                 InsertStmtRuns; UpdateStmtRuns]).
  destruct (run_pass sched empty_storage (begin_pass [Sample.pilot_event]))
    as [[db' p']|] eqn:E; [|vm_compute in E; discriminate].
  assert (Hdone : pass_done p').
  { vm_compute in E. injection E as <- <-. repeat split. }
  assert (Hevs : NoDup (event_key <$> [Sample.pilot_event])).
  { repeat constructor. by intros H%elem_of_nil. }
  assert (Hdb : NoDup (row_key <$> rows (db (initial empty_storage))))
    by constructor.
  assert (Hfree : Forall error_free sched) by (repeat constructor).
  assert (H1 : "2024-01-01T00:00" <> "") by discriminate.
  assert (H2 : "2024-01-01T23:59" <> "") by discriminate.
  destruct (ingested_event_is_served Sample.parse (initial empty_storage)
              (Sample.up "pilot") "http://sonarr/feed.ics" "Sonarr" "pilot"
              [Sample.pilot] [Sample.pilot_event] sched db' p'
              Sample.pilot_event Sample.day
              "2024-01-01T00:00" "2024-01-01T23:59"
              eq_refl eq_refl eq_refl Hevs Hdb Hfree E Hdone
              (list_elem_of_here _ _) eq_refl eq_refl H1 H2 eq_refl eq_refl
              eq_refl)
    as (s1 & s2 & result & r & Hrun & _ & Hserve & Hrep & Hin & Hk & Hc).
  exists s1, s2, result, r. split; [exact Hrun|]. split; [exact Hserve|].
  split; [exact Hrep|]. split; [exact Hin|]. split; [exact Hk|exact Hc].
Defined.
